(** * Microstrip patch antenna calculator: numeric design engine

    A shallow embedding of the TypeScript design engine
    (lib/constants.ts, lib/bessel.ts, lib/integrate.ts, lib/units.ts,
    calculators/rectangularPatch.ts, calculators/circularPatch.ts) and of
    the [calculate] functions of the two hooks
    (calculators/useRectangularPatch.ts, calculators/useCircularPatch.ts),
    with the properties its specification states about it and further
    properties of the code.

    Numbers.  A JavaScript [number] is modelled by the type [num]: a
    finite value carries an exact real, and the three special values
    [+Infinity], [-Infinity] and [NaN] are kept, with the arithmetic and
    the comparisons ECMAScript gives them.  Rounding, overflow, underflow
    and the sign of zero are left out: finite arithmetic is exact.

    The code computes in binary64.  On ordinary inputs it follows the
    exact model up to rounding; at the extremes it leaves it: [factorial]
    is exact up to 22! and overflows to [+Infinity] from 171!, the series
    of [besselJ] loses its digits and ends in [NaN] at large arguments
    (which is what the [safeBessel] wrappers are for), [physicalRadius]
    underflows to 0 at very high frequencies and [effectiveEpsilon]
    returns [epsilonR] itself once [12 h / W] is lost against 1.
    Statements about numerical values are statements about the exact
    model; statements about control flow and about the propagation of
    [NaN] carry over to the code as it runs.  Module [Binary64] evaluates
    [effectiveEpsilon] in binary64, where the difference is proved. *)

From Stdlib Require Import Reals Lra Lia ZArith List Bool Arith.
From Stdlib Require String.
From Corelib Require PrimFloat.
Import ListNotations.

Set Implicit Arguments.

(* ================================================================== *)
(** ** The number model *)

Module JS.

Local Open Scope R_scope.

Inductive num : Type :=
| Fin (r : R)
| PInf
| NInf
| NaN.

Definition Rleb (a b : R) : bool := if Rle_dec a b then true else false.
Definition Rltb (a b : R) : bool := if Rlt_dec a b then true else false.
Definition Reqb (a b : R) : bool := if Req_dec_T a b then true else false.

(** [Number.isFinite]. *)
Definition Number_isFinite (x : num) : bool :=
  match x with Fin _ => true | _ => false end.

Definition neg (x : num) : num :=
  match x with
  | Fin a => Fin (- a)
  | PInf => NInf
  | NInf => PInf
  | NaN => NaN
  end.

(** The four operations.  On finite operands they give the exact real
    result, where binary64 would round it, overflow to an infinity or
    underflow to 0; on the special values they follow ECMAScript. *)
Definition add (x y : num) : num :=
  match x, y with
  | NaN, _ | _, NaN => NaN
  | Fin a, Fin b => Fin (a + b)
  | PInf, NInf | NInf, PInf => NaN
  | PInf, _ | _, PInf => PInf
  | NInf, _ | _, NInf => NInf
  end.

Definition sub (x y : num) : num := add x (neg y).

(** An infinity times a finite value: [NaN] at zero, else the sign rule. *)
Definition scaleInf (inf : num) (a : R) : num :=
  if Reqb a 0 then NaN else if Rltb 0 a then inf else neg inf.

Definition mul (x y : num) : num :=
  match x, y with
  | NaN, _ | _, NaN => NaN
  | Fin a, Fin b => Fin (a * b)
  | Fin a, PInf | PInf, Fin a => scaleInf PInf a
  | Fin a, NInf | NInf, Fin a => scaleInf NInf a
  | PInf, PInf | NInf, NInf => PInf
  | PInf, NInf | NInf, PInf => NInf
  end.

Definition div (x y : num) : num :=
  match x, y with
  | NaN, _ | _, NaN => NaN
  | Fin a, Fin b =>
      if Reqb b 0
      then (if Reqb a 0 then NaN else if Rltb 0 a then PInf else NInf)
      else Fin (a / b)
  | Fin _, _ => Fin 0
  | PInf, Fin b => if Rleb 0 b then PInf else NInf
  | NInf, Fin b => if Rleb 0 b then NInf else PInf
  | _, _ => NaN
  end.

(** Comparisons: every comparison with [NaN] is false. *)
Definition lt (x y : num) : bool :=
  match x, y with
  | NaN, _ | _, NaN => false
  | Fin a, Fin b => Rltb a b
  | NInf, NInf | PInf, _ | _, NInf => false
  | NInf, _ | _, PInf => true
  end.

Definition le (x y : num) : bool :=
  match x, y with
  | NaN, _ | _, NaN => false
  | Fin a, Fin b => Rleb a b
  | NInf, _ | _, PInf => true
  | PInf, _ | _, NInf => false
  end.

Definition gt (x y : num) : bool := lt y x.
Definition ge (x y : num) : bool := le y x.

Definition Math_abs (x : num) : num :=
  match x with
  | Fin a => Fin (Rabs a)
  | PInf | NInf => PInf
  | NaN => NaN
  end.

Definition Math_sqrt (x : num) : num :=
  match x with
  | Fin a => if Rltb a 0 then NaN else Fin (sqrt a)
  | PInf => PInf
  | NInf | NaN => NaN
  end.

Definition Math_sin (x : num) : num :=
  match x with Fin a => Fin (sin a) | _ => NaN end.

Definition Math_cos (x : num) : num :=
  match x with Fin a => Fin (cos a) | _ => NaN end.

Definition Math_acos (x : num) : num :=
  match x with
  | Fin a => if Rleb (-1) a && Rleb a 1 then Fin (acos a) else NaN
  | _ => NaN
  end.

Definition Math_log (x : num) : num :=
  match x with
  | Fin a => if Rltb a 0 then NaN else if Reqb a 0 then NInf else Fin (ln a)
  | PInf => PInf
  | NInf | NaN => NaN
  end.

Definition Math_log10 (x : num) : num :=
  match x with
  | Fin a =>
      if Rltb a 0 then NaN else if Reqb a 0 then NInf else Fin (ln a / ln 10)
  | PInf => PInf
  | NInf | NaN => NaN
  end.

(** [Math.pow(x, n)] and [x ** n] at a non-negative integer exponent, the
    only exponents the engine uses.  [Math.pow(NaN, 0)] is 1. *)
Definition Math_pow (x : num) (n : nat) : num :=
  match n with
  | O => Fin 1
  | _ =>
      match x with
      | Fin a => Fin (a ^ n)
      | PInf => PInf
      | NInf => if Nat.even n then PInf else NInf
      | NaN => NaN
      end
  end.

Definition Math_PI : num := Fin PI.

(** Integers met as loop counters and orders. *)
Definition ofNat (n : nat) : num := Fin (INR n).
Definition ofZ (n : Z) : num := Fin (IZR n).

End JS.

Export JS.

Declare Scope num_scope.
Delimit Scope num_scope with num.
Bind Scope num_scope with num.
Infix "+" := add : num_scope.
Infix "-" := sub : num_scope.
Infix "*" := mul : num_scope.
Infix "/" := div : num_scope.
Infix "<?" := lt : num_scope.
Infix "<=?" := le : num_scope.
Infix ">?" := gt : num_scope.
Infix ">=?" := ge : num_scope.
Notation "# r" := (Fin r%R) (at level 1, r at level 0, format "# r") : num_scope.

(* ================================================================== *)
(** ** lib/constants.ts *)

Module Constants.
Local Open Scope num_scope.

(** Speed of light in m/s. *)
Definition C : num := #299792458.

Definition wavelength (frHz : num) : num := C / frHz.

Definition k0 (frHz : num) : num := (#2 * Math_PI * frHz) / C.

End Constants.

(* ================================================================== *)
(** ** lib/bessel.ts *)

Module Bessel.
Local Open Scope num_scope.

(** [factorial]: the product loop [for (i = 2; i <= k; i++) f *= i].
    The product is exact here; in binary64 it is exact up to 22! and
    [+Infinity] from 171!. *)
Definition factorial (k : Z) : num :=
  if (k <? 0)%Z then NaN
  else if (k =? 0)%Z || (k =? 1)%Z then #1
  else fold_left (fun f i => f * ofNat i) (seq 2 (Z.to_nat k - 1)) #1.

(** The summation loop of [besselJ]; [iters] counts the iterations left
    of the 120, [k] is the loop counter.  The sum is exact here; in
    binary64 it cancels at large arguments and ends in [NaN] once
    [x2 * x2] overflows. *)
Fixpoint besselLoop (iters k : nat) (n : Z) (x2 sum term : num) : num :=
  match iters with
  | O => sum
  | S iters' =>
      let sum := sum + term in
      let term :=
        term * ((#(-1) * (x2 * x2)) / ((ofNat k + #1) * (ofZ n + ofNat k + #1))) in
      if Math_abs term <? #1e-16 * Math_abs sum then sum
      else besselLoop iters' (S k) n x2 sum term
  end.

(** [besselJ(n, x)].  The order is an integer here, so the source's test
    [n !== Math.floor(n)] never fires. *)
Definition besselJ (n : Z) (x : num) : num :=
  if negb (Number_isFinite x) then NaN
  else if (n <? 0)%Z then NaN
  else
    let x2 := x / #2 in
    let term := Math_pow x2 (Z.to_nat n) / (factorial n * factorial n) in
    let term := if (n =? 0)%Z then #1 else term in
    if negb (Number_isFinite term) then #0
    else besselLoop 120 0 n x2 #0 term.

Definition besselJ0 (x : num) : num := besselJ 0 x.
Definition besselJ2 (x : num) : num := besselJ 2 x.

End Bessel.

(* ================================================================== *)
(** ** lib/integrate.ts *)

Module Integrate.
Local Open Scope num_scope.

(** One pass of the body of the loop of [simpson]. *)
Definition simpsonStep (f : num -> num) (a h : num) (sum : num) (i : nat) : num :=
  let x := a + ofNat i * h in
  sum + (if Nat.eqb (i mod 2) 0 then #2 * f x else #4 * f x).

Definition simpson (f : num -> num) (a b : num) (n : nat) : num :=
  let n := if negb (Nat.eqb (n mod 2) 0) then (n + 1)%nat else n in
  let h := (b - a) / ofNat n in
  let sum := f a + f b in
  let sum := fold_left (simpsonStep f a h) (seq 1 (n - 1)) sum in
  (h / #3) * sum.

(** One pass of the outer loop of [simpson2D].  The last abscissa
    [a + nOuter * hOuter] is [b] here; in binary64 it can fall short of
    [b] by rounding. *)
Definition simpson2DStep (f : num -> num -> num) (a hOuter c d : num)
    (nOuter nInner : nat) (total : num) (i : nat) : num :=
  let x := a + ofNat i * hOuter in
  let w :=
    if Nat.eqb i 0 || Nat.eqb i nOuter then #1
    else if Nat.eqb (i mod 2) 0 then #2 else #4 in
  let g := fun y => f x y in
  total + w * simpson g c d nInner.

Definition simpson2D (f : num -> num -> num) (a b c d : num)
    (nOuter nInner : nat) : num :=
  let hOuter := (b - a) / ofNat nOuter in
  let total :=
    fold_left (simpson2DStep f a hOuter c d nOuter nInner)
      (seq 0 (nOuter + 1)) #0 in
  (hOuter / #3) * total.

End Integrate.

(* ================================================================== *)
(** ** calculators/rectangularPatch.ts *)

Module Rectangular.
Import Constants Bessel Integrate.
Local Open Scope num_scope.

Record RectangularPatchInput : Type := {
  frHz : num;
  epsilonR : num;
  hM : num
}.

(** Input of the reverse calculation; its permittivity and height fields
    carry a suffix, the forward input owning the plain names. *)
Record RectangularPatchInputReverse : Type := {
  WM : num;
  LM : num;
  epsilonR_rev : num;
  hM_rev : num
}.

Record RectangularPatchResult : Type := {
  W : num;
  L : num;
  L_eff : num;
  epsilonReff : num;
  G1 : num;
  G12 : num;
  RinAtEdge : num;
  y0_50ohm : option num;
  directivityD : num;
  directivityDBi : num;
  lambda0 : num
}.

Definition safeBesselJ0 (x : num) : num :=
  let v := besselJ0 x in
  if Number_isFinite v then v else #0.

(** Exact on finite arguments; [Binary64.effectiveEpsilon] below is the
    same expression as the code rounds it. *)
Definition effectiveEpsilon (epsilonR W h : num) : num :=
  (epsilonR + #1) / #2
  + ((epsilonR - #1) / #2) * #1 / Math_sqrt (#1 + #12 * h / W).

Definition eps : num := #1e-12.

(** The three integrand closures of [computeRectangularPatch], with the
    variables they capture as leading arguments. *)
Definition integrandG1 (k0Val W : num) (theta : num) : num :=
  let cosT := Math_cos theta in
  let sinT := Math_sin theta in
  if Math_abs cosT <? eps then
    let term := (k0Val * W) / #2 in
    term * term * Math_pow sinT 3
  else
    let arg := (k0Val * W / #2) * cosT in
    Math_pow (Math_sin arg / cosT) 2 * Math_pow sinT 3.

Definition integrandG12 (k0Val W L : num) (theta : num) : num :=
  let cosT := Math_cos theta in
  let sinT := Math_sin theta in
  let j0Arg := k0Val * L * sinT in
  let j0Val := safeBesselJ0 j0Arg in
  if Math_abs cosT <? eps then
    let term := (k0Val * W) / #2 in
    term * term * j0Val * Math_pow sinT 3
  else
    let arg := (k0Val * W / #2) * cosT in
    Math_pow (Math_sin arg / cosT) 2 * j0Val * Math_pow sinT 3.

Definition integrandI1 (k0Val W L_eff : num) (theta phi : num) : num :=
  let cosT := Math_cos theta in
  let sinT := Math_sin theta in
  let factor :=
    if Math_abs cosT <? eps then
      let term := (k0Val * W) / #2 in
      term * term
    else
      let arg := (k0Val * W / #2) * cosT in
      Math_pow (Math_sin arg / cosT) 2 in
  let inner := (k0Val * L_eff / #2) * sinT * Math_sin phi in
  factor * Math_pow sinT 3 * Math_pow (Math_cos inner) 2.

(** The guard at the entry of [computeRectangularPatch]. *)
Definition invalidInput (input : RectangularPatchInput) : bool :=
  (frHz input <=? #0) || (epsilonR input <? #1) || (hM input <=? #0).

Definition computeRectangularPatch (input : RectangularPatchInput)
  : option RectangularPatchResult :=
  let frHz := frHz input in
  let epsilonR := epsilonR input in
  let hM := hM input in
  if (frHz <=? #0) || (epsilonR <? #1) || (hM <=? #0) then None else
  let lambda0 := wavelength frHz in
  let k0Val := k0 frHz in
  let W := (C / (#2 * frHz)) * Math_sqrt (#2 / (epsilonR + #1)) in
  let epsilonReff := effectiveEpsilon epsilonR W hM in
  let num := (epsilonReff + #0.3) * (W / hM + #0.264) in
  let den := (epsilonReff - #0.258) * (W / hM + #0.8) in
  let L := C / (#2 * frHz * Math_sqrt epsilonReff) - #0.824 * hM * (num / den) in
  let L_eff := C / (#2 * frHz * Math_sqrt epsilonReff) in
  let G1 :=
    (#1 / (#120 * Math_PI * Math_PI))
    * simpson (integrandG1 k0Val W) #0 Math_PI 512 in
  let G12 :=
    (#1 / (#120 * Math_PI * Math_PI))
    * simpson (integrandG12 k0Val W L) #0 Math_PI 512 in
  let Gsum := G1 + G12 in
  if negb (Number_isFinite G1) || negb (Number_isFinite G12) || (Gsum <=? #0)
  then None else
  let RinAtEdge := #1 / (#2 * Gsum) in
  let y0_50ohm :=
    if (RinAtEdge >=? #50) && (RinAtEdge <? #1e10) then
      let ratio := #50 / RinAtEdge in
      if (ratio <=? #1) && (ratio >=? #0)
      then Some ((L / Math_PI) * Math_acos (Math_sqrt ratio))
      else None
    else None in
  let I1 :=
    simpson2D (integrandI1 k0Val W L_eff) #0 Math_PI #0 Math_PI 128 128 in
  if negb (Number_isFinite I1) || (I1 <=? #0) then
    Some {| W := W; L := L; L_eff := L_eff; epsilonReff := epsilonReff;
            G1 := G1; G12 := G12; RinAtEdge := RinAtEdge;
            y0_50ohm := y0_50ohm;
            directivityD := NaN; directivityDBi := NaN;
            lambda0 := lambda0 |}
  else
  let D := Math_pow ((#2 * Math_PI * W) / lambda0) 2 * (Math_PI / I1) in
  let directivityDBi := #10 * Math_log10 D in
  Some {| W := W; L := L; L_eff := L_eff; epsilonReff := epsilonReff;
          G1 := G1; G12 := G12; RinAtEdge := RinAtEdge;
          y0_50ohm := y0_50ohm;
          directivityD := D; directivityDBi := directivityDBi;
          lambda0 := lambda0 |}.

Definition computeRectangularPatchReverse (input : RectangularPatchInputReverse)
  : option (num * RectangularPatchResult) :=
  let WM := WM input in
  let LM := LM input in
  let epsilonR := epsilonR_rev input in
  let hM := hM_rev input in
  if (WM <=? #0) || (LM <=? #0) || (epsilonR <? #1) || (hM <=? #0) then None else
  let epsilonReff := effectiveEpsilon epsilonR WM hM in
  let num := (epsilonReff + #0.3) * (WM / hM + #0.264) in
  let den := (epsilonReff - #0.258) * (WM / hM + #0.8) in
  let deltaL := #0.824 * hM * (num / den) in
  let frHz := C / (#2 * Math_sqrt epsilonReff * (LM + deltaL)) in
  if negb (Number_isFinite frHz) || (frHz <=? #0) then None else
  match computeRectangularPatch
          {| frHz := frHz; epsilonR := epsilonR; hM := hM |} with
  | None => None
  | Some forward => Some (frHz, forward)
  end.

(** The local quantities of [computeRectangularPatch] as functions of
    the input, for the statements below. *)
Definition widthOf (input : RectangularPatchInput) : num :=
  (C / (#2 * frHz input)) * Math_sqrt (#2 / (epsilonR input + #1)).

Definition epsilonReffOf (input : RectangularPatchInput) : num :=
  effectiveEpsilon (epsilonR input) (widthOf input) (hM input).

Definition lengthOf (input : RectangularPatchInput) : num :=
  let W := widthOf input in
  let epsilonReff := epsilonReffOf input in
  let num := (epsilonReff + #0.3) * (W / hM input + #0.264) in
  let den := (epsilonReff - #0.258) * (W / hM input + #0.8) in
  C / (#2 * frHz input * Math_sqrt epsilonReff) - #0.824 * hM input * (num / den).

Definition effectiveLengthOf (input : RectangularPatchInput) : num :=
  C / (#2 * frHz input * Math_sqrt (epsilonReffOf input)).

Definition G1Of (input : RectangularPatchInput) : num :=
  (#1 / (#120 * Math_PI * Math_PI))
  * simpson (integrandG1 (k0 (frHz input)) (widthOf input)) #0 Math_PI 512.

Definition G12Of (input : RectangularPatchInput) : num :=
  (#1 / (#120 * Math_PI * Math_PI))
  * simpson (integrandG12 (k0 (frHz input)) (widthOf input) (lengthOf input))
      #0 Math_PI 512.

Definition RinAtEdgeOf (input : RectangularPatchInput) : num :=
  #1 / (#2 * (G1Of input + G12Of input)).

Definition I1Of (input : RectangularPatchInput) : num :=
  simpson2D
    (integrandI1 (k0 (frHz input)) (widthOf input) (effectiveLengthOf input))
    #0 Math_PI #0 Math_PI 128 128.

Definition y0Of (input : RectangularPatchInput) : option num :=
  let RinAtEdge := RinAtEdgeOf input in
  if (RinAtEdge >=? #50) && (RinAtEdge <? #1e10) then
    let ratio := #50 / RinAtEdge in
    if (ratio <=? #1) && (ratio >=? #0)
    then Some ((lengthOf input / Math_PI) * Math_acos (Math_sqrt ratio))
    else None
  else None.

Definition directivityOf (input : RectangularPatchInput) : num :=
  Math_pow ((#2 * Math_PI * widthOf input) / wavelength (frHz input)) 2
  * (Math_PI / I1Of input).

(** The record returned when the directivity integral fails. *)
Definition partialResult (input : RectangularPatchInput)
  : RectangularPatchResult :=
  {| W := widthOf input; L := lengthOf input;
     L_eff := effectiveLengthOf input; epsilonReff := epsilonReffOf input;
     G1 := G1Of input; G12 := G12Of input; RinAtEdge := RinAtEdgeOf input;
     y0_50ohm := y0Of input;
     directivityD := NaN; directivityDBi := NaN;
     lambda0 := wavelength (frHz input) |}.

(** The record returned on full success. *)
Definition fullResult (input : RectangularPatchInput)
  : RectangularPatchResult :=
  {| W := widthOf input; L := lengthOf input;
     L_eff := effectiveLengthOf input; epsilonReff := epsilonReffOf input;
     G1 := G1Of input; G12 := G12Of input; RinAtEdge := RinAtEdgeOf input;
     y0_50ohm := y0Of input;
     directivityD := directivityOf input;
     directivityDBi := #10 * Math_log10 (directivityOf input);
     lambda0 := wavelength (frHz input) |}.

End Rectangular.

(* ================================================================== *)
(** ** calculators/circularPatch.ts *)

Module Circular.
Import Constants Bessel Integrate.
Local Open Scope num_scope.

Record CircularPatchInput : Type := {
  frHz : num;
  epsilonR : num;
  hM : num
}.

Record CircularPatchInputReverse : Type := {
  aM : num;
  epsilonR_rev : num;
  hM_rev : num
}.

Record CircularPatchResult : Type := {
  a : num;
  a_e : num;
  directivityD : num;
  directivityDBi : num;
  lambda0 : num
}.

Definition safeBesselJ0 (x : num) : num :=
  let v := besselJ0 x in
  if Number_isFinite v then v else #0.

Definition safeBesselJ2 (x : num) : num :=
  let v := besselJ2 x in
  if Number_isFinite v then v else #0.

Definition F (frHz epsilonR : num) : num :=
  #8.791e7 / (frHz * Math_sqrt epsilonR).

(** [physicalRadius] and [effectiveRadius] are exact on finite
    arguments; in binary64 the quotient [FVal / sqrt(den)] underflows to 0
    at very high frequencies, after which [effectiveRadius] is
    [0 * Infinity], and both corrections are lost against 1 at very small
    heights. *)
Definition physicalRadius (FVal h epsilonR : num) : num :=
  let lnArg := (Math_PI * FVal) / (#2 * h) + #1.7726 in
  let den := #1 + (#2 * h) / (Math_PI * epsilonR * FVal) * Math_log lnArg in
  FVal / Math_sqrt den.

Definition effectiveRadius (a h epsilonR : num) : num :=
  let lnArg := (Math_PI * a) / (#2 * h) + #1.7726 in
  let factor := #1 + (#2 * h) / (Math_PI * a * epsilonR) * Math_log lnArg in
  a * Math_sqrt factor.

(** The integrand closure of [computeCircularPatch]. *)
Definition integrand (k0Val a_e : num) (theta : num) : num :=
  let sinT := Math_sin theta in
  let cosT := Math_cos theta in
  let x := k0Val * a_e * sinT in
  let J02p := safeBesselJ0 x - safeBesselJ2 x in
  let J02 := safeBesselJ0 x + safeBesselJ2 x in
  (J02p * J02p + cosT * cosT * J02 * J02) * sinT.

Definition invalidInput (input : CircularPatchInput) : bool :=
  (frHz input <=? #0) || (epsilonR input <? #1) || (hM input <=? #0).

Definition computeCircularPatch (input : CircularPatchInput)
  : option CircularPatchResult :=
  let frHz := frHz input in
  let epsilonR := epsilonR input in
  let hM := hM input in
  if (frHz <=? #0) || (epsilonR <? #1) || (hM <=? #0) then None else
  let lambda0 := wavelength frHz in
  let k0Val := k0 frHz in
  let FVal := F frHz epsilonR in
  let a := physicalRadius FVal hM epsilonR in
  let a_e := effectiveRadius a hM epsilonR in
  let integral := simpson (integrand k0Val a_e) #0 (Math_PI / #2) 512 in
  let G_rad := (Math_pow (k0Val * a_e) 2 / #480) * integral in
  if negb (Number_isFinite G_rad) || (G_rad <=? #0) then
    Some {| a := a; a_e := a_e;
            directivityD := NaN; directivityDBi := NaN;
            lambda0 := lambda0 |}
  else
  let D0 := Math_pow (k0Val * a_e) 2 / (#120 * G_rad) in
  let directivityDBi := #10 * Math_log10 D0 in
  Some {| a := a; a_e := a_e;
          directivityD := D0; directivityDBi := directivityDBi;
          lambda0 := lambda0 |}.

(** The two bracket-expansion [while] loops.  A [while] has no bound of
    its own, so the loops run on fuel and answer [None] when it is used
    up; [expandLow_total] and [expandHigh_total] show that 8 and 4 units
    always suffice. *)
Fixpoint expandLow (fuel : nat) (aM hM epsilonR FLow : num) : option num :=
  match fuel with
  | O => None
  | S fuel' =>
      if (physicalRadius FLow hM epsilonR >=? aM) && (FLow >? #1e-7)
      then expandLow fuel' aM hM epsilonR (FLow * #0.5)
      else Some FLow
  end.

Fixpoint expandHigh (fuel : nat) (aM hM epsilonR FHigh : num) : option num :=
  match fuel with
  | O => None
  | S fuel' =>
      if (physicalRadius FHigh hM epsilonR <=? aM) && (FHigh <? #0.5)
      then expandHigh fuel' aM hM epsilonR (FHigh * #2)
      else Some FHigh
  end.

(** The tail shared by the early exit of the bisection loop and by the
    code after it: frequency from [FVal], forward model re-run. *)
Definition finish (FVal epsilonR hM : num)
  : option (num * CircularPatchResult) :=
  let frHz := #8.791e7 / (FVal * Math_sqrt epsilonR) in
  match computeCircularPatch
          {| frHz := frHz; epsilonR := epsilonR; hM := hM |} with
  | None => None
  | Some result => Some (frHz, result)
  end.

(** The bisection [for] loop with the code that follows it; [iters]
    counts the iterations left of the 80. *)
Fixpoint bisect (iters : nat) (aM hM epsilonR FLow FHigh : num)
  : option (num * CircularPatchResult) :=
  match iters with
  | O => finish ((FLow + FHigh) / #2) epsilonR hM
  | S iters' =>
      let FMid := (FLow + FHigh) / #2 in
      let aMid := physicalRadius FMid hM epsilonR in
      if Math_abs (aMid - aM) <? #1e-12 * aM then finish FMid epsilonR hM
      else if aMid <? aM then bisect iters' aM hM epsilonR FMid FHigh
      else bisect iters' aM hM epsilonR FLow FMid
  end.

(** [computeCircularPatchReverse] on [fuel] units for each [while] loop:
    the outer [None] is fuel used up, the inner one is the source's
    [null]. *)
Definition computeCircularPatchReverseFuel (fuel : nat)
    (input : CircularPatchInputReverse)
  : option (option (num * CircularPatchResult)) :=
  let aM := aM input in
  let epsilonR := epsilonR_rev input in
  let hM := hM_rev input in
  if (aM <=? #0) || (epsilonR <? #1) || (hM <=? #0) then Some None else
  match expandLow fuel aM hM epsilonR #1e-5 with
  | None => None
  | Some FLow =>
      match expandHigh fuel aM hM epsilonR #0.1 with
      | None => None
      | Some FHigh =>
          if (physicalRadius FLow hM epsilonR >? aM)
             || (physicalRadius FHigh hM epsilonR <? aM)
          then Some None
          else Some (bisect 80 aM hM epsilonR FLow FHigh)
      end
  end.

(** Eight units of fuel are enough on every input
    ([computeCircularPatchReverse_fuel]). *)
Definition computeCircularPatchReverse (input : CircularPatchInputReverse)
  : option (num * CircularPatchResult) :=
  match computeCircularPatchReverseFuel 8 input with
  | Some r => r
  | None => None
  end.

End Circular.

(* ================================================================== *)
(** * Real-valued counterparts

    What the engine computes at finite arguments, as functions on [R];
    the lemmas below tie each one to the code. *)

Module Exact.
Local Open Scope R_scope.

(** The real value [effectiveEpsilon] computes at finite arguments. *)
Definition effEpsR (e w h : R) : R :=
  (e + 1) / 2 + (e - 1) / 2 * 1 / sqrt (1 + 12 * h / w).

(** [F], [physicalRadius] and [effectiveRadius] of the circular patch. *)
Definition FR (fr e : R) : R := 8.791e7 / (fr * sqrt e).

Definition lnArgR (x h : R) : R := PI * x / (2 * h) + 1.7726.

Definition physRadR (FVal h e : R) : R :=
  FVal / sqrt (1 + 2 * h / (PI * e * FVal) * ln (lnArgR FVal h)).

Definition effRadR (a h e : R) : R :=
  a * sqrt (1 + 2 * h / (PI * a * e) * ln (lnArgR a h)).

(** The value of a number known to be finite (0 otherwise). *)
Definition toR (x : num) : R :=
  match x with Fin r => r | _ => 0 end.

(** [simpson] on a real integrand. *)
Definition simpsonStepR (f : R -> R) (a h : R) (sum : R) (i : nat) : R :=
  sum + (if Nat.eqb (i mod 2) 0 then 2 * f (a + INR i * h)
         else 4 * f (a + INR i * h)).

Definition simpsonR (f : R -> R) (a b : R) (n : nat) : R :=
  let n := if negb (Nat.eqb (n mod 2) 0) then (n + 1)%nat else n in
  let h := (b - a) / INR n in
  (h / 3) * fold_left (simpsonStepR f a h) (seq 1 (n - 1)) (f a + f b).

(** The series the header of lib/bessel.ts documents,
    [J_n(x) = sum_k (-1)^k / (k! (n+k)!) * (x/2)^(n+2k)], summed term by
    term with the stopping rule of [besselJ]: at most 120 terms, and stop
    once the next term is below [1e-16] times the running sum in
    magnitude. *)
Definition seriesTerm (n k : nat) (x : R) : R :=
  (-1) ^ k / (INR (fact k) * INR (fact (n + k))) * (x / 2) ^ (n + 2 * k).

Fixpoint seriesLoop (iters k n : nat) (x sum : R) : R :=
  match iters with
  | O => sum
  | S iters' =>
      let sum := sum + seriesTerm n k x in
      if Rltb (Rabs (seriesTerm n (S k) x)) (1e-16 * Rabs sum) then sum
      else seriesLoop iters' (S k) n x sum
  end.

Definition seriesJ (n : nat) (x : R) : R := seriesLoop 120 0 n x 0.

(** The rectangular patch: width, fringing extension, lengths. *)
Definition cR : R := 299792458.

Definition k0R (fr : R) : R := 2 * PI * fr / cR.

Definition widthR (fr e : R) : R := cR / (2 * fr) * sqrt (2 / (e + 1)).

Definition deltaLR (ee w h : R) : R :=
  0.824 * h * ((ee + 0.3) * (w / h + 0.264) / ((ee - 0.258) * (w / h + 0.8))).

Definition LeffR (fr ee : R) : R := cR / (2 * fr * sqrt ee).

Definition lengthR (fr e h : R) : R :=
  LeffR fr (effEpsR e (widthR fr e) h)
  - deltaLR (effEpsR e (widthR fr e) h) (widthR fr e) h.

(** The slot factor shared by the three integrands, with its limit value
    where [cos theta] vanishes. *)
Definition slotFactorR (k w theta : R) : R :=
  if Rltb (Rabs (cos theta)) 1e-12
  then k * w / 2 * (k * w / 2)
  else (sin (k * w / 2 * cos theta) / cos theta) ^ 2.

Definition integrandG1R (k w theta : R) : R :=
  slotFactorR k w theta * sin theta ^ 3.

(** The Bessel factor of [integrandG12]; [safeBesselJ0] is finite on
    every argument, so its value is a real. *)
Definition j0R (k : R) (L : num) (theta : R) : R :=
  toR (Rectangular.safeBesselJ0 (Fin k * L * Fin (sin theta))%num).

Definition integrandG12R (k w : R) (L : num) (theta : R) : R :=
  slotFactorR k w theta * j0R k L theta * sin theta ^ 3.

End Exact.
Import Exact.

(** * Binary64 evaluation

    [effectiveEpsilon] uses only [+], [-], [*], [/] and [Math.sqrt], which
    IEEE 754 rounds correctly.  Here it is over the kernel's binary64
    floats, operation for operation as the source writes it, to show
    where rounding parts the code from the exact model. *)

Module Binary64.
Import PrimFloat.
Local Open Scope float_scope.

Definition effectiveEpsilon (epsilonR W h : float) : float :=
  (epsilonR + 1) / 2 + ((epsilonR - 1) / 2) * 1 / sqrt (1 + 12 * h / W).

End Binary64.

(** * The bisection, iteration by iteration

    The intervals the [for] loop of [computeCircularPatchReverse] walks
    through when no early exit is taken, and its exit test. *)

Module Bisection.
Import Circular.
Local Open Scope num_scope.

Definition midpoint (I : num * num) : num := (fst I + snd I) / #2.

Definition withinTolerance (aM hM epsilonR FMid : num) : bool :=
  Math_abs (physicalRadius FMid hM epsilonR - aM) <? #1e-12 * aM.

Definition bisectStep (aM hM epsilonR : num) (I : num * num) : num * num :=
  let FMid := midpoint I in
  if physicalRadius FMid hM epsilonR <? aM then (FMid, snd I) else (fst I, FMid).

Definition interval (aM hM epsilonR : num) (I : num * num) (i : nat)
  : num * num :=
  Nat.iter i (bisectStep aM hM epsilonR) I.

(** The bracket test after the two expansion loops. *)
Definition bracketed (aM hM epsilonR FLow FHigh : num) : bool :=
  (physicalRadius FLow hM epsilonR <=? aM)
  && (aM <=? physicalRadius FHigh hM epsilonR).

End Bisection.
Import Bisection.

(* ================================================================== *)
(** ** lib/units.ts *)

Module Units.
Local Open Scope num_scope.

(** Strict equality [===] on numbers: [NaN] equals nothing. *)
Definition strictEq (x y : num) : bool :=
  match x, y with
  | Fin a, Fin b => Reqb a b
  | PInf, PInf | NInf, NInf => true
  | _, _ => false
  end.

Inductive FrequencyUnit : Type := GHz | MHz | kHz | Hz.
Inductive LengthUnit : Type := mm | cm | m | mil | inch.

Definition LENGTH_TO_M (unit : LengthUnit) : num :=
  match unit with
  | mm => #1e-3
  | cm => #1e-2
  | m => #1
  | mil => #25.4e-6
  | inch => #0.0254
  end.

Definition FREQ_TO_HZ (unit : FrequencyUnit) : num :=
  match unit with
  | GHz => #1e9
  | MHz => #1e6
  | kHz => #1e3
  | Hz => #1
  end.

Definition lengthToSI (value : num) (unit : LengthUnit) : num :=
  value * LENGTH_TO_M unit.

Definition lengthFromSI (valueM : num) (unit : LengthUnit) : num :=
  if strictEq valueM #0 then #0 else valueM / LENGTH_TO_M unit.

Definition frequencyToSI (value : num) (unit : FrequencyUnit) : num :=
  value * FREQ_TO_HZ unit.

Definition frequencyFromSI (valueHz : num) (unit : FrequencyUnit) : num :=
  if strictEq valueHz #0 then #0 else valueHz / FREQ_TO_HZ unit.

Definition FREQUENCY_UNITS : list FrequencyUnit := [GHz; MHz; kHz; Hz].
Definition LENGTH_UNITS : list LengthUnit := [mm; cm; m; mil; inch].

End Units.

(* ================================================================== *)
(** ** calculators/useRectangularPatch.ts

    The hook keeps [state], [result], [computedFrHz] and [error];
    [calculate] overwrites the last three from [state] alone, so it is a
    function from the state to the three values it leaves behind. *)

Module UseRectangularPatch.
Import Units.
Import String.StringSyntax.
Local Open Scope string_scope.
Local Open Scope num_scope.

Inductive RectangularCalcMode : Type := ModeFrequency | ModeDimensions.

Record RectangularPatchState : Type := {
  mode : RectangularCalcMode;
  frequency : num;
  frequencyUnit : FrequencyUnit;
  width : num;
  length : num;
  epsilonR : num;
  height : num;
  heightUnit : LengthUnit;
  feedXOffset : option num;
  feedYOffset : option num
}.

Definition defaultState : RectangularPatchState :=
  {| mode := ModeFrequency; frequency := #2.4; frequencyUnit := GHz;
     width := #30; length := #24; epsilonR := #4.4; height := #1.6;
     heightUnit := mm; feedXOffset := None; feedYOffset := None |}.

(** What [calculate] leaves in the three state cells. *)
Record Outcome : Type := {
  result : option Rectangular.RectangularPatchResult;
  computedFrHz : option num;
  error : option String.string
}.

Definition failWith (msg : String.string) : Outcome :=
  {| result := None; computedFrHz := None; error := Some msg |}.

Definition calculate (state : RectangularPatchState) : Outcome :=
  let hM := lengthToSI (height state) (heightUnit state) in
  if (epsilonR state <? #1) || (hM <=? #0) then
    failWith "Invalid input: ε_r ≥ 1, h > 0"
  else
  match mode state with
  | ModeFrequency =>
      let frHz := frequencyToSI (frequency state) (frequencyUnit state) in
      if frHz <=? #0 then failWith "Invalid input: f_r > 0" else
      match Rectangular.computeRectangularPatch
              {| Rectangular.frHz := frHz;
                 Rectangular.epsilonR := epsilonR state;
                 Rectangular.hM := hM |} with
      | None => failWith "Calculation failed (check inputs or numerical limits)"
      | Some out =>
          if negb (Number_isFinite (Rectangular.G1 out))
             || negb (Number_isFinite (Rectangular.G12 out))
          then failWith "Integrals did not converge"
          else {| result := Some out; computedFrHz := None; error := None |}
      end
  | ModeDimensions =>
      let WM := lengthToSI (width state) (heightUnit state) in
      let LM := lengthToSI (length state) (heightUnit state) in
      if (WM <=? #0) || (LM <=? #0) then
        failWith "Invalid input: W > 0, L > 0"
      else
      match Rectangular.computeRectangularPatchReverse
              {| Rectangular.WM := WM; Rectangular.LM := LM;
                 Rectangular.epsilonR_rev := epsilonR state;
                 Rectangular.hM_rev := hM |} with
      | None =>
          failWith "Calculation failed (check dimensions or numerical limits)"
      | Some (frHz, out) =>
          {| result := Some out; computedFrHz := Some frHz; error := None |}
      end
  end.

Definition getLengthInUnit (valueM : num) (unit : LengthUnit) : num :=
  lengthFromSI valueM unit.

Definition getFrequencyInUnit (valueHz : num) (unit : FrequencyUnit) : num :=
  frequencyFromSI valueHz unit.

End UseRectangularPatch.

(* ================================================================== *)
(** ** calculators/useCircularPatch.ts *)

Module UseCircularPatch.
Import Units.
Import String.StringSyntax.
Local Open Scope string_scope.
Local Open Scope num_scope.

Inductive CircularCalcMode : Type := ModeFrequency | ModeDimensions.

Record CircularPatchState : Type := {
  mode : CircularCalcMode;
  frequency : num;
  frequencyUnit : FrequencyUnit;
  radius : num;
  epsilonR : num;
  height : num;
  heightUnit : LengthUnit;
  feedXOffset : option num;
  feedYOffset : option num
}.

Definition defaultState : CircularPatchState :=
  {| mode := ModeFrequency; frequency := #2.4; frequencyUnit := GHz;
     radius := #14; epsilonR := #4.4; height := #1.6; heightUnit := mm;
     feedXOffset := None; feedYOffset := None |}.

Record Outcome : Type := {
  result : option Circular.CircularPatchResult;
  computedFrHz : option num;
  error : option String.string
}.

Definition failWith (msg : String.string) : Outcome :=
  {| result := None; computedFrHz := None; error := Some msg |}.

Definition calculate (state : CircularPatchState) : Outcome :=
  let hM := lengthToSI (height state) (heightUnit state) in
  if (epsilonR state <? #1) || (hM <=? #0) then
    failWith "Invalid input: ε_r ≥ 1, h > 0"
  else
  match mode state with
  | ModeFrequency =>
      let frHz := frequencyToSI (frequency state) (frequencyUnit state) in
      if frHz <=? #0 then failWith "Invalid input: f_r > 0" else
      match Circular.computeCircularPatch
              {| Circular.frHz := frHz;
                 Circular.epsilonR := epsilonR state;
                 Circular.hM := hM |} with
      | None => failWith "Calculation failed (check inputs or numerical limits)"
      | Some out =>
          if negb (Number_isFinite (Circular.directivityD out))
          then failWith "Directivity integral did not converge"
          else {| result := Some out; computedFrHz := None; error := None |}
      end
  | ModeDimensions =>
      let aM := lengthToSI (radius state) (heightUnit state) in
      if aM <=? #0 then failWith "Invalid input: radius a > 0" else
      match Circular.computeCircularPatchReverse
              {| Circular.aM := aM;
                 Circular.epsilonR_rev := epsilonR state;
                 Circular.hM_rev := hM |} with
      | None => failWith "Calculation failed (check radius or numerical limits)"
      | Some (frHz, out) =>
          {| result := Some out; computedFrHz := Some frHz; error := None |}
      end
  end.

End UseCircularPatch.

(* ================================================================== *)
(** * Properties *)

(** ** Arithmetic of finite numbers *)

Section NumFacts.
Local Open Scope R_scope.

Lemma Rleb_true (a b : R) : a <= b -> Rleb a b = true.
Proof. intros H; unfold Rleb; destruct (Rle_dec a b); [reflexivity | contradiction]. Qed.

Lemma Rleb_false (a b : R) : b < a -> Rleb a b = false.
Proof. intros H; unfold Rleb; destruct (Rle_dec a b); [lra | reflexivity]. Qed.

Lemma Rltb_true (a b : R) : a < b -> Rltb a b = true.
Proof. intros H; unfold Rltb; destruct (Rlt_dec a b); [reflexivity | contradiction]. Qed.

Lemma Rltb_false (a b : R) : b <= a -> Rltb a b = false.
Proof. intros H; unfold Rltb; destruct (Rlt_dec a b); [lra | reflexivity]. Qed.

Lemma Reqb_true (a b : R) : a = b -> Reqb a b = true.
Proof. intros H; unfold Reqb; destruct (Req_dec_T a b); [reflexivity | contradiction]. Qed.

Lemma Reqb_false (a b : R) : a <> b -> Reqb a b = false.
Proof. intros H; unfold Reqb; destruct (Req_dec_T a b); [contradiction | reflexivity]. Qed.

Lemma Rleb_spec (a b : R) : Rleb a b = true <-> a <= b.
Proof. unfold Rleb; destruct (Rle_dec a b); split; intros; try assumption; try reflexivity; try discriminate; contradiction. Qed.

Lemma Rltb_spec (a b : R) : Rltb a b = true <-> a < b.
Proof. unfold Rltb; destruct (Rlt_dec a b); split; intros; try assumption; try reflexivity; try discriminate; contradiction. Qed.

Lemma Rleb_false_iff (a b : R) : Rleb a b = false <-> b < a.
Proof. unfold Rleb; destruct (Rle_dec a b); split; intros; try reflexivity; try discriminate; lra. Qed.

Lemma Rltb_false_iff (a b : R) : Rltb a b = false <-> b <= a.
Proof. unfold Rltb; destruct (Rlt_dec a b); split; intros; try reflexivity; try discriminate; lra. Qed.

Lemma add_Fin (a b : R) : (Fin a + Fin b)%num = Fin (a + b).
Proof. reflexivity. Qed.

Lemma sub_Fin (a b : R) : (Fin a - Fin b)%num = Fin (a - b).
Proof. reflexivity. Qed.

Lemma mul_Fin (a b : R) : (Fin a * Fin b)%num = Fin (a * b).
Proof. reflexivity. Qed.

Lemma div_Fin (a b : R) : b <> 0 -> (Fin a / Fin b)%num = Fin (a / b).
Proof. intros H; unfold div; rewrite (Reqb_false H); reflexivity. Qed.

Lemma sqrt_Fin (a : R) : 0 <= a -> Math_sqrt (Fin a) = Fin (sqrt a).
Proof. intros H; unfold Math_sqrt; rewrite Rltb_false by assumption; reflexivity. Qed.

Lemma log_Fin (a : R) : 0 < a -> Math_log (Fin a) = Fin (ln a).
Proof.
  intros H; unfold Math_log.
  rewrite Rltb_false by lra. rewrite Reqb_false by lra. reflexivity.
Qed.

Lemma le_Fin (a b : R) : (Fin a <=? Fin b)%num = Rleb a b.
Proof. reflexivity. Qed.

Lemma lt_Fin (a b : R) : (Fin a <? Fin b)%num = Rltb a b.
Proof. reflexivity. Qed.

Lemma ge_Fin (a b : R) : (Fin a >=? Fin b)%num = Rleb b a.
Proof. reflexivity. Qed.

Lemma gt_Fin (a b : R) : (Fin a >? Fin b)%num = Rltb b a.
Proof. reflexivity. Qed.

(** Comparisons that hold force both sides away from [NaN]. *)
Lemma isFinite_Fin (x : num) :
  Number_isFinite x = true -> exists r, x = Fin r.
Proof. destruct x; try discriminate; intros _; eexists; reflexivity. Qed.

(** A sum is finite exactly when both summands are. *)
Lemma add_isFinite (x y : num) :
  Number_isFinite (x + y)%num = Number_isFinite x && Number_isFinite y.
Proof. destruct x, y; reflexivity. Qed.

Lemma sqrt_gt_1 (x : R) : 1 < x -> 1 < sqrt x.
Proof.
  intros H. rewrite <- sqrt_1 at 1. apply sqrt_lt_1; lra.
Qed.

Lemma ln_pos (x : R) : 1 < x -> 0 < ln x.
Proof. intros H. rewrite <- ln_1. apply ln_increasing; lra. Qed.

Lemma PI_upper : PI <= 3.24.
Proof.
  pose proof (PI_2_3_7_ineq 0) as [_ H].
  unfold sum_f_R0, tg_alt, PI_2_3_7_tg, Ratan_seq in H. simpl in H.
  lra.
Qed.

Lemma div_le_bound (n d c : R) : 0 < d -> n <= c * d -> n / d <= c.
Proof.
  intros Hd H. replace c with (c * d / d) by (field; lra).
  unfold Rdiv. apply Rmult_le_compat_r; [|exact H].
  apply Rlt_le, Rinv_0_lt_compat, Hd.
Qed.

Lemma div_ge_bound (n d c : R) : 0 < d -> c * d <= n -> c <= n / d.
Proof.
  intros Hd H. replace c with (c * d / d) by (field; lra).
  unfold Rdiv. apply Rmult_le_compat_r; [|exact H].
  apply Rlt_le, Rinv_0_lt_compat, Hd.
Qed.

End NumFacts.

Create Rewrite HintDb numfin.
#[local] Hint Rewrite add_Fin sub_Fin mul_Fin le_Fin lt_Fin ge_Fin gt_Fin : numfin.

(** ** effectiveEpsilon *)

Section EffectiveEpsilon.
Local Open Scope R_scope.
Import Rectangular.

Lemma effectiveEpsilon_Fin (e w h : R) :
  0 < h -> 0 < w ->
  effectiveEpsilon (Fin e) (Fin w) (Fin h) = Fin (effEpsR e w h).
Proof.
  intros Hh Hw. unfold effectiveEpsilon, effEpsR.
  assert (H12 : 0 < 12 * h / w) by (apply Rdiv_lt_0_compat; lra).
  assert (Hs : 1 < sqrt (1 + 12 * h / w)) by (apply sqrt_gt_1; lra).
  autorewrite with numfin.
  rewrite !div_Fin by lra. autorewrite with numfin.
  rewrite sqrt_Fin by lra. rewrite div_Fin by lra.
  autorewrite with numfin. reflexivity.
Qed.

Lemma effEpsR_bounds (e w h : R) :
  1 <= e -> 0 < h -> 0 < w ->
  (e + 1) / 2 <= effEpsR e w h <= e /\ (1 < e -> effEpsR e w h < e).
Proof.
  intros He Hh Hw. unfold effEpsR.
  assert (H12 : 0 < 12 * h / w) by (apply Rdiv_lt_0_compat; lra).
  assert (Hs : 1 < sqrt (1 + 12 * h / w)) by (apply sqrt_gt_1; lra).
  set (s := sqrt (1 + 12 * h / w)) in *.
  assert (Hi : 0 < / s < 1).
  { split; [apply Rinv_0_lt_compat; lra|].
    rewrite <- Rinv_1. apply Rinv_lt_contravar; lra. }
  unfold Rdiv. set (t := / s) in *.
  split; [split|intros]; nra.
Qed.

End EffectiveEpsilon.

(** C5.  In exact arithmetic (no rounding), for finite [epsilonR >= 1],
    [h > 0] and [W > 0], [effectiveEpsilon(epsilonR, W, h)] is a finite
    number in [[1, epsilonR]], and it is strictly below [epsilonR]
    whenever [epsilonR > 1]. *)
Theorem effectiveEpsilon_range (e w h : R) :
  (1 <= e)%R -> (0 < h)%R -> (0 < w)%R ->
  exists v : R,
    Rectangular.effectiveEpsilon (Fin e) (Fin w) (Fin h) = Fin v
    /\ (1 <= v <= e)%R
    /\ ((1 < e)%R -> (v < e)%R).
Proof.
  intros He Hh Hw. exists (effEpsR e w h).
  destruct (effEpsR_bounds He Hh Hw) as [[Hlo Hhi] Hstrict].
  split; [apply effectiveEpsilon_Fin; assumption|].
  split; [split; lra | exact Hstrict].
Qed.

Lemma effectiveEpsilon_range_witness :
  exists v : R,
    Rectangular.effectiveEpsilon (Fin 4.4) (Fin 0.038) (Fin 0.0016) = Fin v
    /\ (1 <= v <= 4.4)%R
    /\ ((1 < 4.4)%R -> (v < 4.4)%R).
Proof. apply effectiveEpsilon_range; lra. Defined.

(** ** Where the range of [effectiveEpsilon] stops holding *)

Section EffectiveEpsilonInfinity.
Local Open Scope R_scope.

Lemma effectiveEpsilon_PInf :
  Rectangular.effectiveEpsilon PInf (Fin 1) (Fin 1) = PInf.
Proof.
  unfold Rectangular.effectiveEpsilon.
  rewrite mul_Fin, (@div_Fin (12 * 1) 1), add_Fin by lra.
  rewrite sqrt_Fin by lra.
  assert (Hs : 0 < sqrt (1 + 12 * 1 / 1)) by (apply sqrt_lt_R0; lra).
  change (PInf + #1)%num with PInf. change (PInf - #1)%num with PInf.
  assert (E2 : (PInf / #2)%num = PInf).
  { cbn [div]. rewrite Rleb_true by lra. reflexivity. }
  rewrite E2.
  assert (E1 : (PInf * #1)%num = PInf).
  { cbn [mul]. unfold scaleInf. rewrite Reqb_false, Rltb_true by lra.
    reflexivity. }
  rewrite E1.
  assert (E3 : (PInf / Fin (sqrt (1 + 12 * 1 / 1)))%num = PInf).
  { cbn [div]. rewrite Rleb_true by lra. reflexivity. }
  rewrite E3. reflexivity.
Qed.

End EffectiveEpsilonInfinity.

Section EffectiveEpsilonLimits.
Import PrimFloat.
#[local] Set Warnings "-inexact-float".

(** The claim against the code.  In binary64, at [epsilonR = 3], [W = 1],
    [h = 1e-20] the correction [12 h / W] is lost against 1 and
    [effectiveEpsilon] returns 3 itself, not a value strictly below
    [epsilonR]; at [epsilonR = 3.3825933684367473], [W = 0.03],
    [h = 1e-20] it returns a value above [epsilonR].  At
    [epsilonR = +Infinity], which is [>= 1], the value is [+Infinity],
    not strictly below [epsilonR]. *)
Lemma effectiveEpsilon_range_counterexample :
  Binary64.effectiveEpsilon 3%float 1%float 1e-20%float = 3%float
  /\ PrimFloat.ltb 3.3825933684367473%float
       (Binary64.effectiveEpsilon 3.3825933684367473%float 0.03%float
          1e-20%float) = true
  /\ Rectangular.effectiveEpsilon PInf (Fin 1) (Fin 1) = PInf
  /\ (Rectangular.effectiveEpsilon PInf (Fin 1) (Fin 1) <? PInf)%num = false.
Proof.
  split; [vm_compute; reflexivity|].
  split; [vm_compute; reflexivity|].
  split; [exact effectiveEpsilon_PInf|].
  rewrite effectiveEpsilon_PInf. reflexivity.
Qed.

End EffectiveEpsilonLimits.

(** ** The circular forward model at finite arguments *)

Section CircularForward.
Local Open Scope R_scope.
Import Circular.

Lemma lnArgR_gt_1 (x h : R) : 0 < x -> 0 < h -> 1 < lnArgR x h.
Proof.
  intros Hx Hh. unfold lnArgR.
  assert (0 < PI * x / (2 * h)).
  { apply Rdiv_lt_0_compat; [apply Rmult_lt_0_compat; [apply PI_RGT_0 | lra] | lra]. }
  lra.
Qed.

Lemma F_Fin (fr e : R) :
  0 < fr -> 1 <= e ->
  F (Fin fr) (Fin e) = Fin (FR fr e) /\ 0 < FR fr e.
Proof.
  intros Hfr He. unfold F, FR.
  assert (Hs : 1 <= sqrt e).
  { rewrite <- sqrt_1. apply sqrt_le_1; lra. }
  assert (Hp : 0 < fr * sqrt e) by (apply Rmult_lt_0_compat; lra).
  rewrite sqrt_Fin by lra. autorewrite with numfin.
  rewrite div_Fin by lra. split; [reflexivity|].
  apply Rdiv_lt_0_compat; lra.
Qed.

(** The correction factor under the square root exceeds 1. *)
Lemma fringe_factor_gt_1 (x y h e : R) :
  0 < x -> 0 < y -> 0 < h -> 1 <= e ->
  1 < 1 + 2 * h / y * ln (lnArgR x h).
Proof.
  intros Hx Hy Hh He.
  assert (Hl : 0 < ln (lnArgR x h)) by (apply ln_pos, lnArgR_gt_1; assumption).
  assert (Hq : 0 < 2 * h / y) by (apply Rdiv_lt_0_compat; lra).
  assert (0 < 2 * h / y * ln (lnArgR x h)) by (apply Rmult_lt_0_compat; assumption).
  lra.
Qed.

Lemma physicalRadius_Fin (FVal h e : R) :
  0 < FVal -> 0 < h -> 1 <= e ->
  physicalRadius (Fin FVal) (Fin h) (Fin e) = Fin (physRadR FVal h e)
  /\ 0 < physRadR FVal h e.
Proof.
  intros HF Hh He.
  pose proof PI_RGT_0 as Hpi.
  assert (Hy : 0 < PI * e * FVal).
  { apply Rmult_lt_0_compat; [apply Rmult_lt_0_compat|]; lra. }
  pose proof (lnArgR_gt_1 HF Hh) as Harg.
  pose proof (fringe_factor_gt_1 HF Hy Hh He) as Hden.
  pose proof (sqrt_gt_1 Hden) as Hsq.
  unfold physicalRadius, physRadR, Math_PI.
  autorewrite with numfin.
  rewrite (@div_Fin (PI * FVal) (2 * h)) by lra.
  autorewrite with numfin. fold (lnArgR FVal h).
  rewrite log_Fin by lra.
  rewrite (@div_Fin (2 * h) (PI * e * FVal)) by lra.
  autorewrite with numfin.
  rewrite sqrt_Fin by lra. rewrite div_Fin by lra.
  split; [reflexivity | apply Rdiv_lt_0_compat; lra].
Qed.

Lemma effectiveRadius_Fin (a h e : R) :
  0 < a -> 0 < h -> 1 <= e ->
  effectiveRadius (Fin a) (Fin h) (Fin e) = Fin (effRadR a h e)
  /\ a <= effRadR a h e.
Proof.
  intros Ha Hh He.
  pose proof PI_RGT_0 as Hpi.
  assert (Hy : 0 < PI * a * e).
  { apply Rmult_lt_0_compat; [apply Rmult_lt_0_compat|]; lra. }
  pose proof (lnArgR_gt_1 Ha Hh) as Harg.
  pose proof (fringe_factor_gt_1 Ha Hy Hh He) as Hfac.
  pose proof (sqrt_gt_1 Hfac) as Hsq.
  unfold effectiveRadius, effRadR, Math_PI.
  autorewrite with numfin.
  rewrite (@div_Fin (PI * a) (2 * h)) by lra.
  autorewrite with numfin. fold (lnArgR a h).
  rewrite log_Fin by lra.
  rewrite (@div_Fin (2 * h) (PI * a * e)) by lra.
  autorewrite with numfin.
  rewrite sqrt_Fin by lra. autorewrite with numfin.
  split; [reflexivity | nra].
Qed.

(** Past its guard the forward model always returns a record, and both of
    its branches fill the radii the same way. *)
Lemma computeCircularPatch_radii (input : CircularPatchInput) :
  invalidInput input = false ->
  exists res,
    computeCircularPatch input = Some res
    /\ a res = physicalRadius (F (frHz input) (epsilonR input))
                 (hM input) (epsilonR input)
    /\ a_e res = effectiveRadius (a res) (hM input) (epsilonR input)
    /\ lambda0 res = Constants.wavelength (frHz input).
Proof.
  unfold invalidInput, computeCircularPatch. intros ->.
  match goal with
  | |- context [if ?c then _ else _] => destruct c
  end; eexists; repeat split.
Qed.

Lemma computeCircularPatch_Fin (fr e h : R) :
  0 < fr -> 1 <= e -> 0 < h ->
  exists res,
    computeCircularPatch {| frHz := Fin fr; epsilonR := Fin e; hM := Fin h |}
    = Some res
    /\ a res = Fin (physRadR (FR fr e) h e)
    /\ a_e res = Fin (effRadR (physRadR (FR fr e) h e) h e)
    /\ physRadR (FR fr e) h e <= effRadR (physRadR (FR fr e) h e) h e.
Proof.
  intros Hfr He Hh.
  destruct (@computeCircularPatch_radii
              {| frHz := Fin fr; epsilonR := Fin e; hM := Fin h |})
    as (res & Hres & Ha & Hae & _).
  { unfold invalidInput; cbn [frHz epsilonR hM]. autorewrite with numfin.
    rewrite !Rleb_false, Rltb_false by lra. reflexivity. }
  cbn [frHz epsilonR hM] in Ha, Hae.
  destruct (F_Fin Hfr He) as [HF HFpos].
  destruct (physicalRadius_Fin HFpos Hh He) as [Hp Hppos].
  destruct (effectiveRadius_Fin Hppos Hh He) as [Hq Hqle].
  exists res. rewrite Hae, Ha, HF, Hp, Hq. repeat split; assumption.
Qed.

End CircularForward.

(** ** The circular reverse solver *)

Section CircularReverse.
Local Open Scope R_scope.
Import Circular.

Variables aM hM epsilonR : num.

(** The loop exits at the first midpoint within tolerance, or runs its
    [n] iterations and takes the midpoint of the last interval. *)
Lemma bisect_exit (n : nat) (FLow FHigh : num) :
  exists i : nat,
    (i <= n)%nat
    /\ bisect n aM hM epsilonR FLow FHigh
       = finish (midpoint (interval aM hM epsilonR (FLow, FHigh) i)) epsilonR hM
    /\ (forall j, (j < i)%nat ->
          withinTolerance aM hM epsilonR
            (midpoint (interval aM hM epsilonR (FLow, FHigh) j)) = false)
    /\ ((i < n)%nat ->
          withinTolerance aM hM epsilonR
            (midpoint (interval aM hM epsilonR (FLow, FHigh) i)) = true).
Proof.
  revert FLow FHigh. induction n as [|n IH]; intros FLow FHigh.
  - exists 0%nat. repeat split; [lia | intros j Hj; lia | intros Hn; lia].
  - cbn [bisect].
    destruct (Math_abs (physicalRadius ((FLow + FHigh) / #2) hM epsilonR - aM)
              <? #1e-12 * aM)%num eqn:Htol.
    + exists 0%nat. repeat split; [lia | intros j Hj; lia | intros _; exact Htol].
    + assert (Hnext :
        forall lo hi,
          bisectStep aM hM epsilonR (FLow, FHigh) = (lo, hi) ->
          exists i : nat,
            (i <= S n)%nat
            /\ bisect n aM hM epsilonR lo hi
               = finish (midpoint (interval aM hM epsilonR (FLow, FHigh) i))
                   epsilonR hM
            /\ (forall j, (j < i)%nat ->
                  withinTolerance aM hM epsilonR
                    (midpoint (interval aM hM epsilonR (FLow, FHigh) j)) = false)
            /\ ((i < S n)%nat ->
                  withinTolerance aM hM epsilonR
                    (midpoint (interval aM hM epsilonR (FLow, FHigh) i)) = true)).
      { intros lo hi Hstep.
        destruct (IH lo hi) as (i & Hi & Hb & Hbefore & Hat).
        assert (Hshift : forall j,
                  interval aM hM epsilonR (FLow, FHigh) (S j)
                  = interval aM hM epsilonR (lo, hi) j).
        { intros j. unfold interval. rewrite Nat.iter_succ_r, Hstep. reflexivity. }
        exists (S i). split; [lia|]. split; [rewrite Hshift; exact Hb|].
        split.
        - intros [|j] Hj; [exact Htol | rewrite Hshift; apply Hbefore; lia].
        - intros Hlt. rewrite Hshift. apply Hat; lia. }
      destruct (physicalRadius ((FLow + FHigh) / #2) hM epsilonR <? aM)%num eqn:Hlt;
        apply Hnext; unfold bisectStep, midpoint; cbn [fst snd];
        rewrite Hlt; reflexivity.
Qed.

(** Halving stops for good once [FLow] is at or below [1e-7]. *)
Lemma expandLow_enough (k : nat) :
  forall (fuel : nat) (r : R),
    0 < r -> r <= 1e-7 * 2 ^ k -> (k < fuel)%nat ->
    exists r' : R,
      expandLow fuel aM hM epsilonR (Fin r) = Some (Fin r')
      /\ expandLow (S k) aM hM epsilonR (Fin r) = Some (Fin r')
      /\ r / 2 ^ k <= r' <= r.
Proof.
  induction k as [|k IH]; intros fuel r Hpos Hr Hfuel.
  - destruct fuel as [|fuel]; [lia|]. cbn [expandLow]. rewrite gt_Fin.
    rewrite Rltb_false by (simpl in Hr; lra). rewrite andb_false_r.
    exists r. repeat split; simpl; lra.
  - destruct fuel as [|fuel]; [lia|]. cbn [expandLow].
    destruct ((physicalRadius (Fin r) hM epsilonR >=? aM)%num
              && (Fin r >? #1e-7)%num).
    + rewrite mul_Fin.
      destruct (IH fuel (r * 0.5)) as (r' & H1 & H2 & H3);
        [lra | simpl in Hr |- *; lra | lia |].
      exists r'. repeat split; try assumption; [|lra].
      replace (r / 2 ^ S k) with (r * 0.5 / 2 ^ k); [lra|].
      simpl. unfold Rdiv. rewrite Rinv_mult. lra.
    + exists r. repeat split; [|lra].
      assert (Hx : 1 <= 2 ^ S k) by (apply pow_R1_Rle; lra).
      assert (Hi : / 2 ^ S k <= 1).
      { rewrite <- Rinv_1. apply Rinv_le_contravar; lra. }
      unfold Rdiv. nra.
Qed.

(** Doubling stops for good once [FHigh] is at or above [0.5]. *)
Lemma expandHigh_enough (k : nat) :
  forall (fuel : nat) (r : R),
    0 < r -> 0.5 <= r * 2 ^ k -> (k < fuel)%nat ->
    exists r' : R,
      expandHigh fuel aM hM epsilonR (Fin r) = Some (Fin r')
      /\ expandHigh (S k) aM hM epsilonR (Fin r) = Some (Fin r')
      /\ r <= r' <= r * 2 ^ k.
Proof.
  induction k as [|k IH]; intros fuel r Hpos Hr Hfuel.
  - destruct fuel as [|fuel]; [lia|]. cbn [expandHigh]. rewrite lt_Fin.
    rewrite Rltb_false by (simpl in Hr; lra). rewrite andb_false_r.
    exists r. repeat split; simpl; lra.
  - destruct fuel as [|fuel]; [lia|]. cbn [expandHigh].
    destruct ((physicalRadius (Fin r) hM epsilonR <=? aM)%num
              && (Fin r <? #0.5)%num).
    + rewrite mul_Fin.
      destruct (IH fuel (r * 2)) as (r' & H1 & H2 & H3);
        [lra | simpl in Hr |- *; lra | lia |].
      exists r'. repeat split; try assumption; [lra|].
      simpl. lra.
    + exists r. repeat split; [lra|].
      assert (1 <= 2 ^ S k) by (apply pow_R1_Rle; lra).
      nra.
Qed.



End CircularReverse.

Section CircularReverseFinite.
Local Open Scope R_scope.
Import Circular.

(** Eight units of fuel serve both expansion loops on every input, so
    [computeCircularPatchReverse] is the source's function on all of its
    domain. *)
Lemma computeCircularPatchReverse_fuel (fuel : nat)
    (input : CircularPatchInputReverse) :
  (8 <= fuel)%nat ->
  computeCircularPatchReverseFuel fuel input
  = Some (computeCircularPatchReverse input).
Proof.
  intros Hfuel. unfold computeCircularPatchReverse, computeCircularPatchReverseFuel.
  destruct ((Circular.aM input <=? #0)%num || (epsilonR_rev input <? #1)%num
            || (hM_rev input <=? #0)%num); [reflexivity|].
  destruct (@expandLow_enough (Circular.aM input) (hM_rev input)
              (epsilonR_rev input) 7 fuel 1e-5) as (lo & Hlo & Hlo8 & _);
    [lra | simpl; lra | lia |].
  destruct (@expandHigh_enough (Circular.aM input) (hM_rev input)
              (epsilonR_rev input) 3 fuel 0.1) as (hi & Hhi & Hhi4 & _);
    [lra | simpl; lra | lia |].
  destruct (@expandHigh_enough (Circular.aM input) (hM_rev input)
              (epsilonR_rev input) 3 8 0.1) as (hi' & Hhi' & Hhi4' & _);
    [lra | simpl; lra | lia |].
  rewrite Hlo, Hlo8, Hhi, Hhi'.
  assert (Eh : hi' = hi) by congruence.
  subst. destruct (_ || _); reflexivity.
Qed.

Variables aM e h : R.
Hypothesis HaM : 0 < aM.
Hypothesis He : 1 <= e.
Hypothesis Hh : 0 < h.

Lemma midpoint_Fin (lo hi : R) :
  midpoint (Fin lo, Fin hi) = Fin ((lo + hi) / 2).
Proof.
  unfold midpoint; cbn [fst snd]. autorewrite with numfin.
  rewrite div_Fin by lra. reflexivity.
Qed.

(** Every interval of the bisection has finite, positive end points. *)
Lemma interval_Fin (i : nat) (lo hi : R) :
  0 < lo -> 0 < hi ->
  exists lo' hi' : R,
    interval (Fin aM) (Fin h) (Fin e) (Fin lo, Fin hi) i = (Fin lo', Fin hi')
    /\ 0 < lo' /\ 0 < hi'.
Proof.
  intros Hlo Hhi. induction i as [|i IH].
  - exists lo, hi. repeat split; assumption.
  - destruct IH as (lo' & hi' & Hi & Hlo' & Hhi').
    unfold interval in *. rewrite Nat.iter_succ, Hi.
    unfold bisectStep. rewrite midpoint_Fin. cbn [fst snd].
    destruct (physicalRadius _ _ _ <? _)%num;
      eexists; eexists; (split; [reflexivity|]); lra.
Qed.

(** On a finite positive [FVal] the final step always yields a record. *)
Lemma finish_Fin (FVal : R) :
  0 < FVal ->
  exists res,
    finish (Fin FVal) (Fin e) (Fin h)
    = Some ((#8.791e7 / (Fin FVal * Math_sqrt (Fin e)))%num, res)
    /\ computeCircularPatch
         {| frHz := (#8.791e7 / (Fin FVal * Math_sqrt (Fin e)))%num;
            epsilonR := Fin e; hM := Fin h |} = Some res
    /\ (a_e res >=? a res)%num = true.
Proof.
  intros HF. unfold finish.
  destruct (F_Fin HF He) as [HFr HFpos]. unfold F in HFr. rewrite HFr.
  destruct (computeCircularPatch_Fin HFpos He Hh) as (res & Hres & Ha & Hae & Hle).
  exists res. rewrite Hres. repeat split.
  rewrite Ha, Hae, ge_Fin. apply Rleb_true. exact Hle.
Qed.

(** Once the expansion loops have ended at [lo] and [hi], the solver is
    the bracket test followed by the bisection. *)
Lemma reverse_by_bounds (lo hi : R) :
  0 < lo -> 0 < hi ->
  expandLow 8 (Fin aM) (Fin h) (Fin e) (Fin 1e-5) = Some (Fin lo) ->
  expandHigh 8 (Fin aM) (Fin h) (Fin e) (Fin 0.1) = Some (Fin hi) ->
  computeCircularPatchReverse
    {| Circular.aM := Fin aM; epsilonR_rev := Fin e; hM_rev := Fin h |}
  = if bracketed (Fin aM) (Fin h) (Fin e) (Fin lo) (Fin hi)
    then bisect 80 (Fin aM) (Fin h) (Fin e) (Fin lo) (Fin hi)
    else None.
Proof.
  intros Hlopos Hhipos Hlo Hhi.
  destruct (physicalRadius_Fin Hlopos Hh He) as [Eplo _].
  destruct (physicalRadius_Fin Hhipos Hh He) as [Ephi _].
  unfold computeCircularPatchReverse, computeCircularPatchReverseFuel, bracketed.
  cbn [Circular.aM epsilonR_rev hM_rev].
  rewrite Hlo, Hhi, Eplo, Ephi. autorewrite with numfin.
  rewrite !Rleb_false, Rltb_false by lra. cbn [orb].
  destruct (Rle_dec (physRadR lo h e) aM) as [H1|H1];
    [rewrite (Rleb_true H1), (@Rltb_false aM (physRadR lo h e)) by lra
    |rewrite (@Rleb_false (physRadR lo h e) aM),
             (@Rltb_true aM (physRadR lo h e)) by lra];
    [|reflexivity].
  destruct (Rle_dec aM (physRadR hi h e)) as [H2|H2];
    [rewrite (Rleb_true H2), (@Rltb_false (physRadR hi h e) aM) by lra
    |rewrite (@Rleb_false aM (physRadR hi h e)),
             (@Rltb_true (physRadR hi h e) aM) by lra];
    cbn [orb andb]; reflexivity.
Qed.

(** From positive bounds the bisection always ends in a record. *)
Lemma bisect_result (lo hi : R) :
  0 < lo -> 0 < hi ->
  exists (i : nat) (res : CircularPatchResult),
    let FVal := midpoint (interval (Fin aM) (Fin h) (Fin e) (Fin lo, Fin hi) i) in
    let frHz := (#8.791e7 / (FVal * Math_sqrt (Fin e)))%num in
    (i <= 80)%nat
    /\ bisect 80 (Fin aM) (Fin h) (Fin e) (Fin lo) (Fin hi) = Some (frHz, res)
    /\ computeCircularPatch
         {| Circular.frHz := frHz; epsilonR := Fin e; hM := Fin h |} = Some res
    /\ (forall j, (j < i)%nat ->
          withinTolerance (Fin aM) (Fin h) (Fin e)
            (midpoint (interval (Fin aM) (Fin h) (Fin e) (Fin lo, Fin hi) j))
          = false)
    /\ ((i < 80)%nat -> withinTolerance (Fin aM) (Fin h) (Fin e) FVal = true).
Proof.
  intros Hlopos Hhipos.
  destruct (@bisect_exit (Fin aM) (Fin h) (Fin e) 80 (Fin lo) (Fin hi))
    as (i & Hi & Hb & Hbefore & Hat).
  destruct (@interval_Fin i lo hi Hlopos Hhipos)
    as (lo' & hi' & Eint & Hlo' & Hhi').
  assert (Hmid : 0 < (lo' + hi') / 2) by lra.
  destruct (finish_Fin Hmid) as (res & Hfin & Hfwd & _).
  rewrite Eint, midpoint_Fin, Hfin in Hb.
  exists i, res. cbv zeta. rewrite Eint, midpoint_Fin.
  split; [exact Hi|]. split; [exact Hb|]. split; [exact Hfwd|].
  split; [exact Hbefore|].
  intros Hlt. specialize (Hat Hlt). rewrite Eint, midpoint_Fin in Hat. exact Hat.
Qed.

End CircularReverseFinite.



(** C6.  In exact arithmetic (no rounding, overflow or underflow), on
    every finite valid input ([frHz > 0], [epsilonR >= 1], [hM > 0])
    [computeCircularPatch] returns a record whose effective radius is at
    least its physical radius, [a_e >= a]; and so does every record
    [computeCircularPatchReverse] returns on a finite valid input
    ([aM > 0], same [epsilonR] and [hM]). *)
Theorem circular_effective_radius_ge (fr aM e h : R) :
  (0 < fr)%R -> (0 < aM)%R -> (1 <= e)%R -> (0 < h)%R ->
  (exists res,
     Circular.computeCircularPatch
       {| Circular.frHz := Fin fr; Circular.epsilonR := Fin e;
          Circular.hM := Fin h |} = Some res
     /\ (Circular.a_e res >=? Circular.a res)%num = true)
  /\ (forall frHz res,
        Circular.computeCircularPatchReverse
          {| Circular.aM := Fin aM; Circular.epsilonR_rev := Fin e;
             Circular.hM_rev := Fin h |} = Some (frHz, res) ->
        (Circular.a_e res >=? Circular.a res)%num = true).
Proof.
  intros Hfr HaM He Hh. split.
  - destruct (computeCircularPatch_Fin Hfr He Hh) as (res & Hres & Ha & Hae & Hle).
    exists res. split; [exact Hres|].
    rewrite Ha, Hae, ge_Fin. apply Rleb_true. exact Hle.
  - intros frHz res.
    unfold Circular.computeCircularPatchReverse,
      Circular.computeCircularPatchReverseFuel.
    cbn [Circular.aM Circular.epsilonR_rev Circular.hM_rev].
    autorewrite with numfin.
    rewrite !Rleb_false, Rltb_false by lra. cbn [orb].
    destruct (@expandLow_enough (Fin aM) (Fin h) (Fin e) 7 8 1e-5)
      as (lo & Hlo & _ & Hlor); [lra | simpl; lra | lia |].
    destruct (@expandHigh_enough (Fin aM) (Fin h) (Fin e) 3 8 0.1)
      as (hi & Hhi & _ & Hhir); [lra | simpl; lra | lia |].
    assert (Hlopos : (0 < lo)%R).
    { assert (0 < 1e-5 / 2 ^ 7)%R by (simpl; lra). lra. }
    assert (Hhipos : (0 < hi)%R) by lra.
    rewrite Hlo, Hhi.
    destruct (_ || _); [discriminate|].
    destruct (@bisect_exit (Fin aM) (Fin h) (Fin e) 80 (Fin lo) (Fin hi))
      as (i & _ & Hb & _).
    destruct (@interval_Fin aM e h i lo hi Hlopos Hhipos)
      as (lo' & hi' & Eint & Hlo' & Hhi').
    assert (Hmid : (0 < (lo' + hi') / 2)%R) by lra.
    destruct (@finish_Fin e h He Hh _ Hmid) as (res' & Hfin & _ & Hge).
    rewrite Eint, midpoint_Fin, Hfin in Hb. rewrite Hb.
    intros E. injection E as _ <-. exact Hge.
Qed.

Lemma circular_effective_radius_ge_witness :
  (exists res,
     Circular.computeCircularPatch
       {| Circular.frHz := Fin 2.4e9; Circular.epsilonR := Fin 4.4;
          Circular.hM := Fin 0.0016 |} = Some res
     /\ (Circular.a_e res >=? Circular.a res)%num = true)
  /\ (forall frHz res,
        Circular.computeCircularPatchReverse
          {| Circular.aM := Fin 0.014; Circular.epsilonR_rev := Fin 4.4;
             Circular.hM_rev := Fin 0.0016 |} = Some (frHz, res) ->
        (Circular.a_e res >=? Circular.a res)%num = true).
Proof. apply circular_effective_radius_ge; lra. Defined.

(** ** Both outcomes of the circular reverse solver occur *)

Section CircularReverseExamples.
Local Open Scope R_scope.
Import Circular.

Lemma ln_le_minus_1 (y : R) : 0 < y -> ln y <= y - 1.
Proof.
  intros Hy. destruct (Rle_or_lt (ln y) (y - 1)) as [H|H]; [exact H|].
  exfalso. apply exp_increasing in H. rewrite exp_ln in H by exact Hy.
  pose proof (exp_ineq1_le (y - 1)). lra.
Qed.

Lemma physRadR_lt (FVal h e : R) :
  0 < FVal -> 0 < h -> 1 <= e -> physRadR FVal h e < FVal.
Proof.
  intros HF Hh He. pose proof PI_RGT_0 as Hpi.
  assert (Hy : 0 < PI * e * FVal).
  { apply Rmult_lt_0_compat; [apply Rmult_lt_0_compat|]; lra. }
  pose proof (fringe_factor_gt_1 HF Hy Hh He) as Hden.
  pose proof (sqrt_gt_1 Hden) as Hsq.
  unfold physRadR. set (s := sqrt _) in *.
  assert (Hi : / s < 1).
  { rewrite <- Rinv_1. apply Rinv_lt_contravar; lra. }
  unfold Rdiv. nra.
Qed.

Lemma expandLow_S (fuel : nat) (aM hM epsilonR FLow : num) :
  expandLow (S fuel) aM hM epsilonR FLow
  = if (physicalRadius FLow hM epsilonR >=? aM)%num && (FLow >? #1e-7)%num
    then expandLow fuel aM hM epsilonR (FLow * #0.5)%num
    else Some FLow.
Proof. reflexivity. Qed.

Lemma expandHigh_S (fuel : nat) (aM hM epsilonR FHigh : num) :
  expandHigh (S fuel) aM hM epsilonR FHigh
  = if (physicalRadius FHigh hM epsilonR <=? aM)%num && (FHigh <? #0.5)%num
    then expandHigh fuel aM hM epsilonR (FHigh * #2)%num
    else Some FHigh.
Proof. reflexivity. Qed.

(** At a physical radius above [1e-5] the lower bound is never moved. *)
Lemma expandLow_stays (aM h e : R) :
  1e-5 <= aM -> 0 < h -> 1 <= e ->
  expandLow 8 (Fin aM) (Fin h) (Fin e) (Fin 1e-5) = Some (Fin 1e-5).
Proof.
  intros HaM Hh He.
  assert (H5 : 0 < 1e-5) by lra.
  destruct (physicalRadius_Fin H5 Hh He) as [E _].
  pose proof (physRadR_lt H5 Hh He) as Hlt.
  rewrite expandLow_S, E, ge_Fin. rewrite Rleb_false by lra. reflexivity.
Qed.

(** A 14 mm patch on 1.6 mm FR-4: the bracket [1e-5, 0.1] holds and a
    frequency is returned. *)
Lemma reverse_example_found :
  exists frHz res,
    computeCircularPatchReverse
      {| aM := Fin 0.014; epsilonR_rev := Fin 4.4; hM_rev := Fin 0.0016 |}
    = Some (frHz, res).
Proof.
  assert (Hh : 0 < 0.0016) by lra. assert (He : 1 <= 4.4) by lra.
  assert (HaM : 0 < 0.014) by lra.
  assert (H1 : 0 < 0.1) by lra. assert (H5 : 0 < 1e-5) by lra.
  pose proof PI_RGT_0 as Hpi. pose proof PI_upper as Hpu.
  pose proof PI2_3_2 as Hpl.
  destruct (physicalRadius_Fin H1 Hh He) as [E1 _].
  assert (Hbig : 0.014 < physRadR 0.1 0.0016 4.4).
  { unfold physRadR.
    assert (Harg : 1 < lnArgR 0.1 0.0016) by (apply lnArgR_gt_1; lra).
    assert (Hln : 0 < ln (lnArgR 0.1 0.0016) <= 103).
    { split; [apply ln_pos; exact Harg|].
      apply Rle_trans with (lnArgR 0.1 0.0016 - 1);
        [apply ln_le_minus_1; lra | unfold lnArgR; lra]. }
    assert (Hq : 0 < 2 * 0.0016 / (PI * 4.4 * 0.1) <= 0.0025).
    { split; [apply Rdiv_lt_0_compat; nra | apply div_le_bound; nra]. }
    set (q := 2 * 0.0016 / (PI * 4.4 * 0.1)) in *.
    set (l := ln (lnArgR 0.1 0.0016)) in *.
    assert (Hden : 1 < 1 + q * l <= 1.2575) by (split; nra).
    assert (Hs : 1 < sqrt (1 + q * l)) by (apply sqrt_gt_1; lra).
    assert (Hss : sqrt (1 + q * l) * sqrt (1 + q * l) = 1 + q * l)
      by (apply sqrt_sqrt; lra).
    set (s := sqrt (1 + q * l)) in *.
    assert (Hs2 : s <= 1.2575) by nra.
    apply Rlt_le_trans with (0.1 / 1.2575); [lra|].
    unfold Rdiv. apply Rmult_le_compat_l; [lra|].
    apply Rinv_le_contravar; lra. }
  assert (Hlo : expandLow 8 (Fin 0.014) (Fin 0.0016) (Fin 4.4) (Fin 1e-5)
                = Some (Fin 1e-5)) by (apply expandLow_stays; lra).
  assert (Hhi : expandHigh 8 (Fin 0.014) (Fin 0.0016) (Fin 4.4) (Fin 0.1)
                = Some (Fin 0.1)).
  { rewrite expandHigh_S, E1, le_Fin. rewrite Rleb_false by lra. reflexivity. }
  rewrite (reverse_by_bounds HaM He Hh H5 H1 Hlo Hhi).
  unfold bracketed. destruct (physicalRadius_Fin H5 Hh He) as [E5 _].
  pose proof (physRadR_lt H5 Hh He) as Hlt5.
  rewrite E5, E1, !le_Fin. rewrite !Rleb_true by lra. cbn [andb].
  destruct (@bisect_result 0.014 4.4 0.0016 He Hh 1e-5 0.1 H5 H1)
    as (i & res & _ & Hb & _).
  rewrite Hb. eexists; eexists; reflexivity.
Qed.

(** A 1 m patch: [FHigh] is doubled to [0.8], where the physical radius
    is still below the target, and no result is returned. *)
Lemma reverse_example_unbracketed :
  computeCircularPatchReverse
    {| aM := Fin 1; epsilonR_rev := Fin 4.4; hM_rev := Fin 0.0016 |} = None.
Proof.
  assert (Hh : 0 < 0.0016) by lra. assert (He : 1 <= 4.4) by lra.
  assert (HaM : 0 < 1) by lra. assert (H5 : 0 < 1e-5) by lra.
  assert (Hlo : expandLow 8 (Fin 1) (Fin 0.0016) (Fin 4.4) (Fin 1e-5)
                = Some (Fin 1e-5)) by (apply expandLow_stays; lra).
  assert (Hstep : forall r, 0 < r -> r <= 0.8 ->
            (physicalRadius (Fin r) (Fin 0.0016) (Fin 4.4) <=? Fin 1)%num = true).
  { intros r Hr Hr8. destruct (physicalRadius_Fin Hr Hh He) as [E _].
    pose proof (physRadR_lt Hr Hh He). rewrite E, le_Fin. apply Rleb_true. lra. }
  assert (Hhi : expandHigh 8 (Fin 1) (Fin 0.0016) (Fin 4.4) (Fin 0.1)
                = Some (Fin (0.1 * 2 * 2 * 2))).
  { rewrite expandHigh_S, Hstep, lt_Fin by lra. rewrite Rltb_true by lra.
    cbn [andb]. rewrite mul_Fin.
    rewrite expandHigh_S, Hstep, lt_Fin by lra. rewrite Rltb_true by lra.
    cbn [andb]. rewrite mul_Fin.
    rewrite expandHigh_S, Hstep, lt_Fin by lra. rewrite Rltb_true by lra.
    cbn [andb]. rewrite mul_Fin.
    rewrite expandHigh_S, Hstep, lt_Fin by lra. rewrite Rltb_false by lra.
    reflexivity. }
  assert (H8 : 0 < 0.1 * 2 * 2 * 2) by lra.
  rewrite (reverse_by_bounds HaM He Hh H5 H8 Hlo Hhi).
  unfold bracketed. destruct (physicalRadius_Fin H8 Hh He) as [E8 _].
  pose proof (physRadR_lt H8 Hh He) as Hlt8.
  rewrite E8, (@le_Fin 1). rewrite (@Rleb_false 1) by lra.
  rewrite andb_false_r. reflexivity.
Qed.

End CircularReverseExamples.

(** ** The stated limits and infinite inputs against the reverse solver *)

Section CircularReverseLimits.
Local Open Scope R_scope.
Import Circular.








End CircularReverseLimits.


(** ** Not-a-number through the circular forward model *)

Section NaNFacts.
Local Open Scope num_scope.

Lemma add_NaN_l (y : num) : NaN + y = NaN.
Proof. destruct y; reflexivity. Qed.

Lemma add_NaN_r (x : num) : x + NaN = NaN.
Proof. destruct x; reflexivity. Qed.

Lemma mul_NaN_l (y : num) : NaN * y = NaN.
Proof. destruct y; reflexivity. Qed.

Lemma mul_NaN_r (x : num) : x * NaN = NaN.
Proof. destruct x; reflexivity. Qed.

Lemma div_NaN_l (y : num) : NaN / y = NaN.
Proof. destruct y; reflexivity. Qed.

Lemma div_NaN_r (x : num) : x / NaN = NaN.
Proof. destruct x; reflexivity. Qed.

Lemma le_NaN_l (y : num) : (NaN <=? y) = false.
Proof. destruct y; reflexivity. Qed.

Lemma lt_NaN_l (y : num) : (NaN <? y) = false.
Proof. destruct y; reflexivity. Qed.

End NaNFacts.

Create Rewrite HintDb nan.
#[local] Hint Rewrite add_NaN_l add_NaN_r mul_NaN_l mul_NaN_r
  div_NaN_l div_NaN_r le_NaN_l lt_NaN_l : nan.

Section CircularNaN.
Import Circular.
Local Open Scope num_scope.

Lemma physicalRadius_NaN (h epsilonR : num) :
  physicalRadius NaN h epsilonR = NaN.
Proof. unfold physicalRadius. autorewrite with nan. reflexivity. Qed.

Lemma effectiveRadius_NaN (h epsilonR : num) :
  effectiveRadius NaN h epsilonR = NaN.
Proof. unfold effectiveRadius. autorewrite with nan. reflexivity. Qed.

(** Whatever the integral is, a [NaN] effective radius makes [G_rad]
    [NaN], so the forward model takes its partial-result branch. *)
Lemma computeCircularPatch_NaN_radius (input : CircularPatchInput) :
  invalidInput input = false ->
  F (frHz input) (epsilonR input) = NaN ->
  computeCircularPatch input
  = Some {| a := NaN; a_e := NaN; directivityD := NaN; directivityDBi := NaN;
            lambda0 := Constants.wavelength (frHz input) |}.
Proof.
  unfold invalidInput, computeCircularPatch. intros -> ->.
  rewrite physicalRadius_NaN, effectiveRadius_NaN.
  autorewrite with nan. cbn [Math_pow]. autorewrite with nan.
  cbn [Number_isFinite negb orb]. reflexivity.
Qed.

End CircularNaN.

(** C10.  A [NaN] frequency passes the guard
    [frHz <= 0 || epsilonR < 1 || hM <= 0] of [computeCircularPatch]:
    at [frHz = NaN], [epsilonR = 4.4], [hM = 1.6e-3] the guard is false
    and the function returns a record, not [null], whose [a], [a_e],
    [lambda0] and both directivity fields are [NaN].  A [NaN] permittivity
    passes the guard too: at [frHz = 2.4e9], [epsilonR = NaN],
    [hM = 1.6e-3] a record is returned with [NaN] radii and directivity. *)
Theorem circular_guard_passes_NaN :
  Circular.invalidInput
    {| Circular.frHz := NaN; Circular.epsilonR := Fin 4.4;
       Circular.hM := Fin 1.6e-3 |} = false
  /\ Circular.computeCircularPatch
       {| Circular.frHz := NaN; Circular.epsilonR := Fin 4.4;
          Circular.hM := Fin 1.6e-3 |}
     = Some {| Circular.a := NaN; Circular.a_e := NaN;
               Circular.directivityD := NaN; Circular.directivityDBi := NaN;
               Circular.lambda0 := NaN |}
  /\ Circular.invalidInput
       {| Circular.frHz := Fin 2.4e9; Circular.epsilonR := NaN;
          Circular.hM := Fin 1.6e-3 |} = false
  /\ Circular.computeCircularPatch
       {| Circular.frHz := Fin 2.4e9; Circular.epsilonR := NaN;
          Circular.hM := Fin 1.6e-3 |}
     = Some {| Circular.a := NaN; Circular.a_e := NaN;
               Circular.directivityD := NaN; Circular.directivityDBi := NaN;
               Circular.lambda0 := Constants.wavelength (Fin 2.4e9) |}.
Proof.
  assert (G1 : Circular.invalidInput
                 {| Circular.frHz := NaN; Circular.epsilonR := Fin 4.4;
                    Circular.hM := Fin 1.6e-3 |} = false).
  { unfold Circular.invalidInput.
    cbn [Circular.frHz Circular.epsilonR Circular.hM].
    rewrite le_NaN_l, lt_Fin, le_Fin.
    rewrite Rltb_false, Rleb_false by lra. reflexivity. }
  assert (G2 : Circular.invalidInput
                 {| Circular.frHz := Fin 2.4e9; Circular.epsilonR := NaN;
                    Circular.hM := Fin 1.6e-3 |} = false).
  { unfold Circular.invalidInput.
    cbn [Circular.frHz Circular.epsilonR Circular.hM].
    rewrite lt_NaN_l, !le_Fin.
    rewrite !Rleb_false by lra. reflexivity. }
  split; [exact G1|]. split; [|split; [exact G2|]].
  - rewrite (@computeCircularPatch_NaN_radius _ G1); reflexivity.
  - rewrite (@computeCircularPatch_NaN_radius _ G2); reflexivity.
Qed.

(** [+Infinity] is past the guard as well: at an infinite frequency [F]
    is 0, the physical radius is 0 and the effective radius is
    [0 * Infinity], not a number.  The statements on valid inputs
    elsewhere in this file are about finite numbers. *)
Section CircularInfinity.
Import Circular.
Local Open Scope R_scope.

Lemma circular_infinite_frequency :
  exists res,
    computeCircularPatch {| frHz := PInf; epsilonR := Fin 4.4; hM := Fin 1.6e-3 |}
    = Some res
    /\ a res = Fin 0 /\ a_e res = NaN /\ (a_e res >=? a res)%num = false.
Proof.
  destruct (@computeCircularPatch_radii
              {| frHz := PInf; epsilonR := Fin 4.4; hM := Fin 1.6e-3 |})
    as (res & Hres & Ha & Hae & _).
  { unfold invalidInput. cbn [frHz epsilonR hM].
    change (PInf <=? #0)%num with false.
    rewrite lt_Fin, le_Fin. rewrite Rltb_false, Rleb_false by lra. reflexivity. }
  cbn [frHz epsilonR hM] in Ha, Hae.
  assert (Hs : 0 < sqrt 4.4) by (apply sqrt_lt_R0; lra).
  assert (HF : F PInf (Fin 4.4) = Fin 0).
  { unfold F. rewrite sqrt_Fin by lra. cbn [mul]. unfold scaleInf.
    rewrite Reqb_false by lra. rewrite Rltb_true by lra. reflexivity. }
  pose proof PI_RGT_0 as Hpi.
  assert (Hln : 0 < ln (PI * 0 / (2 * 1.6e-3) + 1.7726)).
  { apply ln_pos. replace (PI * 0 / (2 * 1.6e-3)) with 0 by lra. lra. }
  assert (Hpa : physicalRadius (Fin 0) (Fin 1.6e-3) (Fin 4.4) = Fin 0).
  { unfold physicalRadius, Math_PI. autorewrite with numfin.
    rewrite (@div_Fin (PI * 0) (2 * 1.6e-3)) by lra. autorewrite with numfin.
    rewrite log_Fin by (replace (PI * 0 / (2 * 1.6e-3)) with 0 by lra; lra).
    assert (Hd : (Fin (2 * 1.6e-3) / Fin (PI * 4.4 * 0))%num = PInf).
    { unfold div. rewrite Reqb_true by ring. rewrite Reqb_false by lra.
      rewrite Rltb_true by lra. reflexivity. }
    rewrite Hd. cbn [mul]. unfold scaleInf.
    rewrite Reqb_false by lra. rewrite Rltb_true by lra.
    cbn [add Math_sqrt div]. reflexivity. }
  assert (Hpe : effectiveRadius (Fin 0) (Fin 1.6e-3) (Fin 4.4) = NaN).
  { unfold effectiveRadius, Math_PI. autorewrite with numfin.
    rewrite (@div_Fin (PI * 0) (2 * 1.6e-3)) by lra. autorewrite with numfin.
    rewrite log_Fin by (replace (PI * 0 / (2 * 1.6e-3)) with 0 by lra; lra).
    assert (Hd : (Fin (2 * 1.6e-3) / Fin (PI * 0 * 4.4))%num = PInf).
    { unfold div. rewrite Reqb_true by ring. rewrite Reqb_false by lra.
      rewrite Rltb_true by lra. reflexivity. }
    rewrite Hd. cbn [mul]. unfold scaleInf.
    rewrite Reqb_false by lra. rewrite Rltb_true by lra.
    cbn [add Math_sqrt mul]. unfold scaleInf. rewrite Reqb_true by reflexivity.
    reflexivity. }
  exists res. rewrite Hae, Ha, HF, Hpa, Hpe. repeat split; try assumption.
Qed.

End CircularInfinity.

(** The claim against the code.  The frequency [+Infinity] is [> 0] and
    passes the guard; with [epsilonR = 4.4] and [hM = 1.6e-3] the record
    returned has [a = 0] and [a_e = NaN], and [a_e >= a] is false. *)
Lemma circular_effective_radius_counterexample :
  (PInf >? #0)%num = true
  /\ Circular.invalidInput
       {| Circular.frHz := PInf; Circular.epsilonR := Fin 4.4;
          Circular.hM := Fin 1.6e-3 |} = false
  /\ exists res,
       Circular.computeCircularPatch
         {| Circular.frHz := PInf; Circular.epsilonR := Fin 4.4;
            Circular.hM := Fin 1.6e-3 |} = Some res
       /\ Circular.a res = Fin 0 /\ Circular.a_e res = NaN
       /\ (Circular.a_e res >=? Circular.a res)%num = false.
Proof.
  split; [reflexivity|]. split.
  - unfold Circular.invalidInput.
    cbn [Circular.frHz Circular.epsilonR Circular.hM].
    rewrite lt_Fin, le_Fin, Rltb_false, Rleb_false by lra. reflexivity.
  - exact circular_infinite_frequency.
Qed.

(** ** The control flow of the rectangular forward model *)

Section RectangularFlow.
Import Constants Rectangular.
Local Open Scope num_scope.

(** [computeRectangularPatch] in terms of its local quantities: two
    gates to [null], then one of two records. *)
Lemma computeRectangularPatch_flow (input : RectangularPatchInput) :
  computeRectangularPatch input
  = if invalidInput input then None
    else if negb (Number_isFinite (G1Of input))
            || negb (Number_isFinite (G12Of input))
            || (G1Of input + G12Of input <=? #0)
    then None
    else if negb (Number_isFinite (I1Of input)) || (I1Of input <=? #0)
    then Some (partialResult input)
    else Some (fullResult input).
Proof.
  unfold computeRectangularPatch, invalidInput.
  destruct ((frHz input <=? #0) || (epsilonR input <? #1) || (hM input <=? #0));
    [reflexivity|].
  change (C / (#2 * frHz input) * Math_sqrt (#2 / (epsilonR input + #1)))
    with (widthOf input).
  reflexivity.
Qed.

(** The conductance gate, as one test on the sum. *)
Lemma conductance_gate (x y : num) :
  negb (Number_isFinite x) || negb (Number_isFinite y) || (x + y <=? #0)
  = negb (Number_isFinite (x + y)) || (x + y <=? #0).
Proof. rewrite add_isFinite. destruct x, y; reflexivity. Qed.

End RectangularFlow.

(** C2.  On every input [computeRectangularPatch] returns a value (it
    is a total function), and that value is [null] exactly when the
    entry guard holds ([frHz <= 0], or [epsilonR < 1], or [hM <= 0]) or
    the conductance sum [G1 + G12] is non-finite or [<= 0]; on every other
    input it is a result record. *)
Theorem rectangular_null_iff (input : Rectangular.RectangularPatchInput) :
  (Rectangular.computeRectangularPatch input = None
   <-> (Rectangular.invalidInput input = true
        \/ Number_isFinite (Rectangular.G1Of input + Rectangular.G12Of input) = false
        \/ (Rectangular.G1Of input + Rectangular.G12Of input <=? #0)%num = true))
  /\ (Rectangular.computeRectangularPatch input <> None
      -> exists res, Rectangular.computeRectangularPatch input = Some res).
Proof.
  split.
  - rewrite computeRectangularPatch_flow, conductance_gate.
    destruct (Rectangular.invalidInput input); [split; auto|].
    destruct (Number_isFinite _); cbn [negb orb].
    + destruct (_ <=? _)%num.
      * split; auto.
      * destruct (_ || _); split; try discriminate;
          intros [H|[H|H]]; discriminate.
    + split; auto.
  - destruct (Rectangular.computeRectangularPatch input) as [res|];
      [intros _; exists res; reflexivity | intros H; contradiction].
Qed.

(** C7.  Whenever [computeRectangularPatch] does not return [null] and
    the double integral [I1] is non-finite or [<= 0], the value returned is
    a record carrying [W], [L], [L_eff], [epsilonReff], [G1], [G12],
    [RinAtEdge], [y0_50ohm] and [lambda0] as computed, with [directivityD]
    and [directivityDBi] both [NaN]. *)
Theorem rectangular_partial_result (input : Rectangular.RectangularPatchInput) :
  Rectangular.computeRectangularPatch input <> None ->
  Number_isFinite (Rectangular.I1Of input) = false
  \/ (Rectangular.I1Of input <=? #0)%num = true ->
  Rectangular.computeRectangularPatch input
  = Some {| Rectangular.W := Rectangular.widthOf input;
            Rectangular.L := Rectangular.lengthOf input;
            Rectangular.L_eff := Rectangular.effectiveLengthOf input;
            Rectangular.epsilonReff := Rectangular.epsilonReffOf input;
            Rectangular.G1 := Rectangular.G1Of input;
            Rectangular.G12 := Rectangular.G12Of input;
            Rectangular.RinAtEdge := Rectangular.RinAtEdgeOf input;
            Rectangular.y0_50ohm := Rectangular.y0Of input;
            Rectangular.directivityD := NaN;
            Rectangular.directivityDBi := NaN;
            Rectangular.lambda0 :=
              Constants.wavelength (Rectangular.frHz input) |}.
Proof.
  rewrite computeRectangularPatch_flow.
  destruct (Rectangular.invalidInput input); [intros H; contradiction|].
  destruct (_ || _ || _); [intros H; contradiction|].
  intros _ HI.
  assert (E : negb (Number_isFinite (Rectangular.I1Of input))
              || (Rectangular.I1Of input <=? #0)%num = true).
  { destruct HI as [-> | ->]; [reflexivity | apply orb_true_r]. }
  rewrite E. reflexivity.
Qed.

(** ** Simpson's rule on finite integrands *)

Section SimpsonFacts.
Local Open Scope R_scope.
Import Integrate.

Lemma even_mod2 (k : nat) : ((2 * k) mod 2 = 0)%nat.
Proof. symmetry. apply Nat.mod_unique with (q := k); lia. Qed.

Lemma odd_mod2 (k : nat) : ((2 * k + 1) mod 2 = 1)%nat.
Proof. symmetry. apply Nat.mod_unique with (q := k); lia. Qed.

Variable f : num -> num.
Variable fR : R -> R.
Hypothesis f_Fin : forall x : R, f (Fin x) = Fin (fR x).

Lemma simpson_fold_Fin (a h : R) (l : list nat) (s : R) :
  fold_left (simpsonStep f (Fin a) (Fin h)) l (Fin s)
  = Fin (fold_left (simpsonStepR fR a h) l s).
Proof.
  revert s. induction l as [|i l IH]; intros s; [reflexivity|].
  cbn [fold_left]. rewrite <- IH. f_equal.
  unfold simpsonStep, simpsonStepR, ofNat.
  autorewrite with numfin. rewrite f_Fin.
  destruct (Nat.eqb (i mod 2) 0); reflexivity.
Qed.

(** On an integrand finite at every finite point, [simpson] over a finite
    interval with [n >= 1] subintervals is the real Simpson sum. *)
Lemma simpson_Fin (a b : R) (n : nat) :
  (0 < n)%nat ->
  simpson f (Fin a) (Fin b) n = Fin (simpsonR fR a b n).
Proof.
  intros Hn. unfold simpson, simpsonR.
  set (n' := if negb (Nat.eqb (n mod 2) 0) then (n + 1)%nat else n).
  assert (Hn' : (0 < n')%nat) by (unfold n'; destruct (negb _); lia).
  assert (HR : INR n' <> 0) by (apply not_0_INR; lia).
  unfold ofNat. autorewrite with numfin. rewrite div_Fin by exact HR.
  rewrite !f_Fin. autorewrite with numfin.
  rewrite simpson_fold_Fin. rewrite div_Fin by lra.
  autorewrite with numfin. reflexivity.
Qed.

End SimpsonFacts.

Section SimpsonExact.
Local Open Scope R_scope.

(** Closed forms of the interior sums over [1 .. 2m+1]. *)
Lemma simpson_sum_one (a h s : R) (m : nat) :
  fold_left (simpsonStepR (fun _ => 1) a h) (seq 1 (2 * m + 1)) s
  = s + 6 * INR m + 4.
Proof.
  induction m as [|m IH].
  { cbn [seq fold_left Nat.mul Nat.add]. unfold simpsonStepR.
    change (1 mod 2)%nat with 1%nat. cbn [Nat.eqb INR]. ring. }
  replace (2 * S m + 1)%nat with ((2 * m + 1) + 2)%nat by lia.
  rewrite seq_app, fold_left_app, IH.
  replace (1 + (2 * m + 1))%nat with (2 * (m + 1))%nat by lia.
  cbn [seq fold_left]. unfold simpsonStepR.
  replace (S (2 * (m + 1))) with (2 * (m + 1) + 1)%nat by lia.
  rewrite even_mod2, odd_mod2. cbn [Nat.eqb]. rewrite S_INR. lra.
Qed.

Lemma simpson_sum_square (h s : R) (m : nat) :
  fold_left (simpsonStepR (fun x => x * x) 0 h) (seq 1 (2 * m + 1)) s
  = s + 4 * (INR m + 1) * (INR m + 1) * (2 * INR m + 1) * (h * h).
Proof.
  induction m as [|m IH].
  { cbn [seq fold_left Nat.mul Nat.add]. unfold simpsonStepR.
    change (1 mod 2)%nat with 1%nat. cbn [Nat.eqb INR]. ring. }
  replace (2 * S m + 1)%nat with ((2 * m + 1) + 2)%nat by lia.
  rewrite seq_app, fold_left_app, IH.
  replace (1 + (2 * m + 1))%nat with (2 * (m + 1))%nat by lia.
  cbn [seq fold_left]. unfold simpsonStepR.
  replace (S (2 * (m + 1))) with (2 * (m + 1) + 1)%nat by lia.
  rewrite even_mod2, odd_mod2. cbn [Nat.eqb].
  rewrite ?plus_INR, ?mult_INR, ?plus_INR, ?S_INR. change (INR 0) with 0. ring.
Qed.

Lemma simpsonR_one (n : nat) :
  Nat.even n = true -> (2 <= n)%nat -> simpsonR (fun _ => 1) 0 1 n = 1.
Proof.
  intros Hev Hn. apply Nat.even_spec in Hev. destruct Hev as [k ->].
  destruct k as [|m]; [lia|]. unfold simpsonR.
  rewrite even_mod2. cbn [Nat.eqb negb].
  replace (2 * S m - 1)%nat with (2 * m + 1)%nat by lia.
  rewrite simpson_sum_one.
  rewrite mult_INR, !S_INR. change (INR 0) with 0.
  assert (0 <= INR m) by apply pos_INR. field. lra.
Qed.

Lemma simpsonR_square (n : nat) :
  Nat.even n = true -> (2 <= n)%nat -> simpsonR (fun x => x * x) 0 1 n = 1 / 3.
Proof.
  intros Hev Hn. apply Nat.even_spec in Hev. destruct Hev as [k ->].
  destruct k as [|m]; [lia|]. unfold simpsonR.
  rewrite even_mod2. cbn [Nat.eqb negb].
  replace (2 * S m - 1)%nat with (2 * m + 1)%nat by lia.
  rewrite simpson_sum_square.
  rewrite mult_INR, !S_INR. change (INR 0) with 0.
  assert (0 <= INR m) by apply pos_INR. field. lra.
Qed.

End SimpsonExact.

(** C9.  For every even [n >= 2], with exact arithmetic,
    [simpson(x => 1, 0, 1, n)] is exactly 1 and
    [simpson(x => x * x, 0, 1, n)] is exactly 1/3, and so it is with the
    square written [Math.pow(x, 2)]. *)
Theorem simpson_exact_low_degree (n : nat) :
  Nat.even n = true -> (2 <= n)%nat ->
  Integrate.simpson (fun _ => Fin 1) (Fin 0) (Fin 1) n = Fin 1
  /\ Integrate.simpson (fun x => (x * x)%num) (Fin 0) (Fin 1) n = Fin (1 / 3)
  /\ Integrate.simpson (fun x => Math_pow x 2) (Fin 0) (Fin 1) n = Fin (1 / 3).
Proof.
  intros Hev Hn. split; [|split].
  - rewrite (@simpson_Fin (fun _ => Fin 1) (fun _ => 1%R)) by (reflexivity || lia).
    rewrite simpsonR_one by assumption. reflexivity.
  - rewrite (@simpson_Fin (fun x => (x * x)%num) (fun x => (x * x)%R))
      by (reflexivity || lia).
    rewrite simpsonR_square by assumption. reflexivity.
  - rewrite (@simpson_Fin (fun x => Math_pow x 2) (fun x => (x * x)%R)).
    + rewrite simpsonR_square by assumption. reflexivity.
    + intros x. cbn [Math_pow]. f_equal. ring.
    + lia.
Qed.

Lemma simpson_exact_low_degree_witness :
  Integrate.simpson (fun _ => Fin 1) (Fin 0) (Fin 1) 4 = Fin 1
  /\ Integrate.simpson (fun x => (x * x)%num) (Fin 0) (Fin 1) 4 = Fin (1 / 3)
  /\ Integrate.simpson (fun x => Math_pow x 2) (Fin 0) (Fin 1) 4 = Fin (1 / 3).
Proof. apply simpson_exact_low_degree; [reflexivity | lia]. Defined.

(** ** The Bessel series *)

Section BesselFacts.
Local Open Scope R_scope.
Import Bessel.

(** One turn of the summation loop. *)
Lemma besselLoop_S (iters k : nat) (n : Z) (x2 sum term : num) :
  besselLoop (S iters) k n x2 sum term
  = if (Math_abs (term * ((#(-1) * (x2 * x2))
                           / ((ofNat k + #1) * (ofZ n + ofNat k + #1))))
        <? #1e-16 * Math_abs (sum + term))%num
    then (sum + term)%num
    else besselLoop iters (S k) n x2 (sum + term)%num
           (term * ((#(-1) * (x2 * x2))
                    / ((ofNat k + #1) * (ofZ n + ofNat k + #1))))%num.
Proof. reflexivity. Qed.

Lemma seriesLoop_S (iters k n : nat) (x sum : R) :
  seriesLoop (S iters) k n x sum
  = if Rltb (Rabs (seriesTerm n (S k) x)) (1e-16 * Rabs (sum + seriesTerm n k x))
    then sum + seriesTerm n k x
    else seriesLoop iters (S k) n x (sum + seriesTerm n k x).
Proof. reflexivity. Qed.

Lemma factorial_2 : factorial 2 = Fin 2.
Proof.
  unfold factorial. change (2 <? 0)%Z with false.
  change ((2 =? 0)%Z || (2 =? 1)%Z) with false. change (Z.to_nat 2) with 2%nat.
  cbn [Nat.sub seq fold_left]. unfold ofNat. rewrite mul_Fin. cbn [INR].
  f_equal. lra.
Qed.

(** The code at order 2 and a small argument: the loop stops after its
    first turn and returns the initial term. *)
Lemma besselJ_2_small : besselJ 2 (Fin 2e-8) = Fin 2.5e-17.
Proof.
  unfold besselJ. cbn [Number_isFinite negb]. change (2 <? 0)%Z with false.
  change (2 =? 0)%Z with false. cbv iota.
  rewrite factorial_2. rewrite div_Fin by lra.
  change (Z.to_nat 2) with 2%nat. cbn [Math_pow].
  autorewrite with numfin. rewrite div_Fin by lra.
  cbn [Number_isFinite negb].
  rewrite (besselLoop_S 119).
  unfold ofNat, ofZ. change (INR 0) with 0. autorewrite with numfin.
  rewrite div_Fin by lra. autorewrite with numfin.
  unfold Math_abs. autorewrite with numfin.
  rewrite (@Rabs_right (0 + (2e-8 / 2) ^ 2 / (2 * 2))) by lra.
  rewrite Rltb_true by (apply Rabs_def1; lra).
  f_equal. lra.
Qed.

Lemma seriesTerm_2_0 (x : R) : seriesTerm 2 0 x = (x / 2) ^ 2 / 2.
Proof.
  unfold seriesTerm. cbn [fact Nat.add Nat.mul INR pow]. field.
Qed.

Lemma seriesTerm_2_1 (x : R) : seriesTerm 2 1 x = - (x / 2) ^ 4 / 6.
Proof.
  unfold seriesTerm. cbn [fact Nat.add Nat.mul INR pow]. field.
Qed.

(** The documented series at the same point. *)
Lemma seriesJ_2_small : seriesJ 2 2e-8 = 5e-17.
Proof.
  unfold seriesJ. rewrite (seriesLoop_S 119).
  rewrite seriesTerm_2_0, seriesTerm_2_1.
  rewrite (@Rabs_right (0 + (2e-8 / 2) ^ 2 / 2)) by lra.
  rewrite Rltb_true by (apply Rabs_def1; lra).
  lra.
Qed.

(** Past its first turn the order-0 loop keeps its sum in any interval
    that holds both [sum] and [sum + term], provided [(x/2)^2 <= 4]: each
    new term has the opposite sign and no larger magnitude. *)
Lemma besselLoop_bounds (x2 lo hi : R) :
  x2 * x2 <= 4 ->
  forall (iters k : nat) (S t : R),
    (1 <= k)%nat -> lo <= S <= hi -> lo <= S + t <= hi ->
    exists v : R,
      besselLoop iters k 0 (Fin x2) (Fin S) (Fin t) = Fin v /\ lo <= v <= hi.
Proof.
  intros Hq. induction iters as [|iters IH]; intros k S t Hk HS HSt.
  - exists S. split; [reflexivity | exact HS].
  - rewrite besselLoop_S. unfold ofNat, ofZ. autorewrite with numfin.
    assert (Hk1 : 1 <= INR k) by (change 1 with (INR 1); apply le_INR; exact Hk).
    set (d := (INR k + 1) * (0 + INR k + 1)).
    assert (Hd : 4 <= d) by (unfold d; nra).
    rewrite div_Fin by lra. autorewrite with numfin.
    destruct (_ <? _)%num.
    + exists (S + t). split; [reflexivity | exact HSt].
    + apply IH; [lia | exact HSt |].
      assert (Hi : 0 < / d <= / 4).
      { split; [apply Rinv_0_lt_compat; lra|].
        apply Rinv_le_contravar; lra. }
      assert (Hq0 : 0 <= x2 * x2) by nra.
      unfold Rdiv. set (i := / d) in *. set (q := x2 * x2) in *.
      assert (Hr : 0 <= q * i <= 1) by nra.
      set (r := q * i) in *.
      replace (S + t + t * (-1 * q * i)) with ((1 - r) * (S + t) + r * S)
        by (unfold r; ring).
      split; nra.
Qed.

Lemma besselJ0_bounds (x : R) :
  x / 2 * (x / 2) <= 4 ->
  exists v : R,
    besselJ0 (Fin x) = Fin v /\ 1 - x / 2 * (x / 2) <= v <= 1.
Proof.
  intros Hq. unfold besselJ0, besselJ.
  cbn [Number_isFinite negb]. change (0 <? 0)%Z with false.
  change (0 =? 0)%Z with true. cbv iota. cbn [Number_isFinite negb].
  rewrite div_Fin by lra.
  rewrite (besselLoop_S 119). unfold ofNat, ofZ. change (INR 0) with 0.
  autorewrite with numfin. rewrite div_Fin by lra. autorewrite with numfin.
  assert (Hq0 : 0 <= x / 2 * (x / 2)) by nra.
  destruct (_ <? _)%num.
  - exists (0 + 1). split; [reflexivity | lra].
  - apply besselLoop_bounds; [exact Hq | change (INR 1) with 1; lia | lra |].
    replace ((0 + 1) * (0 + 0 + 1)) with 1 by ring. lra.
Qed.

End BesselFacts.

(** ** Positivity of Simpson sums *)

Section SimpsonPositive.
Local Open Scope R_scope.

Lemma simpsonStepR_add (f g : R -> R) (a h : R) (l : list nat) (s t : R) :
  fold_left (simpsonStepR f a h) l s + fold_left (simpsonStepR g a h) l t
  = fold_left (simpsonStepR (fun x => f x + g x) a h) l (s + t).
Proof.
  revert s t. induction l as [|i l IH]; intros s t; [reflexivity|].
  cbn [fold_left]. rewrite IH. f_equal.
  unfold simpsonStepR. destruct (Nat.eqb (i mod 2) 0); ring.
Qed.

Lemma simpsonR_add (f g : R -> R) (a b : R) (n : nat) :
  simpsonR f a b n + simpsonR g a b n = simpsonR (fun x => f x + g x) a b n.
Proof.
  unfold simpsonR. cbv zeta.
  rewrite <- Rmult_plus_distr_l, simpsonStepR_add.
  f_equal. f_equal. ring.
Qed.

Variable F : R -> R.
Variables a h : R.

Lemma simpson_fold_nonneg (l : list nat) :
  (forall i, In i l -> 0 <= F (a + INR i * h)) ->
  forall s : R,
    s <= fold_left (simpsonStepR F a h) l s
    /\ (forall k, In k l ->
          s + 2 * F (a + INR k * h) <= fold_left (simpsonStepR F a h) l s).
Proof.
  induction l as [|i l IH]; intros Hl s.
  - split; [cbn; lra | intros k []].
  - assert (Hi : 0 <= F (a + INR i * h)) by (apply Hl; left; reflexivity).
    assert (Hl' : forall j, In j l -> 0 <= F (a + INR j * h))
      by (intros j Hj; apply Hl; right; exact Hj).
    cbn [fold_left].
    destruct (IH Hl' (simpsonStepR F a h s i)) as [Hmono Hin].
    assert (Hstep : s + 2 * F (a + INR i * h) <= simpsonStepR F a h s i).
    { unfold simpsonStepR. destruct (Nat.eqb (i mod 2) 0); lra. }
    split; [lra|].
    intros k [<- | Hk]; [lra|].
    specialize (Hin k Hk). lra.
Qed.

End SimpsonPositive.

Section SimpsonPositive2.
Local Open Scope R_scope.

(** A non-negative integrand that is positive at one interior sample
    point has a positive Simpson sum. *)
Lemma simpsonR_pos (F : R -> R) (a b : R) (n k : nat) :
  a < b -> Nat.even n = true -> (0 < k < n)%nat ->
  (forall x, a <= x <= b -> 0 <= F x) ->
  0 < F (a + INR k * ((b - a) / INR n)) ->
  0 < simpsonR F a b n.
Proof.
  intros Hab Hev Hk Hpos Hstrict. unfold simpsonR.
  apply Nat.even_spec in Hev. destruct Hev as [m Hm].
  replace (negb (Nat.eqb (n mod 2) 0)) with false
    by (subst n; rewrite even_mod2; reflexivity).
  cbv zeta.
  assert (Hn : 0 < INR n) by (apply lt_0_INR; lia).
  set (h := (b - a) / INR n) in *.
  assert (Hh : 0 < h) by (unfold h; apply Rdiv_lt_0_compat; lra).
  assert (Hsample : forall i, In i (seq 1 (n - 1)) -> 0 <= F (a + INR i * h)).
  { intros i Hi. apply in_seq in Hi. apply Hpos.
    assert (Hi0 : 0 <= INR i) by apply pos_INR.
    assert (Hin : INR i <= INR n) by (apply le_INR; lia).
    assert (Hnh : INR n * h = b - a) by (unfold h; field; lra).
    split; nra. }
  destruct (@simpson_fold_nonneg F a h _ Hsample (F a + F b)) as [_ Hin].
  assert (Hk' : In k (seq 1 (n - 1))) by (apply in_seq; lia).
  specialize (Hin k Hk').
  assert (Ha : 0 <= F a) by (apply Hpos; lra).
  assert (Hb : 0 <= F b) by (apply Hpos; lra).
  apply Rmult_lt_0_compat; lra.
Qed.

End SimpsonPositive2.

(** ** The conductance integrals of the rectangular patch *)

Section Conductances.
Local Open Scope R_scope.
Import Rectangular Integrate.

Lemma safeBesselJ0_Fin (y : num) :
  safeBesselJ0 y = Fin (toR (safeBesselJ0 y)).
Proof. unfold safeBesselJ0. destruct (Bessel.besselJ0 y); reflexivity. Qed.

Lemma slotFactorR_nonneg (k w theta : R) : 0 <= slotFactorR k w theta.
Proof.
  unfold slotFactorR. destruct (Rltb _ _); [nra | apply pow2_ge_0].
Qed.

Lemma integrandG1_Fin (k w theta : R) :
  integrandG1 (Fin k) (Fin w) (Fin theta) = Fin (integrandG1R k w theta).
Proof.
  unfold integrandG1, integrandG1R, slotFactorR, eps.
  cbn [Math_cos Math_sin Math_abs]. rewrite lt_Fin.
  destruct (Rltb (Rabs (cos theta)) 1e-12) eqn:Hc.
  - autorewrite with numfin. rewrite div_Fin by lra.
    cbn [Math_pow]. autorewrite with numfin. reflexivity.
  - apply Rltb_false_iff in Hc.
    assert (Hcos : cos theta <> 0).
    { intros E. rewrite E, Rabs_R0 in Hc. lra. }
    autorewrite with numfin. rewrite div_Fin by lra.
    autorewrite with numfin. cbn [Math_sin].
    rewrite div_Fin by exact Hcos.
    cbn [Math_pow]. autorewrite with numfin. reflexivity.
Qed.

Lemma integrandG12_Fin (k w : R) (L : num) (theta : R) :
  integrandG12 (Fin k) (Fin w) L (Fin theta) = Fin (integrandG12R k w L theta).
Proof.
  unfold integrandG12, integrandG12R, j0R, slotFactorR, eps.
  cbn [Math_cos Math_sin Math_abs]. rewrite lt_Fin.
  rewrite (safeBesselJ0_Fin (Fin k * L * Fin (sin theta))).
  set (j := toR _).
  destruct (Rltb (Rabs (cos theta)) 1e-12) eqn:Hc.
  - autorewrite with numfin. rewrite div_Fin by lra.
    cbn [Math_pow]. autorewrite with numfin. reflexivity.
  - apply Rltb_false_iff in Hc.
    assert (Hcos : cos theta <> 0).
    { intros E. rewrite E, Rabs_R0 in Hc. lra. }
    autorewrite with numfin. rewrite div_Fin by lra.
    autorewrite with numfin. cbn [Math_sin].
    rewrite div_Fin by exact Hcos.
    cbn [Math_pow]. autorewrite with numfin. reflexivity.
Qed.

Lemma INR_256 : INR 256 = 256.
Proof. rewrite INR_IZR_INZ. reflexivity. Qed.

Lemma INR_512 : INR 512 = 512.
Proof. rewrite INR_IZR_INZ. reflexivity. Qed.

(** With a finite wavenumber and width whose product is not zero, and a
    Bessel factor above -1 on [[0, PI]], both conductances are finite and
    their sum is positive. *)
Lemma conductance_sum_pos (k w : R) (L : num) :
  k * w <> 0 ->
  (forall theta, 0 <= theta <= PI -> -1 < j0R k L theta) ->
  exists g1 g12 : R,
    (#1 / (#120 * Math_PI * Math_PI)
     * simpson (integrandG1 (Fin k) (Fin w)) #0 Math_PI 512)%num = Fin g1
    /\ (#1 / (#120 * Math_PI * Math_PI)
        * simpson (integrandG12 (Fin k) (Fin w) L) #0 Math_PI 512)%num = Fin g12
    /\ 0 < g1 + g12.
Proof.
  intros Hkw Hj. pose proof PI_RGT_0 as Hpi. unfold Math_PI.
  rewrite (@simpson_Fin _ (integrandG1R k w) (integrandG1_Fin k w)) by lia.
  rewrite (@simpson_Fin _ (integrandG12R k w L) (integrandG12_Fin k w L)) by lia.
  assert (Hc : 120 * PI * PI <> 0) by nra.
  autorewrite with numfin. rewrite div_Fin by exact Hc.
  autorewrite with numfin.
  eexists; eexists. split; [reflexivity|]. split; [reflexivity|].
  rewrite <- Rmult_plus_distr_l, simpsonR_add.
  apply Rmult_lt_0_compat.
  { apply Rdiv_lt_0_compat; nra. }
  apply simpsonR_pos with (k := 256%nat); [lra | reflexivity | lia | |].
  - intros x Hx. unfold integrandG1R, integrandG12R.
    pose proof (slotFactorR_nonneg k w x) as Hs.
    assert (Hsin : 0 <= sin x) by (apply sin_ge_0; lra).
    specialize (Hj x Hx).
    assert (H3 : 0 <= sin x ^ 3) by (apply pow_le; exact Hsin).
    assert (0 <= slotFactorR k w x * sin x ^ 3) by (apply Rmult_le_pos; assumption).
    nra.
  - rewrite INR_256, INR_512.
    replace (0 + 256 * ((PI - 0) / 512)) with (PI / 2) by field.
    unfold integrandG1R, integrandG12R, slotFactorR.
    rewrite cos_PI2, sin_PI2, Rabs_R0. rewrite Rltb_true by lra.
    assert (Hj2 : -1 < j0R k L (PI / 2)) by (apply Hj; lra).
    assert (Hsq : 0 < k * w / 2 * (k * w / 2)) by nra.
    rewrite pow1. nra.
Qed.

End Conductances.

(** ** The rectangular forward model at finite valid arguments *)

Section RectangularFinite.
Local Open Scope R_scope.
Import Constants Rectangular.

Variables fr e h : R.
Hypothesis Hfr : 0 < fr.
Hypothesis He : 1 <= e.
Hypothesis Hh : 0 < h.

Let input : RectangularPatchInput :=
  {| frHz := Fin fr; epsilonR := Fin e; hM := Fin h |}.

Lemma widthR_pos : 0 < widthR fr e.
Proof.
  unfold widthR, cR. apply Rmult_lt_0_compat.
  - apply Rdiv_lt_0_compat; lra.
  - apply sqrt_lt_R0. apply Rdiv_lt_0_compat; lra.
Qed.

Lemma widthOf_Fin : widthOf input = Fin (widthR fr e).
Proof.
  unfold widthOf, widthR, C, cR, input. cbn [frHz epsilonR].
  autorewrite with numfin. rewrite !div_Fin by lra.
  assert (0 < 2 / (e + 1)) by (apply Rdiv_lt_0_compat; lra).
  rewrite sqrt_Fin by lra. autorewrite with numfin. reflexivity.
Qed.

Lemma epsilonReffOf_Fin :
  epsilonReffOf input = Fin (effEpsR e (widthR fr e) h).
Proof.
  unfold epsilonReffOf. rewrite widthOf_Fin. unfold input. cbn [epsilonR hM].
  apply effectiveEpsilon_Fin; [exact Hh | exact widthR_pos].
Qed.

Lemma effEps_ge_1 : 1 <= effEpsR e (widthR fr e) h <= e.
Proof.
  destruct (effEpsR_bounds He Hh widthR_pos) as [[H1 H2] _]. lra.
Qed.

Lemma sqrt_effEps_ge_1 : 1 <= sqrt (effEpsR e (widthR fr e) h).
Proof.
  rewrite <- sqrt_1. apply sqrt_le_1; [lra | | ]; destruct effEps_ge_1; lra.
Qed.

Lemma fringe_den_pos :
  0 < (effEpsR e (widthR fr e) h - 0.258) * (widthR fr e / h + 0.8).
Proof.
  pose proof widthR_pos as Hw. destruct effEps_ge_1 as [H1 _].
  assert (0 < widthR fr e / h) by (apply Rdiv_lt_0_compat; lra).
  apply Rmult_lt_0_compat; lra.
Qed.

Lemma deltaL_Fin :
  (#0.824 * Fin h
   * ((Fin (effEpsR e (widthR fr e) h) + #0.3) * (Fin (widthR fr e) / Fin h + #0.264)
      / ((Fin (effEpsR e (widthR fr e) h) - #0.258)
         * (Fin (widthR fr e) / Fin h + #0.8))))%num
  = Fin (deltaLR (effEpsR e (widthR fr e) h) (widthR fr e) h).
Proof.
  pose proof fringe_den_pos as Hden. unfold deltaLR.
  rewrite (@div_Fin (widthR fr e) h) by lra.
  autorewrite with numfin. rewrite div_Fin by lra.
  autorewrite with numfin. reflexivity.
Qed.

Lemma effectiveLengthOf_Fin :
  effectiveLengthOf input = Fin (LeffR fr (effEpsR e (widthR fr e) h)).
Proof.
  unfold effectiveLengthOf. rewrite epsilonReffOf_Fin.
  unfold input, C, LeffR, cR. cbn [frHz].
  pose proof sqrt_effEps_ge_1 as Hs. destruct effEps_ge_1 as [H1 _].
  rewrite sqrt_Fin by lra. autorewrite with numfin.
  rewrite div_Fin by nra. reflexivity.
Qed.

Lemma lengthOf_Fin : lengthOf input = Fin (lengthR fr e h).
Proof.
  unfold lengthOf. cbv zeta. rewrite epsilonReffOf_Fin, widthOf_Fin.
  unfold input. cbn [frHz hM]. rewrite deltaL_Fin.
  unfold C, lengthR, LeffR, cR.
  pose proof sqrt_effEps_ge_1 as Hs. destruct effEps_ge_1 as [H1 _].
  rewrite sqrt_Fin by lra. autorewrite with numfin.
  rewrite div_Fin by nra. autorewrite with numfin. reflexivity.
Qed.

Lemma k0_Fin : k0 (Fin fr) = Fin (k0R fr).
Proof.
  unfold k0, k0R, C, cR, Math_PI. autorewrite with numfin.
  rewrite div_Fin by lra. reflexivity.
Qed.

Lemma k0R_widthR_neq_0 : k0R fr * widthR fr e <> 0.
Proof.
  pose proof widthR_pos. pose proof PI_RGT_0.
  assert (0 < k0R fr).
  { unfold k0R, cR. apply Rdiv_lt_0_compat; nra. }
  nra.
Qed.

Lemma invalidInput_Fin : invalidInput input = false.
Proof.
  unfold invalidInput, input. cbn [frHz epsilonR hM]. autorewrite with numfin.
  rewrite !Rleb_false, Rltb_false by lra. reflexivity.
Qed.

(** Past the guard, a Bessel factor above -1 is all the forward model
    needs to return a record. *)
Lemma computeRectangularPatch_Some :
  (forall theta, 0 <= theta <= PI ->
     -1 < j0R (k0R fr) (Fin (lengthR fr e h)) theta) ->
  exists res,
    computeRectangularPatch input = Some res
    /\ W res = Fin (widthR fr e)
    /\ L res = Fin (lengthR fr e h)
    /\ RinAtEdge res = RinAtEdgeOf input
    /\ y0_50ohm res = y0Of input.
Proof.
  intros Hj.
  destruct (conductance_sum_pos (Fin (lengthR fr e h)) k0R_widthR_neq_0 Hj)
    as (g1 & g12 & Hg1 & Hg12 & Hsum).
  assert (E1 : G1Of input = Fin g1).
  { unfold G1Of. rewrite widthOf_Fin. unfold input at 1. cbn [frHz].
    rewrite k0_Fin. exact Hg1. }
  assert (E12 : G12Of input = Fin g12).
  { unfold G12Of. rewrite widthOf_Fin, lengthOf_Fin. unfold input at 1.
    cbn [frHz]. rewrite k0_Fin. exact Hg12. }
  rewrite computeRectangularPatch_flow, invalidInput_Fin, E1, E12.
  cbn [Number_isFinite negb orb]. autorewrite with numfin.
  rewrite Rleb_false by lra.
  destruct (_ || _); eexists; (split; [reflexivity|]);
    cbn [W L RinAtEdge y0_50ohm partialResult fullResult];
    rewrite widthOf_Fin, lengthOf_Fin; repeat split.
Qed.

End RectangularFinite.

(** ** The design range of the round trip *)

Section RectangularRange.
Local Open Scope R_scope.
Import Constants Rectangular.

Variables fr e h : R.
Hypothesis Hfr : 1e9 <= fr <= 10e9.
Hypothesis He : 2 <= e <= 10.
Hypothesis Hh : 0.2e-3 <= h <= 3e-3.

Let w : R := widthR fr e.
Let ee : R := effEpsR e w h.

Lemma range_basic :
  0 < w /\ 1.5 <= ee <= 10 /\ 1 <= sqrt ee <= 3.2 /\ sqrt ee * sqrt ee = ee.
Proof.
  assert (Hw : 0 < w) by (apply widthR_pos; lra).
  assert (Hee : 1.5 <= ee <= 10).
  { destruct (@effEpsR_bounds e w h) as [[H1 H2] _]; [lra | lra | exact Hw |].
    unfold ee. lra. }
  assert (Hss : sqrt ee * sqrt ee = ee) by (apply sqrt_sqrt; lra).
  assert (Hs0 : 0 <= sqrt ee) by apply sqrt_pos.
  repeat split; try lra; nra.
Qed.

Lemma LeffR_lower : 0.00468 <= LeffR fr ee.
Proof.
  destruct range_basic as (_ & _ & Hs & _).
  unfold LeffR, cR. apply div_ge_bound; nra.
Qed.

Lemma deltaLR_bounds : 0 <= deltaLR ee w h <= 0.0036.
Proof.
  destruct range_basic as (Hw & Hee & _ & _).
  unfold deltaLR.
  assert (Hu : 0 < w / h) by (apply Rdiv_lt_0_compat; lra).
  set (u := w / h) in *.
  assert (Hd : 0 < (ee - 0.258) * (u + 0.8)) by (apply Rmult_lt_0_compat; lra).
  assert (Hn : 0 <= (ee + 0.3) * (u + 0.264)) by (apply Rmult_le_pos; lra).
  assert (Hq1 : (ee + 0.3) * (u + 0.264) / ((ee - 0.258) * (u + 0.8)) <= 1.45).
  { apply div_le_bound; [exact Hd | nra]. }
  assert (Hq0 : 0 <= (ee + 0.3) * (u + 0.264) / ((ee - 0.258) * (u + 0.8))).
  { apply div_ge_bound; [exact Hd | lra]. }
  set (q := (ee + 0.3) * (u + 0.264) / ((ee - 0.258) * (u + 0.8))) in *.
  split; nra.
Qed.

Lemma lengthR_range : 0 < lengthR fr e h <= LeffR fr ee.
Proof.
  pose proof LeffR_lower. pose proof deltaLR_bounds.
  unfold lengthR. fold w. fold ee. lra.
Qed.

Lemma k0R_LeffR : k0R fr * LeffR fr ee * sqrt ee = PI.
Proof.
  destruct range_basic as (_ & _ & Hs & _).
  unfold k0R, LeffR, cR. field. lra.
Qed.

(** Over the design range the argument of [J0] stays where the series
    is an alternating sum of decreasing terms. *)
Lemma bessel_arg_range (theta : R) :
  k0R fr * lengthR fr e h * sin theta / 2
  * (k0R fr * lengthR fr e h * sin theta / 2) <= 1.75.
Proof.
  destruct range_basic as (_ & Hee & Hs & Hss).
  pose proof lengthR_range as [HL0 HL1].
  pose proof k0R_LeffR as Hk.
  pose proof PI_upper as Hpi. pose proof PI_RGT_0 as Hpi0.
  pose proof (SIN_bound theta) as [Hs1 Hs2].
  assert (Hk0 : 0 < k0R fr).
  { unfold k0R, cR. apply Rdiv_lt_0_compat; nra. }
  set (k := k0R fr) in *. set (Lr := lengthR fr e h) in *.
  set (Le := LeffR fr ee) in *. set (s := sqrt ee) in *.
  assert (HkL : 0 < k * Lr <= k * Le) by (split; nra).
  assert (Hsq : (k * Le) * (k * Le) * ee = PI * PI).
  { rewrite <- Hss. rewrite <- Hk. ring. }
  assert (Hb : (k * Le) * (k * Le) <= 7).
  { assert (PI * PI <= 10.4976) by nra.
    assert (0 <= (k * Le) * (k * Le)) by nra.
    nra. }
  assert (Hsin2 : sin theta * sin theta <= 1) by nra.
  assert (HkL2 : (k * Lr) * (k * Lr) <= 7) by nra.
  assert (0 <= (k * Lr) * (k * Lr)) by nra.
  assert (0 <= sin theta * sin theta) by nra.
  replace (k * Lr * sin theta / 2 * (k * Lr * sin theta / 2))
    with ((k * Lr) * (k * Lr) * (sin theta * sin theta) / 4) by field.
  nra.
Qed.

Lemma j0R_range (theta : R) :
  -1 < j0R (k0R fr) (Fin (lengthR fr e h)) theta.
Proof.
  unfold j0R. autorewrite with numfin. unfold safeBesselJ0.
  pose proof (bessel_arg_range theta) as Hq.
  destruct (@besselJ0_bounds (k0R fr * lengthR fr e h * sin theta))
    as (v & Hv & Hlo & Hhi); [lra|].
  rewrite Hv. cbn [Number_isFinite toR]. lra.
Qed.

End RectangularRange.

Section RoundTrip.
Local Open Scope R_scope.
Import Constants Rectangular.

Variables fr e h : R.
Hypothesis Hfr : 1e9 <= fr <= 10e9.
Hypothesis He : 2 <= e <= 10.
Hypothesis Hh : 0.2e-3 <= h <= 3e-3.

(** Over the design range the forward model returns a record. *)
Lemma computeRectangularPatch_range :
  exists res,
    computeRectangularPatch {| frHz := Fin fr; epsilonR := Fin e; hM := Fin h |}
    = Some res
    /\ W res = Fin (widthR fr e)
    /\ L res = Fin (lengthR fr e h).
Proof.
  destruct (@computeRectangularPatch_Some fr e h) as (res & H1 & H2 & H3 & _);
    [lra | lra | lra | intros theta _; apply j0R_range; assumption |].
  exists res. repeat split; assumption.
Qed.

(** The reverse formula undoes the forward one exactly. *)
Lemma reverse_frequency :
  cR / (2 * sqrt (effEpsR e (widthR fr e) h)
        * (lengthR fr e h
           + deltaLR (effEpsR e (widthR fr e) h) (widthR fr e) h)) = fr.
Proof.
  destruct (range_basic Hfr He Hh) as (_ & _ & Hs & _).
  unfold lengthR, LeffR, cR. field. lra.
Qed.

Lemma computeRectangularPatchReverse_range :
  computeRectangularPatchReverse
    {| WM := Fin (widthR fr e); LM := Fin (lengthR fr e h);
       epsilonR_rev := Fin e; hM_rev := Fin h |}
  = match computeRectangularPatch
            {| frHz := Fin fr; epsilonR := Fin e; hM := Fin h |} with
    | None => None
    | Some forward => Some (Fin fr, forward)
    end.
Proof.
  destruct (range_basic Hfr He Hh) as (Hw & Hee & Hs & Hss).
  pose proof (lengthR_range Hfr He Hh) as [HL0 HL1].
  pose proof (deltaLR_bounds Hfr He Hh) as [Hd0 Hd1].
  unfold computeRectangularPatchReverse.
  cbn [WM LM epsilonR_rev hM_rev]. rewrite !le_Fin, lt_Fin.
  rewrite !Rleb_false, Rltb_false by lra. cbn [orb].
  rewrite effectiveEpsilon_Fin by lra.
  rewrite deltaL_Fin by lra.
  rewrite sqrt_Fin by lra. unfold C. autorewrite with numfin.
  rewrite div_Fin by nra.
  fold cR. rewrite reverse_frequency.
  cbn [Number_isFinite negb orb]. autorewrite with numfin.
  rewrite Rleb_false by lra. reflexivity.
Qed.

End RoundTrip.

(** C1.  For every [frHz] in [[1e9, 10e9]], [epsilonR] in [[2, 10]] and
    [hM] in [[0.2e-3, 3e-3]], [computeRectangularPatch] yields a record,
    and [computeRectangularPatchReverse] on its [W] and [L] (same
    [epsilonR] and [hM]) succeeds with a recovered frequency equal to
    [frHz], hence within relative error [1e-9] of it, and with the same
    record. *)
Theorem rectangular_round_trip (fr e h : R) :
  (1e9 <= fr <= 10e9)%R -> (2 <= e <= 10)%R -> (0.2e-3 <= h <= 3e-3)%R ->
  exists (res : Rectangular.RectangularPatchResult) (fr' : R),
    Rectangular.computeRectangularPatch
      {| Rectangular.frHz := Fin fr; Rectangular.epsilonR := Fin e;
         Rectangular.hM := Fin h |} = Some res
    /\ Rectangular.computeRectangularPatchReverse
         {| Rectangular.WM := Rectangular.W res;
            Rectangular.LM := Rectangular.L res;
            Rectangular.epsilonR_rev := Fin e;
            Rectangular.hM_rev := Fin h |} = Some (Fin fr', res)
    /\ fr' = fr
    /\ (Rabs (fr' - fr) < 1e-9 * fr)%R.
Proof.
  intros Hfr He Hh.
  destruct (computeRectangularPatch_range Hfr He Hh) as (res & Hres & HW & HL).
  exists res, fr. split; [exact Hres|]. split.
  - rewrite HW, HL, (computeRectangularPatchReverse_range Hfr He Hh), Hres.
    reflexivity.
  - split; [reflexivity|].
    replace (fr - fr)%R with 0%R by ring. rewrite Rabs_R0. lra.
Qed.

Lemma rectangular_round_trip_witness :
  exists (res : Rectangular.RectangularPatchResult) (fr' : R),
    Rectangular.computeRectangularPatch
      {| Rectangular.frHz := Fin 2.4e9; Rectangular.epsilonR := Fin 4.4;
         Rectangular.hM := Fin 1.6e-3 |} = Some res
    /\ Rectangular.computeRectangularPatchReverse
         {| Rectangular.WM := Rectangular.W res;
            Rectangular.LM := Rectangular.L res;
            Rectangular.epsilonR_rev := Fin 4.4;
            Rectangular.hM_rev := Fin 1.6e-3 |} = Some (Fin fr', res)
    /\ fr' = 2.4e9%R
    /\ (Rabs (fr' - 2.4e9) < 1e-9 * 2.4e9)%R.
Proof. apply rectangular_round_trip; lra. Defined.

(** ** The 50 ohm feed inset *)

Section FeedInset.
Import Rectangular.
Local Open Scope num_scope.

(** Inside the window [50 <= RinAtEdge < 1e10] the ratio [50 / RinAtEdge]
    is in [[0, 1]], so the inner test of the source never fails. *)
Lemma inset_window (Rin Lv : num) :
  (if (Rin >=? #50) && (Rin <? #1e10) then
     let ratio := #50 / Rin in
     if (ratio <=? #1) && (ratio >=? #0)
     then Some ((Lv / Math_PI) * Math_acos (Math_sqrt ratio))
     else None
   else None)
  = if (#50 <=? Rin) && (Rin <? #1e10)
    then Some ((Lv / Math_PI) * Math_acos (Math_sqrt (#50 / Rin)))
    else None.
Proof.
  change (Rin >=? #50) with (#50 <=? Rin).
  destruct ((#50 <=? Rin) && (Rin <? #1e10)) eqn:Hwin; [|reflexivity].
  apply andb_true_iff in Hwin. destruct Hwin as [H50 Hbig].
  destruct Rin as [r| | |]; try discriminate.
  rewrite le_Fin in H50. apply Rleb_spec in H50.
  cbv zeta. rewrite div_Fin by lra. rewrite le_Fin, ge_Fin.
  assert (Hr : (0 < / r)%R) by (apply Rinv_0_lt_compat; lra).
  rewrite Rleb_true by (apply div_le_bound; lra).
  rewrite Rleb_true by (apply div_ge_bound; lra).
  reflexivity.
Qed.

Lemma computeRectangularPatch_fields (input : RectangularPatchInput)
    (res : RectangularPatchResult) :
  computeRectangularPatch input = Some res ->
  L res = lengthOf input
  /\ RinAtEdge res = RinAtEdgeOf input
  /\ y0_50ohm res = y0Of input.
Proof.
  rewrite computeRectangularPatch_flow.
  destruct (invalidInput input); [discriminate|].
  destruct (_ || _ || _); [discriminate|].
  destruct (_ || _); intros E; injection E as <-; repeat split.
Qed.

End FeedInset.

(** C8.  In every record [computeRectangularPatch] returns, [y0_50ohm]
    is non-null if and only if [50 <= RinAtEdge < 1e10]; in that case it
    is [(L / PI) * acos(sqrt(50 / RinAtEdge))], and otherwise it is
    null. *)
Theorem feed_inset_contract (input : Rectangular.RectangularPatchInput)
    (res : Rectangular.RectangularPatchResult) :
  Rectangular.computeRectangularPatch input = Some res ->
  let Rin := Rectangular.RinAtEdge res in
  let window := ((#50 <=? Rin) && (Rin <? #1e10))%num in
  (Rectangular.y0_50ohm res <> None <-> window = true)
  /\ (window = true ->
      Rectangular.y0_50ohm res
      = Some ((Rectangular.L res / Math_PI)
              * Math_acos (Math_sqrt (#50 / Rin)))%num)
  /\ (window = false -> Rectangular.y0_50ohm res = None).
Proof.
  intros Hres Rin window.
  destruct (@computeRectangularPatch_fields input res Hres) as (HL & HR & Hy).
  assert (E : Rectangular.y0_50ohm res
              = if window
                then Some ((Rectangular.L res / Math_PI)
                           * Math_acos (Math_sqrt (#50 / Rin)))%num
                else None).
  { rewrite Hy. unfold Rectangular.y0Of. cbv zeta.
    rewrite inset_window. unfold window, Rin. rewrite HR, HL. reflexivity. }
  rewrite E. destruct window.
  - split; [split; [reflexivity | discriminate]|].
    split; [reflexivity | discriminate].
  - split; [split; [intros H; contradiction | discriminate]|].
    split; [discriminate | reflexivity].
Qed.

Lemma feed_inset_contract_witness :
  exists res : Rectangular.RectangularPatchResult,
    Rectangular.computeRectangularPatch
      {| Rectangular.frHz := Fin 2.4e9; Rectangular.epsilonR := Fin 4.4;
         Rectangular.hM := Fin 1.6e-3 |} = Some res
    /\ let Rin := Rectangular.RinAtEdge res in
       let window := ((#50 <=? Rin) && (Rin <? #1e10))%num in
       (Rectangular.y0_50ohm res <> None <-> window = true)
       /\ (window = true ->
           Rectangular.y0_50ohm res
           = Some ((Rectangular.L res / Math_PI)
                   * Math_acos (Math_sqrt (#50 / Rin)))%num)
       /\ (window = false -> Rectangular.y0_50ohm res = None).
Proof.
  destruct (@computeRectangularPatch_range 2.4e9 4.4 1.6e-3)
    as (res & Hres & _); [lra | lra | lra |].
  exists res. split; [exact Hres|].
  exact (@feed_inset_contract _ res Hres).
Defined.

(** ** A not-a-number substrate height *)

Section RectangularNaN.
Import Constants Rectangular Integrate.
Local Open Scope num_scope.

Lemma simpson_fold_NaN (f : num -> num) (a h : num) (l : list nat) :
  fold_left (simpsonStep f a h) l NaN = NaN.
Proof.
  induction l as [|i l IH]; [reflexivity|].
  cbn [fold_left]. unfold simpsonStep at 2. rewrite add_NaN_l. exact IH.
Qed.

Lemma simpson_NaN (f : num -> num) (a b : num) (n : nat) :
  (forall x, f x = NaN) -> simpson f a b n = NaN.
Proof.
  intros Hf. unfold simpson. rewrite !Hf, add_NaN_l, simpson_fold_NaN.
  apply mul_NaN_r.
Qed.

Lemma simpson2D_fold_NaN (f : num -> num -> num) (a hOuter c d : num)
    (nOuter nInner : nat) (l : list nat) :
  fold_left (simpson2DStep f a hOuter c d nOuter nInner) l NaN = NaN.
Proof.
  induction l as [|i l IH]; [reflexivity|].
  cbn [fold_left]. unfold simpson2DStep at 2. rewrite add_NaN_l. exact IH.
Qed.

Lemma simpson2D_NaN (f : num -> num -> num) (a b c d : num)
    (nOuter nInner : nat) :
  (forall x y, f x y = NaN) -> simpson2D f a b c d nOuter nInner = NaN.
Proof.
  intros Hf. unfold simpson2D. rewrite Nat.add_1_r. cbn [seq fold_left].
  unfold simpson2DStep at 2.
  rewrite simpson_NaN by (intros y; apply Hf).
  rewrite mul_NaN_r, add_NaN_r, simpson2D_fold_NaN. apply mul_NaN_r.
Qed.

Lemma integrandI1_NaN (k0Val W theta phi : num) :
  integrandI1 k0Val W NaN theta phi = NaN.
Proof.
  unfold integrandI1. autorewrite with nan. cbn [Math_cos Math_pow].
  rewrite ?mul_NaN_r. reflexivity.
Qed.

Variables fr e : R.
Hypothesis Hfr : (0 < fr)%R.
Hypothesis He : (1 <= e)%R.

Let input : RectangularPatchInput :=
  {| frHz := Fin fr; epsilonR := Fin e; hM := NaN |}.

Lemma epsilonReffOf_NaN : epsilonReffOf input = NaN.
Proof.
  unfold epsilonReffOf, effectiveEpsilon, input. cbn [epsilonR hM].
  autorewrite with nan. cbn [Math_sqrt]. autorewrite with nan. reflexivity.
Qed.

Lemma lengthOf_NaN : lengthOf input = NaN.
Proof.
  unfold lengthOf. cbv zeta. rewrite epsilonReffOf_NaN.
  cbn [Math_sqrt]. autorewrite with nan. unfold sub. autorewrite with nan.
  reflexivity.
Qed.

Lemma effectiveLengthOf_NaN : effectiveLengthOf input = NaN.
Proof.
  unfold effectiveLengthOf. rewrite epsilonReffOf_NaN.
  cbn [Math_sqrt]. autorewrite with nan. reflexivity.
Qed.

Lemma I1Of_NaN : I1Of input = NaN.
Proof.
  unfold I1Of. rewrite effectiveLengthOf_NaN.
  apply simpson2D_NaN. intros x y. apply integrandI1_NaN.
Qed.

(** The height does not enter [W], [G1] or, through the safe Bessel
    wrapper, the finiteness of [G12]: the conductance gate is passed. *)
Lemma computeRectangularPatch_NaN_height :
  computeRectangularPatch input <> None.
Proof.
  assert (HW : widthOf input = Fin (widthR fr e)).
  { exact (@widthOf_Fin fr e 1 Hfr He). }
  destruct (@conductance_sum_pos (k0R fr) (widthR fr e) NaN)
    as (g1 & g12 & Hg1 & Hg12 & Hsum).
  { apply k0R_widthR_neq_0; assumption. }
  { intros theta _. unfold j0R.
    change (toR (safeBesselJ0 (Fin (k0R fr) * NaN * Fin (sin theta)))) with 0%R.
    lra. }
  assert (E1 : G1Of input = Fin g1).
  { unfold G1Of. rewrite HW. unfold input at 1. cbn [frHz].
    rewrite k0_Fin. exact Hg1. }
  assert (E12 : G12Of input = Fin g12).
  { unfold G12Of. rewrite HW, lengthOf_NaN. unfold input at 1. cbn [frHz].
    rewrite k0_Fin. exact Hg12. }
  rewrite computeRectangularPatch_flow.
  assert (Hg : invalidInput input = false).
  { unfold invalidInput, input. cbn [frHz epsilonR hM].
    rewrite le_NaN_l, le_Fin, lt_Fin.
    rewrite Rleb_false, Rltb_false by lra. reflexivity. }
  rewrite Hg, E1, E12. cbn [Number_isFinite negb orb].
  rewrite add_Fin, le_Fin. rewrite Rleb_false by lra.
  destruct (_ || _); discriminate.
Qed.

End RectangularNaN.

Lemma rectangular_partial_result_witness :
  let input :=
    {| Rectangular.frHz := Fin 2.4e9; Rectangular.epsilonR := Fin 4.4;
       Rectangular.hM := NaN |} in
  Rectangular.computeRectangularPatch input
  = Some {| Rectangular.W := Rectangular.widthOf input;
            Rectangular.L := Rectangular.lengthOf input;
            Rectangular.L_eff := Rectangular.effectiveLengthOf input;
            Rectangular.epsilonReff := Rectangular.epsilonReffOf input;
            Rectangular.G1 := Rectangular.G1Of input;
            Rectangular.G12 := Rectangular.G12Of input;
            Rectangular.RinAtEdge := Rectangular.RinAtEdgeOf input;
            Rectangular.y0_50ohm := Rectangular.y0Of input;
            Rectangular.directivityD := NaN;
            Rectangular.directivityDBi := NaN;
            Rectangular.lambda0 :=
              Constants.wavelength (Rectangular.frHz input) |}.
Proof.
  intros input. apply rectangular_partial_result.
  - apply computeRectangularPatch_NaN_height; lra.
  - left. unfold input. rewrite I1Of_NaN. reflexivity.
Defined.

(** ** The code against the documented series, at every order *)

Section BesselSeries.
Local Open Scope R_scope.
Import Bessel.

Lemma factorial_fold (m : nat) :
  fold_left (fun f i => (f * ofNat i)%num) (seq 2 m) (Fin 1)
  = Fin (INR (fact (S m))).
Proof.
  induction m as [|m IH]; [reflexivity|].
  rewrite seq_S, fold_left_app, IH. cbn [fold_left]. unfold ofNat.
  rewrite mul_Fin. f_equal.
  change (fact (S (S m))) with (S (S m) * fact (S m))%nat.
  rewrite mult_INR. replace (2 + m)%nat with (S (S m)) by lia. ring.
Qed.

Lemma factorial_INR (n : nat) : factorial (Z.of_nat n) = Fin (INR (fact n)).
Proof.
  unfold factorial.
  replace (Z.of_nat n <? 0)%Z with false by (symmetry; apply Z.ltb_ge; lia).
  destruct n as [|[|m]]; [reflexivity | reflexivity |].
  replace (Z.of_nat (S (S m)) =? 0)%Z with false by (symmetry; apply Z.eqb_neq; lia).
  replace (Z.of_nat (S (S m)) =? 1)%Z with false by (symmetry; apply Z.eqb_neq; lia).
  cbn [orb]. rewrite Nat2Z.id.
  replace (S (S m) - 1)%nat with (S m) by lia.
  apply factorial_fold.
Qed.

Lemma seriesTerm_succ (n k : nat) (x : R) :
  seriesTerm n (S k) x
  = seriesTerm n k x
    * (-1 * (x / 2 * (x / 2)) / ((INR k + 1) * (INR n + INR k + 1))).
Proof.
  unfold seriesTerm.
  replace (n + S k)%nat with (S (n + k)) by lia.
  replace (n + 2 * S k)%nat with (S (S (n + 2 * k))) by lia.
  change (fact (S k)) with (S k * fact k)%nat.
  change (fact (S (n + k))) with (S (n + k) * fact (n + k))%nat.
  rewrite !mult_INR, !S_INR, plus_INR. cbn [pow].
  pose proof (INR_fact_neq_0 k). pose proof (INR_fact_neq_0 (n + k)).
  pose proof (pos_INR k). pose proof (pos_INR n).
  field. repeat split; try assumption; lra.
Qed.

Lemma Rltb_scale (a b c t : R) :
  0 < c ->
  Rltb (Rabs (a / c)) (t * Rabs (b / c)) = Rltb (Rabs a) (t * Rabs b).
Proof.
  intros Hc. unfold Rdiv. rewrite !Rabs_mult.
  assert (Hi : 0 < / c) by (apply Rinv_0_lt_compat; exact Hc).
  rewrite (Rabs_right (/ c)) by lra.
  pose proof (Rabs_pos a). pose proof (Rabs_pos b).
  set (A := Rabs a). set (B := Rabs b). set (i := / c) in *.
  unfold Rltb.
  destruct (Rlt_dec (A * i) (t * (B * i))) as [H1|H1],
    (Rlt_dec A (t * B)) as [H2|H2]; try reflexivity; exfalso.
  - apply H2. apply Rmult_lt_reg_r with i; [exact Hi | lra].
  - apply H1. apply (Rmult_lt_compat_r i) in H2; [lra | exact Hi].
Qed.

Lemma besselLoop_series (n : nat) (x : R) (iters : nat) :
  forall (k : nat) (S : R),
    besselLoop iters k (Z.of_nat n) (Fin (x / 2))
      (Fin (S / INR (fact n))) (Fin (seriesTerm n k x / INR (fact n)))
    = Fin (seriesLoop iters k n x S / INR (fact n)).
Proof.
  pose proof (INR_fact_lt_0 n) as Hf.
  induction iters as [|iters IH]; intros k S; [reflexivity|].
  rewrite besselLoop_S, seriesLoop_S. unfold ofNat, ofZ.
  rewrite <- INR_IZR_INZ.
  pose proof (pos_INR k). pose proof (pos_INR n).
  autorewrite with numfin. rewrite div_Fin by nra.
  autorewrite with numfin. unfold Math_abs. autorewrite with numfin.
  replace (seriesTerm n k x / INR (fact n)
           * (-1 * (x / 2 * (x / 2)) / ((INR k + 1) * (INR n + INR k + 1))))
    with (seriesTerm n (Datatypes.S k) x / INR (fact n))
    by (rewrite seriesTerm_succ; field; repeat split; lra).
  replace (S / INR (fact n) + seriesTerm n k x / INR (fact n))
    with ((S + seriesTerm n k x) / INR (fact n)) by (field; lra).
  rewrite Rltb_scale by exact Hf.
  destruct (Rltb _ _); [reflexivity | apply IH].
Qed.

Lemma Math_pow_Fin (a : R) (n : nat) : Math_pow (Fin a) n = Fin (a ^ n).
Proof. destruct n; reflexivity. Qed.

(** At every order [n >= 0] and finite [x], [besselJ(n, x)] is the
    documented series, truncated as documented, divided by [n!]. *)
Lemma besselJ_series (n : nat) (x : R) :
  besselJ (Z.of_nat n) (Fin x) = Fin (seriesJ n x / INR (fact n)).
Proof.
  pose proof (INR_fact_lt_0 n) as Hf.
  unfold besselJ. cbn [Number_isFinite negb].
  replace (Z.of_nat n <? 0)%Z with false by (symmetry; apply Z.ltb_ge; lia).
  rewrite div_Fin by lra. rewrite Nat2Z.id, Math_pow_Fin, factorial_INR.
  rewrite mul_Fin. rewrite div_Fin by nra.
  assert (E : (if (Z.of_nat n =? 0)%Z then Fin 1
               else Fin ((x / 2) ^ n / (INR (fact n) * INR (fact n))))
              = Fin (seriesTerm n 0 x / INR (fact n))).
  { destruct n as [|m].
    - cbn [Z.of_nat Z.eqb]. f_equal. unfold seriesTerm. cbn. field.
    - replace (Z.of_nat (S m) =? 0)%Z with false
        by (symmetry; apply Z.eqb_neq; lia).
      f_equal. unfold seriesTerm.
      rewrite Nat.add_0_r, Nat.mul_0_r, Nat.add_0_r.
      change (INR (fact 0)) with 1. cbn [pow]. field. lra. }
  rewrite E. cbn [Number_isFinite negb].
  replace (Fin 0) with (Fin (0 / INR (fact n))) by (f_equal; field; lra).
  apply besselLoop_series.
Qed.

End BesselSeries.

(** C4.  At every order [n >= 0] and finite [x] the code returns the
    documented power series
    [sum_k (-1)^k / (k! (n+k)!) * (x/2)^(n+2k)], truncated under the
    stated stopping rule, divided by [n!]: the initial term of the code,
    [(x/2)^n / (n! * n!)], carries one factorial too many.  So the claim
    holds at orders 0 and 1 and fails from order 2 on:
    [besselJ(2, 2e-8)] is [2.5e-17] where the series gives [5e-17], and
    at [n = 2], [x = 2] the initial term of the code is [1/4] where the
    first term of the series, [(x/2)^n / (0! * n!)], is [1/2]. *)
Theorem besselJ_order2_off_series :
  (forall (n : nat) (x : R),
     Bessel.besselJ (Z.of_nat n) (Fin x) = Fin (seriesJ n x / INR (fact n)))
  /\ Bessel.besselJ 2 (Fin 2e-8) = Fin 2.5e-17
  /\ seriesJ 2 2e-8 = 5e-17%R
  /\ Bessel.besselJ 2 (Fin 2e-8) <> Fin (seriesJ 2 2e-8)
  /\ (Math_pow (Fin 2 / #2) 2 / (Bessel.factorial 2 * Bessel.factorial 2))%num
     = Fin (1 / 4)
  /\ seriesTerm 2 0 2 = (1 / 2)%R.
Proof.
  split; [exact besselJ_series|].
  split; [exact besselJ_2_small|]. split; [exact seriesJ_2_small|].
  split; [|split].
  - rewrite besselJ_2_small, seriesJ_2_small. intros E.
    injection E as E. lra.
  - rewrite factorial_2. rewrite div_Fin by lra. cbn [Math_pow].
    rewrite mul_Fin. rewrite div_Fin by lra. f_equal. lra.
  - rewrite seriesTerm_2_0. lra.
Qed.


(* ================================================================== *)
(** * Further properties of the engine *)

(** ** Unit conversion and constants *)

Section UnitsFacts.
Local Open Scope R_scope.
Import Units.

Lemma LENGTH_TO_M_pos (u : LengthUnit) :
  exists c : R, LENGTH_TO_M u = Fin c /\ 0 < c.
Proof. destruct u; eexists; (split; [reflexivity | lra]). Qed.

Lemma FREQ_TO_HZ_pos (u : FrequencyUnit) :
  exists c : R, FREQ_TO_HZ u = Fin c /\ 0 < c.
Proof. destruct u; eexists; (split; [reflexivity | lra]). Qed.

(** Multiplying and dividing by a positive finite factor, with the zero
    case of the [FromSI] functions. *)
Lemma scale_round_trip (x : num) (c : R) :
  0 < c ->
  (if strictEq (x * Fin c) #0 then #0 else (x * Fin c) / Fin c)%num = x
  /\ ((if strictEq x #0 then #0 else (x / Fin c))%num * Fin c)%num = x.
Proof.
  intros Hc. destruct x as [v| | |].
  - split.
    + rewrite mul_Fin. cbn [strictEq].
      destruct (Req_dec_T (v * c) 0) as [E|E].
      * rewrite (Reqb_true E). f_equal. nra.
      * rewrite (Reqb_false E). rewrite div_Fin by lra. f_equal. field. lra.
    + cbn [strictEq]. destruct (Req_dec_T v 0) as [E|E].
      * rewrite (Reqb_true E). rewrite mul_Fin. f_equal. nra.
      * rewrite (Reqb_false E). rewrite div_Fin by lra. rewrite mul_Fin.
        f_equal. field. lra.
  - cbn [mul strictEq div]. unfold scaleInf.
    rewrite Reqb_false, Rltb_true, Rleb_true by lra.
    cbn [strictEq mul div]. unfold scaleInf.
    rewrite Reqb_false, Rltb_true, Rleb_true by lra. split; reflexivity.
  - cbn [mul strictEq div]. unfold scaleInf.
    rewrite Reqb_false, Rltb_true, Rleb_true by lra.
    cbn [strictEq mul div neg]. unfold scaleInf.
    rewrite Reqb_false, Rltb_true, Rleb_true by lra. split; reflexivity.
  - split; reflexivity.
Qed.

End UnitsFacts.

(** X1.  Length conversion is a round trip in both directions, for every
    number (finite, infinite or [NaN]) and every length unit:
    [lengthFromSI(lengthToSI(v, u), u) = v] and
    [lengthToSI(lengthFromSI(v, u), u) = v]. *)
Theorem length_round_trip (v : num) (u : Units.LengthUnit) :
  Units.lengthFromSI (Units.lengthToSI v u) u = v
  /\ Units.lengthToSI (Units.lengthFromSI v u) u = v.
Proof.
  destruct (LENGTH_TO_M_pos u) as (c & Ec & Hc).
  unfold Units.lengthFromSI, Units.lengthToSI. rewrite Ec.
  destruct (@scale_round_trip v c Hc) as [H1 H2]. split; assumption.
Qed.

(** X2.  In exact arithmetic (no rounding, no overflow), frequency
    conversion is a round trip in both directions, for every number and
    every frequency unit. *)
Theorem frequency_round_trip (v : num) (u : Units.FrequencyUnit) :
  Units.frequencyFromSI (Units.frequencyToSI v u) u = v
  /\ Units.frequencyToSI (Units.frequencyFromSI v u) u = v.
Proof.
  destruct (FREQ_TO_HZ_pos u) as (c & Ec & Hc).
  unfold Units.frequencyFromSI, Units.frequencyToSI. rewrite Ec.
  destruct (@scale_round_trip v c Hc) as [H1 H2]. split; assumption.
Qed.

(** X3.  In exact arithmetic (no rounding, overflow or underflow) the
    wavenumber is [2 PI / lambda0]: at every finite non-zero frequency
    [k0(f) * wavelength(f) = 2 PI] and [wavelength(f) * f = C]. *)
Theorem wavenumber_wavelength (f : R) :
  (f <> 0)%R ->
  (Constants.k0 (Fin f) * Constants.wavelength (Fin f))%num = Fin (2 * PI)
  /\ (Constants.wavelength (Fin f) * Fin f)%num = Constants.C.
Proof.
  intros Hf. unfold Constants.k0, Constants.wavelength, Constants.C, Math_PI.
  split.
  - autorewrite with numfin. rewrite !div_Fin by lra. autorewrite with numfin.
    f_equal. field. lra.
  - rewrite div_Fin by lra. autorewrite with numfin. f_equal. field. lra.
Qed.

Lemma wavenumber_wavelength_witness :
  (Constants.k0 (Fin 2.4e9) * Constants.wavelength (Fin 2.4e9))%num = Fin (2 * PI)
  /\ (Constants.wavelength (Fin 2.4e9) * Fin 2.4e9)%num = Constants.C.
Proof. apply wavenumber_wavelength. lra. Defined.


(** ** The Bessel evaluator *)

Section BesselExtra.
Local Open Scope R_scope.
Import Bessel.



(** With every term 0 the guard [0 < 1e-16 * 0] never fires: the loop
    runs to its end on the sum 0. *)
Lemma seriesTerm_at_0 (n k : nat) :
  (0 < n + 2 * k)%nat -> seriesTerm n k 0 = 0.
Proof.
  intros H. unfold seriesTerm.
  replace (0 / 2) with 0 by field. rewrite pow_i by exact H. ring.
Qed.

Lemma seriesLoop_at_0 (n : nat) (iters : nat) :
  (0 < n)%nat -> forall k, seriesLoop iters k n 0 0 = 0.
Proof.
  intros Hn. induction iters as [|iters IH]; intros k; [reflexivity|].
  rewrite seriesLoop_S. rewrite !seriesTerm_at_0 by lia.
  replace (0 + 0) with 0 by ring. rewrite Rabs_R0.
  rewrite Rltb_false by lra. apply IH.
Qed.

Lemma seriesJ_at_0 (n : nat) :
  seriesJ n 0 = if Nat.eqb n 0 then 1 else 0.
Proof.
  unfold seriesJ. destruct n as [|n].
  - rewrite (seriesLoop_S 119). rewrite (@seriesTerm_at_0 0 1) by lia.
    assert (E : seriesTerm 0 0 0 = 1).
    { unfold seriesTerm. cbn [fact Nat.add Nat.mul INR pow]. field. }
    rewrite E, Rabs_R0. rewrite Rltb_true.
    + cbn [Nat.eqb]. ring.
    + replace (0 + 1) with 1 by ring. rewrite Rabs_R1. lra.
  - cbn [Nat.eqb]. apply seriesLoop_at_0. lia.
Qed.

(** The series changes sign with [x] as [(-1)^n]. *)
Lemma seriesTerm_neg (n k : nat) (x : R) :
  seriesTerm n k (- x) = (-1) ^ n * seriesTerm n k x.
Proof.
  unfold seriesTerm.
  replace (- x / 2) with (-1 * (x / 2)) by field.
  rewrite Rpow_mult_distr, pow_add, pow_1_even. ring.
Qed.

Lemma Rabs_pow_m1 (n : nat) (t : R) : Rabs ((-1) ^ n * t) = Rabs t.
Proof.
  assert (E : Rabs (-1) = 1) by (rewrite Rabs_left by lra; lra).
  rewrite Rabs_mult, <- RPow_abs, E, pow1. ring.
Qed.

Lemma seriesLoop_neg (n : nat) (x : R) (iters : nat) :
  forall (k : nat) (S : R),
    seriesLoop iters k n (- x) ((-1) ^ n * S)
    = (-1) ^ n * seriesLoop iters k n x S.
Proof.
  induction iters as [|iters IH]; intros k S; [reflexivity|].
  rewrite !seriesLoop_S, !seriesTerm_neg.
  rewrite <- Rmult_plus_distr_l, !Rabs_pow_m1.
  destruct (Rltb _ _); [reflexivity | apply IH].
Qed.

Lemma seriesJ_neg (n : nat) (x : R) :
  seriesJ n (- x) = (-1) ^ n * seriesJ n x.
Proof.
  unfold seriesJ. rewrite <- seriesLoop_neg. f_equal. ring.
Qed.

End BesselExtra.


(** X5.  At the origin [besselJ(0, 0) = 1] and [besselJ(n, 0) = 0] for
    every order [n >= 1]. *)
Theorem besselJ_at_zero (n : nat) :
  Bessel.besselJ (Z.of_nat n) (Fin 0) = if Nat.eqb n 0 then Fin 1 else Fin 0.
Proof.
  rewrite besselJ_series, seriesJ_at_0.
  pose proof (INR_fact_lt_0 n) as Hf.
  destruct n as [|n]; cbn [Nat.eqb]; f_equal.
  - cbn [fact INR]. field.
  - field. lra.
Qed.

(** X6.  Parity: [besselJ(n, -x) = (-1)^n * besselJ(n, x)] at every order
    [n >= 0] and finite [x]; in particular [besselJ0] is even and so is
    [besselJ2]. *)
Theorem besselJ_parity (n : nat) (x : R) :
  Bessel.besselJ (Z.of_nat n) (Fin (- x))
  = (Fin ((-1) ^ n) * Bessel.besselJ (Z.of_nat n) (Fin x))%num
  /\ Bessel.besselJ0 (Fin (- x)) = Bessel.besselJ0 (Fin x)
  /\ Bessel.besselJ2 (Fin (- x)) = Bessel.besselJ2 (Fin x).
Proof.
  pose proof (INR_fact_lt_0 n) as Hf.
  split; [|split].
  - rewrite !besselJ_series, seriesJ_neg, mul_Fin. f_equal. field. lra.
  - unfold Bessel.besselJ0. change 0%Z with (Z.of_nat 0).
    rewrite !besselJ_series, seriesJ_neg. f_equal. cbn [pow]. field.
    apply INR_fact_neq_0.
  - unfold Bessel.besselJ2. change 2%Z with (Z.of_nat 2).
    rewrite !besselJ_series, seriesJ_neg. f_equal. cbn [pow]. field.
    apply INR_fact_neq_0.
Qed.

(** X7.  For [|x| <= 4] the truncated order-0 series is enclosed by its
    first two partial sums, wherever the loop stops:
    [1 - (x/2)^2 <= besselJ0(x) <= 1]; and for [(x/2)^2 < 1e-16] the loop
    stops after its first turn and [besselJ0(x)] is exactly 1. *)
Theorem besselJ0_enclosure (x : R) :
  (x * x <= 16)%R ->
  (exists v : R,
     Bessel.besselJ0 (Fin x) = Fin v
     /\ (1 - x / 2 * (x / 2) <= v <= 1)%R)
  /\ ((x / 2 * (x / 2) < 1e-16)%R -> Bessel.besselJ0 (Fin x) = Fin 1).
Proof.
  intros Hx. split.
  - apply besselJ0_bounds. lra.
  - intros Hsmall. unfold Bessel.besselJ0, Bessel.besselJ.
    cbn [Number_isFinite negb]. change (0 <? 0)%Z with false.
    change (0 =? 0)%Z with true. cbv iota. cbn [Number_isFinite negb].
    rewrite div_Fin by lra.
    rewrite (besselLoop_S 119). unfold ofNat, ofZ. change (INR 0) with 0%R.
    autorewrite with numfin. rewrite div_Fin by lra. autorewrite with numfin.
    unfold Math_abs. autorewrite with numfin.
    assert (Hq0 : (0 <= x / 2 * (x / 2))%R) by nra.
    rewrite (@Rabs_right (0 + 1)%R) by lra.
    rewrite Rltb_true.
    + f_equal. ring.
    + apply Rabs_def1.
      * replace ((0 + 1) * (0 + 0 + 1))%R with 1%R by ring. lra.
      * replace ((0 + 1) * (0 + 0 + 1))%R with 1%R by ring. lra.
Qed.

Lemma besselJ0_enclosure_witness :
  (exists v : R,
     Bessel.besselJ0 (Fin 1) = Fin v
     /\ (1 - 1 / 2 * (1 / 2) <= v <= 1)%R)
  /\ ((1 / 2 * (1 / 2) < 1e-16)%R -> Bessel.besselJ0 (Fin 1) = Fin 1).
Proof. apply besselJ0_enclosure. lra. Defined.

(** X8.  In exact arithmetic (no rounding, no overflow) the product
    loop of [factorial] computes the factorial: [factorial(k) = k!] at
    every integer [k >= 0]; at every negative one the result is [NaN]. *)
Theorem factorial_correct (k : Z) :
  Bessel.factorial k
  = if (k <? 0)%Z then NaN else Fin (INR (fact (Z.to_nat k))).
Proof.
  destruct (k <? 0)%Z eqn:Hk.
  - unfold Bessel.factorial. rewrite Hk. reflexivity.
  - apply Z.ltb_ge in Hk. rewrite <- (Z2Nat.id k) at 1 by exact Hk.
    apply factorial_INR.
Qed.


(** ** Quadrature *)

Section SimpsonExtra.
Local Open Scope R_scope.
Import Integrate.

Lemma simpson_fold_shift (f : R -> R) (a h : R) (l : list nat) (s t : R) :
  fold_left (simpsonStepR f a h) l (s + t)
  = fold_left (simpsonStepR f a h) l s + t.
Proof.
  revert s. induction l as [|i l IH]; intros s; [reflexivity|].
  cbn [fold_left]. rewrite <- IH. f_equal. unfold simpsonStepR. ring.
Qed.

Variables c0 c1 c2 c3 : R.

Let P (x : R) : R := c0 + c1 * x + c2 * (x * x) + c3 * (x * x * x).
Let Q (x : R) : R :=
  c0 * x + c1 * (x * x) / 2 + c2 * (x * x * x) / 3 + c3 * (x * x * x * x) / 4.

(** Simpson's three-point rule integrates a cubic exactly. *)
Lemma simpson_pair_cubic (y h : R) :
  h / 3 * (P y + 4 * P (y + h) + P (y + 2 * h)) = Q (y + 2 * h) - Q y.
Proof. unfold P, Q. field. Qed.

Lemma simpson_fold_cubic (a h : R) (m : nat) :
  h / 3 * (fold_left (simpsonStepR P a h) (seq 1 (2 * m + 1)) (P a)
           + P (a + INR (2 * m + 2) * h))
  = Q (a + INR (2 * m + 2) * h) - Q a.
Proof.
  induction m as [|m IH].
  - cbn [seq fold_left Nat.mul Nat.add]. unfold simpsonStepR.
    change (1 mod 2)%nat with 1%nat. cbn [Nat.eqb INR].
    unfold P, Q. field.
  - replace (2 * S m + 1)%nat with ((2 * m + 1) + 2)%nat by lia.
    rewrite seq_app, fold_left_app.
    replace (1 + (2 * m + 1))%nat with (2 * (m + 1))%nat by lia.
    cbn [seq fold_left]. unfold simpsonStepR at 1 2.
    replace (S (2 * (m + 1))) with (2 * (m + 1) + 1)%nat by lia.
    rewrite even_mod2, odd_mod2. cbn [Nat.eqb].
    set (G := fold_left (simpsonStepR P a h) (seq 1 (2 * m + 1)) (P a)) in *.
    replace (2 * m + 2)%nat with (2 * (m + 1))%nat in IH by lia.
    replace (2 * S m + 2)%nat with (S (S (2 * (m + 1)))) by lia.
    replace (2 * (m + 1) + 1)%nat with (S (2 * (m + 1))) by lia.
    rewrite !S_INR.
    set (y := a + INR (2 * (m + 1)) * h) in *.
    replace (a + (INR (2 * (m + 1)) + 1) * h) with (y + h) by (unfold y; ring).
    replace (a + (INR (2 * (m + 1)) + 1 + 1) * h) with (y + 2 * h)
      by (unfold y; ring).
    pose proof (simpson_pair_cubic y h) as Hpair.
    replace (h / 3 * (G + 2 * P y + 4 * P (y + h) + P (y + 2 * h)))
      with (h / 3 * (G + P y) + h / 3 * (P y + 4 * P (y + h) + P (y + 2 * h)))
      by ring.
    rewrite IH, Hpair. ring.
Qed.

Lemma simpsonR_cubic (a b : R) (n : nat) :
  Nat.even n = true -> (2 <= n)%nat -> simpsonR P a b n = Q b - Q a.
Proof.
  intros Hev Hn. apply Nat.even_spec in Hev. destruct Hev as [k ->].
  destruct k as [|m]; [lia|]. unfold simpsonR.
  rewrite even_mod2. cbn [Nat.eqb negb].
  replace (2 * S m - 1)%nat with (2 * m + 1)%nat by lia.
  assert (Hn0 : INR (2 * S m) <> 0) by (apply not_0_INR; lia).
  set (h := (b - a) / INR (2 * S m)).
  assert (Hb : a + INR (2 * m + 2) * h = b).
  { replace (2 * m + 2)%nat with (2 * S m)%nat by lia. unfold h. field.
    exact Hn0. }
  rewrite simpson_fold_shift. rewrite <- Hb at 1 2.
  rewrite simpson_fold_cubic. rewrite Hb. reflexivity.
Qed.

End SimpsonExtra.

(** X9.  An odd subdivision count is rounded up: for odd [n],
    [simpson(f, a, b, n) = simpson(f, a, b, n + 1)], whatever the
    integrand and the bounds. *)
Theorem simpson_odd_rounds_up (f : num -> num) (a b : num) (n : nat) :
  Nat.odd n = true ->
  Integrate.simpson f a b n = Integrate.simpson f a b (n + 1).
Proof.
  intros Hodd. apply Nat.odd_spec in Hodd. destruct Hodd as [k ->].
  unfold Integrate.simpson.
  replace (2 * k + 1 + 1)%nat with (2 * (k + 1))%nat by lia.
  rewrite odd_mod2, even_mod2. cbn [Nat.eqb negb].
  replace (2 * k + 1 + 1)%nat with (2 * (k + 1))%nat by lia. reflexivity.
Qed.

Lemma simpson_odd_rounds_up_witness :
  Integrate.simpson (fun x => (x * x)%num) (Fin 0) (Fin 1) 3
  = Integrate.simpson (fun x => (x * x)%num) (Fin 0) (Fin 1) (3 + 1).
Proof. apply simpson_odd_rounds_up. reflexivity. Defined.

(** X10.  Simpson's rule is exact on cubics: if the integrand is the
    polynomial [c0 + c1 x + c2 x^2 + c3 x^3] at every finite [x], then for
    every even [n >= 2] and all finite bounds [a], [b] (in any order),
    [simpson(f, a, b, n)] is the exact integral
    [Q(b) - Q(a)], [Q(x) = c0 x + c1 x^2/2 + c2 x^3/3 + c3 x^4/4]. *)
Theorem simpson_exact_cubic (f : num -> num) (c0 c1 c2 c3 a b : R) (n : nat) :
  (forall x : R,
     f (Fin x) = Fin (c0 + c1 * x + c2 * (x * x) + c3 * (x * x * x))) ->
  Nat.even n = true -> (2 <= n)%nat ->
  Integrate.simpson f (Fin a) (Fin b) n
  = Fin ((c0 * b + c1 * (b * b) / 2 + c2 * (b * b * b) / 3
          + c3 * (b * b * b * b) / 4)
         - (c0 * a + c1 * (a * a) / 2 + c2 * (a * a * a) / 3
            + c3 * (a * a * a * a) / 4)).
Proof.
  intros Hf Hev Hn.
  rewrite (@simpson_Fin f _ Hf) by lia.
  rewrite (simpsonR_cubic c0 c1 c2 c3 a b Hev Hn). reflexivity.
Qed.

Lemma simpson_exact_cubic_witness :
  Integrate.simpson (fun x => (x * x * x)%num) (Fin 0) (Fin 2) 4
  = Fin ((0 * 2 + 0 * (2 * 2) / 2 + 0 * (2 * 2 * 2) / 3
          + 1 * (2 * 2 * 2 * 2) / 4)
         - (0 * 0 + 0 * (0 * 0) / 2 + 0 * (0 * 0 * 0) / 3
            + 1 * (0 * 0 * 0 * 0) / 4)).
Proof.
  apply simpson_exact_cubic; [|reflexivity | lia].
  intros x. rewrite !mul_Fin. f_equal. ring.
Defined.

(** X11.  With no subdivision at all the step [(b - a) / 0] is infinite
    or [NaN], and there is no guard: [simpson(f, a, b, 0)] is never a
    finite number, for any integrand and finite bounds. *)
Theorem simpson_zero_count (f : num -> num) (a b : R) :
  Number_isFinite (Integrate.simpson f (Fin a) (Fin b) 0) = false.
Proof.
  change (Integrate.simpson f (Fin a) (Fin b) 0)
    with ((Fin b - Fin a) / Fin 0 / #3 * (f (Fin a) + f (Fin b)))%num.
  rewrite sub_Fin. unfold div at 2. rewrite Reqb_true by reflexivity.
  assert (Hinf : forall y : num,
            Number_isFinite (PInf / #3 * y)%num = false
            /\ Number_isFinite (NInf / #3 * y)%num = false).
  { intros y. cbn [div]. rewrite Rleb_true by lra.
    destruct y as [s| | |]; cbn [mul]; unfold scaleInf;
      try (split; reflexivity);
      destruct (Reqb s 0); try (split; reflexivity);
      destruct (Rltb 0 s); split; reflexivity. }
  destruct (Reqb (b - a) 0); [rewrite div_NaN_l, mul_NaN_l; reflexivity|].
  destruct (Rltb 0 (b - a)); apply Hinf.
Qed.


Section Simpson2DExtra.
Local Open Scope R_scope.
Import Integrate.

Variable f : num -> num -> num.
Variable fR : R -> R -> R.
Hypothesis f_Fin : forall x y : R, f (Fin x) (Fin y) = Fin (fR x y).

Variables a h c d : R.
Variables nOuter nInner : nat.
Hypothesis HnInner : (0 < nInner)%nat.

(** The inner integral at the outer abscissa [x]. *)
Let g (x : R) : R := simpsonR (fR x) c d nInner.

Lemma inner_Fin (x : R) :
  simpson (fun y => f (Fin x) y) (Fin c) (Fin d) nInner = Fin (g x).
Proof. apply simpson_Fin; [intros y; apply f_Fin | exact HnInner]. Qed.

(** Away from the two end indices the outer weights are those of
    [simpson]. *)
Lemma simpson2D_fold_interior (l : list nat) (s : R) :
  (forall i, In i l -> i <> 0%nat /\ i <> nOuter) ->
  fold_left (simpson2DStep f (Fin a) (Fin h) (Fin c) (Fin d) nOuter nInner)
    l (Fin s)
  = Fin (fold_left (simpsonStepR g a h) l s).
Proof.
  revert s. induction l as [|i l IH]; intros s Hl; [reflexivity|].
  cbn [fold_left]. rewrite <- IH by (intros j Hj; apply Hl; right; exact Hj).
  f_equal. destruct (Hl i) as [H0 Hn]; [left; reflexivity|].
  unfold simpson2DStep, simpsonStepR, ofNat. cbv zeta.
  autorewrite with numfin. rewrite (inner_Fin (a + INR i * h)).
  replace (Nat.eqb i 0) with false by (symmetry; apply Nat.eqb_neq; exact H0).
  replace (Nat.eqb i nOuter) with false
    by (symmetry; apply Nat.eqb_neq; exact Hn).
  cbn [orb]. destruct (Nat.eqb (i mod 2) 0); reflexivity.
Qed.

(** At the two end indices the weight is 1. *)
Lemma simpson2DStep_end (i : nat) (s : R) :
  i = 0%nat \/ i = nOuter ->
  simpson2DStep f (Fin a) (Fin h) (Fin c) (Fin d) nOuter nInner (Fin s) i
  = Fin (s + 1 * g (a + INR i * h)).
Proof.
  intros Hi. unfold simpson2DStep, ofNat. cbv zeta.
  autorewrite with numfin. rewrite (inner_Fin (a + INR i * h)).
  replace (Nat.eqb i 0 || Nat.eqb i nOuter) with true.
  - autorewrite with numfin. reflexivity.
  - symmetry. apply orb_true_iff.
    destruct Hi as [Hi|Hi]; [left|right]; apply Nat.eqb_eq; exact Hi.
Qed.

(** The whole outer sum: the two end points with weight 1 around the
    interior. *)
Lemma simpson2D_fold (Hn : (1 <= nOuter)%nat) :
  fold_left (simpson2DStep f (Fin a) (Fin h) (Fin c) (Fin d) nOuter nInner)
    (seq 0 (nOuter + 1)) (Fin 0)
  = Fin (fold_left (simpsonStepR g a h) (seq 1 (nOuter - 1))
           (0 + 1 * g (a + INR 0 * h))
         + 1 * g (a + INR nOuter * h)).
Proof.
  replace (nOuter + 1)%nat with (1 + (nOuter - 1) + 1)%nat by lia.
  rewrite !seq_app, !fold_left_app.
  replace (0 + (1 + (nOuter - 1)))%nat with nOuter by lia.
  cbn [seq fold_left Nat.add].
  rewrite (simpson2DStep_end 0) by (left; reflexivity).
  rewrite simpson2D_fold_interior by (intros i Hi; apply in_seq in Hi; lia).
  rewrite simpson2DStep_end by (right; reflexivity).
  reflexivity.
Qed.

End Simpson2DExtra.

(** X12.  In exact arithmetic (no rounding), [simpson2D] is the tensor
    product of two Simpson rules: on an integrand finite at all finite
    points, with finite bounds, an even [nOuter >= 2] and [nInner >= 1],
    [simpson2D(f, a, b, c, d, nOuter, nInner)] equals
    [simpson(x => simpson(y => f(x, y), c, d, nInner), a, b, nOuter)]. *)
Theorem simpson2D_is_nested (f : num -> num -> num) (fR : R -> R -> R)
    (a b c d : R) (nOuter nInner : nat) :
  (forall x y : R, f (Fin x) (Fin y) = Fin (fR x y)) ->
  Nat.even nOuter = true -> (2 <= nOuter)%nat -> (1 <= nInner)%nat ->
  Integrate.simpson2D f (Fin a) (Fin b) (Fin c) (Fin d) nOuter nInner
  = Integrate.simpson
      (fun x => Integrate.simpson (fun y => f x y) (Fin c) (Fin d) nInner)
      (Fin a) (Fin b) nOuter.
Proof.
  intros Hf Hev HnO HnI.
  rewrite (@simpson_Fin
             (fun x => Integrate.simpson (fun y => f x y) (Fin c) (Fin d) nInner)
             (fun x => simpsonR (fR x) c d nInner))
    by (lia || (intros x; apply inner_Fin; [exact Hf | lia])).
  unfold Integrate.simpson2D, ofNat.
  assert (Hn0 : INR nOuter <> 0%R) by (apply not_0_INR; lia).
  rewrite sub_Fin, div_Fin by exact Hn0.
  rewrite (@simpson2D_fold f fR Hf a ((b - a) / INR nOuter) c d nOuter nInner)
    by lia.
  rewrite div_Fin by lra. rewrite mul_Fin. f_equal.
  unfold simpsonR. apply Nat.even_spec in Hev. destruct Hev as [k Hk].
  replace (negb (Nat.eqb (nOuter mod 2) 0)) with false
    by (rewrite Hk, even_mod2; reflexivity).
  cbv zeta. f_equal.
  change (INR 0) with 0%R.
  replace (a + 0 * ((b - a) / INR nOuter))%R with a by ring.
  replace (a + INR nOuter * ((b - a) / INR nOuter))%R with b by (field; exact Hn0).
  rewrite <- simpson_fold_shift. f_equal. ring.
Qed.

Lemma simpson2D_is_nested_witness :
  Integrate.simpson2D (fun x y => (x * y)%num) (Fin 0) (Fin 1) (Fin 0) (Fin 1) 2 2
  = Integrate.simpson
      (fun x => Integrate.simpson (fun y => (x * y)%num) (Fin 0) (Fin 1) 2)
      (Fin 0) (Fin 1) 2.
Proof.
  apply simpson2D_is_nested with (fR := fun x y => (x * y)%R);
    [intros x y; reflexivity | reflexivity | lia | lia].
Defined.

Section Simpson2DOdd.
Local Open Scope R_scope.

Lemma simpson_sum_one_even (a h s : R) (k : nat) :
  fold_left (simpsonStepR (fun _ => 1) a h) (seq 1 (2 * k)) s = s + 6 * INR k.
Proof.
  destruct k as [|m]; [cbn; ring|].
  replace (2 * S m)%nat with ((2 * m + 1) + 1)%nat by lia.
  rewrite seq_app, fold_left_app, simpson_sum_one.
  replace (1 + (2 * m + 1))%nat with (2 * (m + 1))%nat by lia.
  cbn [seq fold_left]. unfold simpsonStepR. rewrite even_mod2.
  cbn [Nat.eqb]. rewrite S_INR. ring.
Qed.

End Simpson2DOdd.

(** X13.  Unlike [simpson], [simpson2D] does not round an odd outer
    count up, and with an odd [nOuter] its weights no longer sum to the
    length of the interval: on the constant 1 over the unit square, with
    an even [nInner >= 2], it returns [1 - 1 / (3 nOuter)] instead of the
    area 1. *)
Theorem simpson2D_odd_outer (nOuter nInner : nat) :
  Nat.odd nOuter = true -> Nat.even nInner = true -> (2 <= nInner)%nat ->
  Integrate.simpson2D (fun _ _ => Fin 1) (Fin 0) (Fin 1) (Fin 0) (Fin 1)
    nOuter nInner
  = Fin (1 - 1 / (3 * INR nOuter)).
Proof.
  intros Hodd Hev HnI. apply Nat.odd_spec in Hodd. destruct Hodd as [k Hk].
  assert (Hn0 : (0 < INR nOuter)%R) by (apply lt_0_INR; lia).
  unfold Integrate.simpson2D, ofNat.
  rewrite sub_Fin, div_Fin by lra.
  rewrite (@simpson2D_fold (fun _ _ => Fin 1) (fun _ _ => 1%R)
             (fun _ _ => eq_refl) 0 ((1 - 0) / INR nOuter) 0 1 nOuter nInner)
    by lia.
  rewrite div_Fin by lra. rewrite mul_Fin. f_equal.
  rewrite (simpsonR_one Hev HnI).
  replace (nOuter - 1)%nat with (2 * k)%nat by lia.
  rewrite simpson_sum_one_even.
  replace (INR nOuter) with (2 * INR k + 1)%R in *
    by (rewrite Hk, plus_INR, mult_INR; cbn [INR]; ring).
  assert (0 <= INR k)%R by apply pos_INR.
  field. lra.
Qed.

Lemma simpson2D_odd_outer_witness :
  Integrate.simpson2D (fun _ _ => Fin 1) (Fin 0) (Fin 1) (Fin 0) (Fin 1) 3 2
  = Fin (1 - 1 / (3 * INR 3)).
Proof. apply simpson2D_odd_outer; [reflexivity | reflexivity | lia]. Defined.


(** ** The rectangular patch: records, scaling, reverse *)

Section RectangularExtra.
Local Open Scope R_scope.
Import Constants Rectangular Integrate.

(** [simpson] and [simpson2D] see their integrand through its values
    only. *)
Lemma simpson_fold_ext (f g : num -> num) (a h : num) (l : list nat) (s : num) :
  (forall x, f x = g x) ->
  fold_left (simpsonStep f a h) l s = fold_left (simpsonStep g a h) l s.
Proof.
  intros E. revert s. induction l as [|i l IH]; intros s; [reflexivity|].
  cbn [fold_left]. rewrite IH. unfold simpsonStep. rewrite E. reflexivity.
Qed.

Lemma simpson_ext (f g : num -> num) (a b : num) (n : nat) :
  (forall x, f x = g x) -> simpson f a b n = simpson g a b n.
Proof.
  intros E. unfold simpson. cbv zeta.
  rewrite (@simpson_fold_ext f g _ _ _ _ E), !E. reflexivity.
Qed.

Lemma simpson2D_fold_ext (f g : num -> num -> num) (a h c d : num)
    (nOuter nInner : nat) (l : list nat) (s : num) :
  (forall x y, f x y = g x y) ->
  fold_left (simpson2DStep f a h c d nOuter nInner) l s
  = fold_left (simpson2DStep g a h c d nOuter nInner) l s.
Proof.
  intros E. revert s. induction l as [|i l IH]; intros s; [reflexivity|].
  cbn [fold_left]. rewrite IH. unfold simpson2DStep. cbv zeta.
  rewrite (@simpson_ext (fun y => f (a + ofNat i * h)%num y)
             (fun y => g (a + ofNat i * h)%num y)) by (intros y; apply E).
  reflexivity.
Qed.

Lemma simpson2D_ext (f g : num -> num -> num) (a b c d : num)
    (nOuter nInner : nat) :
  (forall x y, f x y = g x y) ->
  simpson2D f a b c d nOuter nInner = simpson2D g a b c d nOuter nInner.
Proof.
  intros E. unfold simpson2D. cbv zeta.
  rewrite (@simpson2D_fold_ext f g _ _ _ _ _ _ _ _ E). reflexivity.
Qed.

(** The three integrands see the wavenumber only through its products
    with the lengths. *)
Lemma integrandG1_product (k w k' w' : R) (theta : num) :
  k * w = k' * w' ->
  integrandG1 (Fin k) (Fin w) theta = integrandG1 (Fin k') (Fin w') theta.
Proof.
  intros E. unfold integrandG1. cbv zeta. rewrite !mul_Fin, E. reflexivity.
Qed.

Lemma integrandG12_product (k w l k' w' l' : R) (theta : num) :
  k * w = k' * w' -> k * l = k' * l' ->
  integrandG12 (Fin k) (Fin w) (Fin l) theta
  = integrandG12 (Fin k') (Fin w') (Fin l') theta.
Proof.
  intros E1 E2. unfold integrandG12. cbv zeta.
  rewrite !mul_Fin, E1, E2. reflexivity.
Qed.

Lemma integrandI1_product (k w l k' w' l' : R) (theta phi : num) :
  k * w = k' * w' -> k * l = k' * l' ->
  integrandI1 (Fin k) (Fin w) (Fin l) theta phi
  = integrandI1 (Fin k') (Fin w') (Fin l') theta phi.
Proof.
  intros E1 E2. unfold integrandI1. cbv zeta.
  rewrite !mul_Fin, E1, E2. reflexivity.
Qed.

(** A returned record has passed the conductance gate. *)
Lemma record_conductances (input : RectangularPatchInput)
    (res : RectangularPatchResult) :
  computeRectangularPatch input = Some res ->
  exists g1 g12 : R,
    G1 res = Fin g1 /\ G12 res = Fin g12 /\ 0 < g1 + g12
    /\ RinAtEdge res = Fin (1 / (2 * (g1 + g12))).
Proof.
  rewrite computeRectangularPatch_flow.
  destruct (invalidInput input); [discriminate|].
  unfold partialResult, fullResult, RinAtEdgeOf.
  destruct (G1Of input) as [g1| | |]; cbn [Number_isFinite negb orb];
    try discriminate.
  destruct (G12Of input) as [g12| | |]; cbn [Number_isFinite negb orb];
    try discriminate.
  rewrite add_Fin, le_Fin. destruct (Rleb (g1 + g12) 0) eqn:Hs; [discriminate|].
  apply Rleb_false_iff in Hs.
  destruct (_ || _); intros E; injection E as <-; exists g1, g12;
    cbn [G1 G12 RinAtEdge]; rewrite Reqb_false by lra;
    repeat split; exact Hs.
Qed.

End RectangularExtra.

(** X14.  Every record [computeRectangularPatch] returns, on any input
    whatever, carries finite [G1] and [G12] with [G1 + G12 > 0], and its
    [RinAtEdge] is [1 / (2 (G1 + G12))], a number that is neither [NaN]
    nor negative. *)
Theorem rectangular_record_conductances
    (input : Rectangular.RectangularPatchInput)
    (res : Rectangular.RectangularPatchResult) :
  Rectangular.computeRectangularPatch input = Some res ->
  Number_isFinite (Rectangular.G1 res) = true
  /\ Number_isFinite (Rectangular.G12 res) = true
  /\ (Rectangular.G1 res + Rectangular.G12 res >? #0)%num = true
  /\ Rectangular.RinAtEdge res
     = (#1 / (#2 * (Rectangular.G1 res + Rectangular.G12 res)))%num
  /\ (Rectangular.RinAtEdge res >=? #0)%num = true.
Proof.
  intros H. destruct (@record_conductances _ _ H) as (g1 & g12 & E1 & E2 & Hs & E3).
  rewrite E3, E1, E2. rewrite add_Fin, mul_Fin, gt_Fin, ge_Fin.
  rewrite div_Fin by lra.
  assert (0 < 1 / (2 * (g1 + g12)))%R by (apply Rdiv_lt_0_compat; lra).
  repeat split; try reflexivity; [apply Rltb_true; exact Hs | apply Rleb_true; lra].
Qed.

Lemma rectangular_record_conductances_witness :
  exists res,
    Rectangular.computeRectangularPatch
      {| Rectangular.frHz := Fin 2.4e9; Rectangular.epsilonR := Fin 4.4;
         Rectangular.hM := Fin 1.6e-3 |} = Some res
    /\ Number_isFinite (Rectangular.G1 res) = true
    /\ Number_isFinite (Rectangular.G12 res) = true
    /\ (Rectangular.G1 res + Rectangular.G12 res >? #0)%num = true
    /\ Rectangular.RinAtEdge res
       = (#1 / (#2 * (Rectangular.G1 res + Rectangular.G12 res)))%num
    /\ (Rectangular.RinAtEdge res >=? #0)%num = true.
Proof.
  destruct (@computeRectangularPatch_range 2.4e9 4.4 1.6e-3) as (res & H & _);
    [lra | lra | lra |].
  exists res. split; [exact H|].
  exact (@rectangular_record_conductances _ _ H).
Defined.


Section RectangularGeometry.
Local Open Scope R_scope.
Import Constants Rectangular Integrate.

(** A returned record is one of the two the flow builds. *)
Lemma computeRectangularPatch_record (input : RectangularPatchInput)
    (res : RectangularPatchResult) :
  computeRectangularPatch input = Some res ->
  res = partialResult input \/ res = fullResult input.
Proof.
  rewrite computeRectangularPatch_flow.
  destruct (invalidInput input); [discriminate|].
  destruct (_ || _ || _); [discriminate|].
  destruct (_ || _); intros E; injection E as <-; [left | right]; reflexivity.
Qed.

Lemma wavelength_Fin (fr : R) :
  0 < fr -> wavelength (Fin fr) = Fin (cR / fr).
Proof. intros H. unfold wavelength, C, cR. rewrite div_Fin by lra. reflexivity. Qed.

Lemma sqrt_le_one (x : R) : 0 < x <= 1 -> sqrt x <= 1.
Proof. intros H. rewrite <- sqrt_1. apply sqrt_le_1; lra. Qed.

Lemma deltaLR_pos (ee w h : R) :
  1 <= ee -> 0 < w -> 0 < h -> 0 < deltaLR ee w h.
Proof.
  intros He Hw Hh. unfold deltaLR.
  assert (Hu : 0 < w / h) by (apply Rdiv_lt_0_compat; lra).
  set (u := w / h) in *.
  assert (0 < (ee + 0.3) * (u + 0.264) / ((ee - 0.258) * (u + 0.8))).
  { apply Rdiv_lt_0_compat; apply Rmult_lt_0_compat; lra. }
  apply Rmult_lt_0_compat; [lra | assumption].
Qed.

(** The fringing extension at any finite width and height. *)
Lemma deltaL_Fin_gen (ee w h : R) :
  1 <= ee -> 0 < w -> 0 < h ->
  (#0.824 * Fin h
   * ((Fin ee + #0.3) * (Fin w / Fin h + #0.264)
      / ((Fin ee - #0.258) * (Fin w / Fin h + #0.8))))%num
  = Fin (deltaLR ee w h).
Proof.
  intros He Hw Hh. unfold deltaLR.
  assert (Hu : 0 < w / h) by (apply Rdiv_lt_0_compat; lra).
  assert (Hden : 0 < (ee - 0.258) * (w / h + 0.8))
    by (apply Rmult_lt_0_compat; lra).
  rewrite (@div_Fin w h) by lra.
  autorewrite with numfin. rewrite div_Fin by lra.
  autorewrite with numfin. reflexivity.
Qed.

Variables fr e h : R.
Hypothesis Hfr : 0 < fr.
Hypothesis He : 1 <= e.
Hypothesis Hh : 0 < h.

Let input : RectangularPatchInput :=
  {| frHz := Fin fr; epsilonR := Fin e; hM := Fin h |}.

Lemma widthR_half_wave : widthR fr e <= cR / fr / 2.
Proof.
  unfold widthR.
  assert (Hs : sqrt (2 / (e + 1)) <= 1).
  { apply sqrt_le_one. split; [apply Rdiv_lt_0_compat; lra|].
    apply div_le_bound; lra. }
  assert (Hc : 0 < cR / (2 * fr)) by (unfold cR; apply Rdiv_lt_0_compat; lra).
  replace (cR / fr / 2) with (cR / (2 * fr) * 1) by (field; lra).
  apply Rmult_le_compat_l; lra.
Qed.

Lemma geometry_facts :
  0 < widthR fr e <= cR / fr / 2
  /\ 1 <= effEpsR e (widthR fr e) h <= e
  /\ 2 * LeffR fr (effEpsR e (widthR fr e) h)
       * sqrt (effEpsR e (widthR fr e) h) = cR / fr
  /\ lengthR fr e h < LeffR fr (effEpsR e (widthR fr e) h) <= cR / fr / 2.
Proof.
  pose proof (widthR_pos Hfr He) as Hw.
  pose proof (effEps_ge_1 Hfr He Hh) as Hee.
  pose proof (sqrt_effEps_ge_1 Hfr He Hh) as Hs.
  set (ee := effEpsR e (widthR fr e) h) in *.
  assert (Hc : 0 < cR / fr) by (unfold cR; apply Rdiv_lt_0_compat; lra).
  split; [split; [exact Hw | exact widthR_half_wave]|].
  split; [exact Hee|].
  assert (E : 2 * LeffR fr ee * sqrt ee = cR / fr).
  { unfold LeffR. field. lra. }
  split; [exact E|].
  split.
  - unfold lengthR. fold ee.
    pose proof (@deltaLR_pos ee (widthR fr e) h) as Hd. lra.
  - assert (0 < LeffR fr ee).
    { unfold LeffR, cR. apply Rdiv_lt_0_compat; nra. }
    nra.
Qed.

End RectangularGeometry.

(** X15.  In exact arithmetic (no rounding, overflow or underflow), on
    finite valid input ([frHz > 0], [epsilonR >= 1], [hM > 0]) every
    record [computeRectangularPatch] returns has finite geometry with:
    [lambda0 * frHz = c]; [0 < W <= lambda0 / 2];
    [1 <= epsilonReff <= epsilonR]; [2 * L_eff * sqrt(epsilonReff) =
    lambda0]; and [L < L_eff <= lambda0 / 2]. *)
Theorem rectangular_record_geometry (fr e h : R)
    (res : Rectangular.RectangularPatchResult) :
  (0 < fr)%R -> (1 <= e)%R -> (0 < h)%R ->
  Rectangular.computeRectangularPatch
    {| Rectangular.frHz := Fin fr; Rectangular.epsilonR := Fin e;
       Rectangular.hM := Fin h |} = Some res ->
  exists w l le ee lam : R,
    Rectangular.W res = Fin w /\ Rectangular.L res = Fin l
    /\ Rectangular.L_eff res = Fin le /\ Rectangular.epsilonReff res = Fin ee
    /\ Rectangular.lambda0 res = Fin lam
    /\ (lam * fr = 299792458)%R
    /\ (0 < w <= lam / 2)%R
    /\ (1 <= ee <= e)%R
    /\ (2 * le * sqrt ee = lam)%R
    /\ (l < le <= lam / 2)%R.
Proof.
  intros Hfr He Hh H.
  exists (widthR fr e), (lengthR fr e h),
    (LeffR fr (effEpsR e (widthR fr e) h)), (effEpsR e (widthR fr e) h),
    (cR / fr)%R.
  destruct (@geometry_facts fr e h Hfr He Hh) as (Hw & Hee & Hle & Hl).
  assert (Hlam : (cR / fr * fr = 299792458)%R) by (unfold cR; field; lra).
  destruct (@computeRectangularPatch_record _ _ H) as [-> | ->];
    cbn [Rectangular.W Rectangular.L Rectangular.L_eff Rectangular.epsilonReff
         Rectangular.lambda0 Rectangular.partialResult Rectangular.fullResult
         Rectangular.frHz];
    rewrite (widthOf_Fin h Hfr He), (lengthOf_Fin Hfr He Hh),
      (effectiveLengthOf_Fin Hfr He Hh), (epsilonReffOf_Fin Hfr He Hh),
      (@wavelength_Fin fr Hfr);
    repeat split; try reflexivity; tauto.
Qed.

Lemma rectangular_record_geometry_witness :
  exists res w l le ee lam,
    Rectangular.computeRectangularPatch
      {| Rectangular.frHz := Fin 2.4e9; Rectangular.epsilonR := Fin 4.4;
         Rectangular.hM := Fin 1.6e-3 |} = Some res
    /\ Rectangular.W res = Fin w /\ Rectangular.L res = Fin l
    /\ Rectangular.L_eff res = Fin le /\ Rectangular.epsilonReff res = Fin ee
    /\ Rectangular.lambda0 res = Fin lam
    /\ (lam * 2.4e9 = 299792458)%R
    /\ (0 < w <= lam / 2)%R
    /\ (1 <= ee <= 4.4)%R
    /\ (2 * le * sqrt ee = lam)%R
    /\ (l < le <= lam / 2)%R.
Proof.
  destruct (@computeRectangularPatch_range 2.4e9 4.4 1.6e-3) as (res & H & _);
    [lra | lra | lra |].
  destruct (@rectangular_record_geometry 2.4e9 4.4 1.6e-3 res)
    as (w & l & le & ee & lam & P); [lra | lra | lra | exact H |].
  exists res, w, l, le, ee, lam. split; [exact H | exact P].
Defined.


Section RectangularG1.
Local Open Scope R_scope.
Import Constants Rectangular Integrate.

(** The electrical width [k0 * W] is a function of the permittivity
    alone. *)
Lemma k0R_widthR (fr e : R) :
  0 < fr -> k0R fr * widthR fr e = PI * sqrt (2 / (e + 1)).
Proof. intros Hfr. unfold k0R, widthR, cR. field. lra. Qed.

Lemma G1Of_any_height (fr e : R) (h : num) :
  0 < fr -> 1 <= e ->
  G1Of {| frHz := Fin fr; epsilonR := Fin e; hM := h |}
  = (#1 / (#120 * Math_PI * Math_PI)
     * simpson (integrandG1 (Fin (k0R fr)) (Fin (widthR fr e))) #0 Math_PI 512)%num.
Proof.
  intros Hfr He. unfold G1Of.
  change (widthOf {| frHz := Fin fr; epsilonR := Fin e; hM := h |})
    with (widthOf {| frHz := Fin fr; epsilonR := Fin e; hM := Fin 1 |}).
  rewrite (widthOf_Fin 1 Hfr He). cbn [frHz]. rewrite k0_Fin. reflexivity.
Qed.

Lemma G1Of_frequency_free (fr1 fr2 e : R) (h1 h2 : num) :
  0 < fr1 -> 0 < fr2 -> 1 <= e ->
  G1Of {| frHz := Fin fr1; epsilonR := Fin e; hM := h1 |}
  = G1Of {| frHz := Fin fr2; epsilonR := Fin e; hM := h2 |}.
Proof.
  intros H1 H2 He. rewrite !G1Of_any_height by assumption. apply f_equal.
  apply simpson_ext. intros x. apply integrandG1_product.
  rewrite !k0R_widthR by assumption. reflexivity.
Qed.

Lemma G1_record (input : RectangularPatchInput) (res : RectangularPatchResult) :
  computeRectangularPatch input = Some res -> G1 res = G1Of input.
Proof.
  intros H. destruct (@computeRectangularPatch_record _ _ H) as [-> | ->];
    reflexivity.
Qed.

End RectangularG1.

(** X16.  In exact arithmetic (no rounding, overflow or underflow) the
    slot conductance [G1] of a returned record depends on the
    permittivity alone: at finite [frHz > 0] and [epsilonR >= 1], two
    calls of [computeRectangularPatch] with the same [epsilonR] return
    the same [G1], whatever the two frequencies and the two heights
    (because [k0 * W = PI * sqrt(2 / (epsilonR + 1))]). *)
Theorem rectangular_G1_frequency_free (fr1 fr2 e : R) (h1 h2 : num)
    (res1 res2 : Rectangular.RectangularPatchResult) :
  (0 < fr1)%R -> (0 < fr2)%R -> (1 <= e)%R ->
  Rectangular.computeRectangularPatch
    {| Rectangular.frHz := Fin fr1; Rectangular.epsilonR := Fin e;
       Rectangular.hM := h1 |} = Some res1 ->
  Rectangular.computeRectangularPatch
    {| Rectangular.frHz := Fin fr2; Rectangular.epsilonR := Fin e;
       Rectangular.hM := h2 |} = Some res2 ->
  Rectangular.G1 res1 = Rectangular.G1 res2.
Proof.
  intros H1 H2 He R1 R2.
  rewrite (@G1_record _ _ R1), (@G1_record _ _ R2).
  apply G1Of_frequency_free; assumption.
Qed.

Lemma rectangular_G1_frequency_free_witness :
  exists res1 res2,
    Rectangular.computeRectangularPatch
      {| Rectangular.frHz := Fin 2.4e9; Rectangular.epsilonR := Fin 4.4;
         Rectangular.hM := Fin 1.6e-3 |} = Some res1
    /\ Rectangular.computeRectangularPatch
         {| Rectangular.frHz := Fin 5e9; Rectangular.epsilonR := Fin 4.4;
            Rectangular.hM := Fin 0.8e-3 |} = Some res2
    /\ Rectangular.G1 res1 = Rectangular.G1 res2.
Proof.
  destruct (@computeRectangularPatch_range 2.4e9 4.4 1.6e-3) as (res1 & R1 & _);
    [lra | lra | lra |].
  destruct (@computeRectangularPatch_range 5e9 4.4 0.8e-3) as (res2 & R2 & _);
    [lra | lra | lra |].
  exists res1, res2. split; [exact R1|]. split; [exact R2|].
  apply (@rectangular_G1_frequency_free 2.4e9 5e9 4.4 (Fin 1.6e-3) (Fin 0.8e-3));
    [lra | lra | lra | exact R1 | exact R2].
Defined.

Section RectangularScaling.
Local Open Scope R_scope.
Import Constants Rectangular Integrate.

Lemma widthR_scale (fr e t : R) :
  0 < fr -> 0 < t -> widthR (fr / t) e = t * widthR fr e.
Proof. intros Hfr Ht. unfold widthR, cR. field. lra. Qed.

Lemma effEpsR_scale (e w h t : R) :
  0 < w -> 0 < t -> effEpsR e (t * w) (t * h) = effEpsR e w h.
Proof.
  intros Hw Ht. unfold effEpsR.
  replace (12 * (t * h) / (t * w)) with (12 * h / w) by (field; lra).
  reflexivity.
Qed.

Lemma deltaLR_scale (ee w h t : R) :
  0 < h -> 0 < t -> deltaLR ee (t * w) (t * h) = t * deltaLR ee w h.
Proof.
  intros Hh Ht. unfold deltaLR.
  replace (t * w / (t * h)) with (w / h) by (field; lra).
  ring.
Qed.

Lemma LeffR_scale (fr ee t : R) :
  0 < fr -> 0 < t -> 1 <= sqrt ee -> LeffR (fr / t) ee = t * LeffR fr ee.
Proof. intros Hfr Ht Hs. unfold LeffR, cR. field. lra. Qed.

Lemma k0R_scale (fr t x : R) :
  0 < t -> k0R (fr / t) * (t * x) = k0R fr * x.
Proof. intros Ht. unfold k0R, cR. field. lra. Qed.

(** [Math.acos] never returns an infinity. *)
Lemma acos_cases (x : num) :
  Math_acos x = NaN \/ exists r, Math_acos x = Fin r.
Proof.
  destruct x as [a| | |]; cbn [Math_acos]; auto.
  destruct (_ && _); [right; eexists; reflexivity | left; reflexivity].
Qed.

Variables fr e h t : R.
Hypothesis Hfr : 0 < fr.
Hypothesis He : 1 <= e.
Hypothesis Hh : 0 < h.
Hypothesis Ht : 0 < t.

Let input : RectangularPatchInput :=
  {| frHz := Fin fr; epsilonR := Fin e; hM := Fin h |}.
Let input' : RectangularPatchInput :=
  {| frHz := Fin (fr / t); epsilonR := Fin e; hM := Fin (t * h) |}.

Let Hfr' : 0 < fr / t := Rdiv_lt_0_compat _ _ Hfr Ht.
Let Hh' : 0 < t * h := Rmult_lt_0_compat _ _ Ht Hh.

Lemma lengthR_scale : lengthR (fr / t) e (t * h) = t * lengthR fr e h.
Proof.
  pose proof (widthR_pos Hfr He) as Hw.
  pose proof (sqrt_effEps_ge_1 Hfr He Hh) as Hs.
  unfold lengthR. rewrite widthR_scale by assumption.
  rewrite effEpsR_scale by assumption.
  rewrite deltaLR_scale, LeffR_scale by assumption. ring.
Qed.

Lemma widthOf_scale : widthOf input' = (Fin t * widthOf input)%num.
Proof.
  unfold input, input'. rewrite (widthOf_Fin (t * h) Hfr' He), (widthOf_Fin h Hfr He).
  rewrite widthR_scale by assumption. reflexivity.
Qed.

Lemma epsilonReffOf_scale : epsilonReffOf input' = epsilonReffOf input.
Proof.
  unfold input, input'.
  rewrite (epsilonReffOf_Fin Hfr' He Hh'), (epsilonReffOf_Fin Hfr He Hh).
  rewrite widthR_scale by assumption.
  rewrite effEpsR_scale by (try apply widthR_pos; assumption). reflexivity.
Qed.

Lemma lengthOf_scale : lengthOf input' = (Fin t * lengthOf input)%num.
Proof.
  unfold input, input'.
  rewrite (lengthOf_Fin Hfr' He Hh'), (lengthOf_Fin Hfr He Hh).
  rewrite lengthR_scale. reflexivity.
Qed.

Lemma effectiveLengthOf_scale :
  effectiveLengthOf input' = (Fin t * effectiveLengthOf input)%num.
Proof.
  unfold input, input'.
  rewrite (effectiveLengthOf_Fin Hfr' He Hh'), (effectiveLengthOf_Fin Hfr He Hh).
  rewrite widthR_scale by assumption.
  rewrite effEpsR_scale by (try apply widthR_pos; assumption).
  rewrite LeffR_scale by (try apply sqrt_effEps_ge_1; assumption).
  reflexivity.
Qed.

Lemma wavelength_scale :
  wavelength (Fin (fr / t)) = (Fin t * wavelength (Fin fr))%num.
Proof.
  rewrite !wavelength_Fin by assumption. rewrite mul_Fin. f_equal.
  unfold cR. field. lra.
Qed.

Lemma G1Of_scale : G1Of input' = G1Of input.
Proof. apply G1Of_frequency_free; assumption. Qed.

Lemma widthOf_input : widthOf input = Fin (widthR fr e).
Proof. exact (widthOf_Fin h Hfr He). Qed.

Lemma lengthOf_input : lengthOf input = Fin (lengthR fr e h).
Proof. exact (lengthOf_Fin Hfr He Hh). Qed.

Lemma effectiveLengthOf_input :
  effectiveLengthOf input = Fin (LeffR fr (effEpsR e (widthR fr e) h)).
Proof. exact (effectiveLengthOf_Fin Hfr He Hh). Qed.

Lemma G12Of_scale : G12Of input' = G12Of input.
Proof.
  unfold G12Of. rewrite lengthOf_scale, widthOf_scale.
  rewrite widthOf_input, lengthOf_input.
  unfold input, input'. cbn [frHz]. rewrite !k0_Fin, !mul_Fin. apply f_equal.
  apply simpson_ext. intros x.
  apply integrandG12_product; apply k0R_scale; exact Ht.
Qed.

Lemma I1Of_scale : I1Of input' = I1Of input.
Proof.
  unfold I1Of. rewrite effectiveLengthOf_scale, widthOf_scale.
  rewrite widthOf_input, effectiveLengthOf_input.
  unfold input, input'. cbn [frHz]. rewrite !k0_Fin, !mul_Fin.
  apply simpson2D_ext. intros x y.
  apply integrandI1_product; apply k0R_scale; exact Ht.
Qed.

Lemma RinAtEdgeOf_scale : RinAtEdgeOf input' = RinAtEdgeOf input.
Proof. unfold RinAtEdgeOf. rewrite G1Of_scale, G12Of_scale. reflexivity. Qed.

Lemma y0Of_scale :
  y0Of input' = option_map (fun y => (Fin t * y)%num) (y0Of input).
Proof.
  unfold y0Of. cbv zeta. rewrite !inset_window.
  rewrite RinAtEdgeOf_scale, lengthOf_scale.
  destruct (_ && _); [|reflexivity]. cbn [option_map]. f_equal.
  rewrite lengthOf_input. unfold Math_PI.
  pose proof PI_RGT_0 as Hpi.
  rewrite mul_Fin, !div_Fin by lra.
  destruct (acos_cases (Math_sqrt (#50 / RinAtEdgeOf input)))
    as [-> | [r ->]]; [reflexivity|].
  rewrite !mul_Fin. f_equal. field. lra.
Qed.

Lemma directivityOf_scale : directivityOf input' = directivityOf input.
Proof.
  unfold directivityOf. rewrite I1Of_scale, widthOf_scale. f_equal. f_equal.
  rewrite widthOf_input. unfold input, input'. cbn [frHz].
  rewrite !wavelength_Fin by assumption.
  unfold Math_PI. rewrite !mul_Fin.
  assert (Hc : 0 < cR / fr) by (unfold cR; apply Rdiv_lt_0_compat; lra).
  assert (Hc' : 0 < cR / (fr / t)) by (unfold cR; apply Rdiv_lt_0_compat; lra).
  rewrite !div_Fin by lra. f_equal. unfold cR. field. lra.
Qed.

Lemma computeRectangularPatch_scale :
  match computeRectangularPatch input, computeRectangularPatch input' with
  | Some res, Some res' =>
      W res' = (Fin t * W res)%num
      /\ L res' = (Fin t * L res)%num
      /\ L_eff res' = (Fin t * L_eff res)%num
      /\ lambda0 res' = (Fin t * lambda0 res)%num
      /\ y0_50ohm res' = option_map (fun y => (Fin t * y)%num) (y0_50ohm res)
      /\ epsilonReff res' = epsilonReff res
      /\ G1 res' = G1 res /\ G12 res' = G12 res
      /\ RinAtEdge res' = RinAtEdge res
      /\ directivityD res' = directivityD res
      /\ directivityDBi res' = directivityDBi res
  | None, None => True
  | _, _ => False
  end.
Proof.
  rewrite !computeRectangularPatch_flow.
  assert (G : invalidInput input = false) by exact (invalidInput_Fin Hfr He Hh).
  assert (G' : invalidInput input' = false)
    by exact (invalidInput_Fin Hfr' He Hh').
  rewrite G, G'.
  rewrite G1Of_scale, G12Of_scale, I1Of_scale.
  destruct (_ || _ || _); [exact I|].
  destruct (_ || _);
    cbn [W L L_eff lambda0 y0_50ohm epsilonReff G1 G12 RinAtEdge directivityD
         directivityDBi partialResult fullResult];
    rewrite widthOf_scale, lengthOf_scale, effectiveLengthOf_scale,
      epsilonReffOf_scale, G1Of_scale, G12Of_scale, RinAtEdgeOf_scale,
      y0Of_scale, ?directivityOf_scale;
    unfold input' at 1; cbn [frHz]; rewrite wavelength_scale;
    repeat split.
Qed.

End RectangularScaling.

(** X17.  Scaling law of [computeRectangularPatch] in exact arithmetic
    (no rounding, overflow or underflow): on finite valid input and for
    every [t > 0], dividing the frequency by [t] and multiplying the
    substrate height by [t] gives [null] exactly when the original call
    does, and otherwise a record whose lengths [W], [L], [L_eff],
    [lambda0] and [y0_50ohm] are [t] times the original ones while
    [epsilonReff], [G1], [G12], [RinAtEdge], [directivityD] and
    [directivityDBi] are unchanged. *)
Theorem rectangular_scaling (fr e h t : R) :
  (0 < fr)%R -> (1 <= e)%R -> (0 < h)%R -> (0 < t)%R ->
  match Rectangular.computeRectangularPatch
          {| Rectangular.frHz := Fin fr; Rectangular.epsilonR := Fin e;
             Rectangular.hM := Fin h |},
        Rectangular.computeRectangularPatch
          {| Rectangular.frHz := Fin (fr / t); Rectangular.epsilonR := Fin e;
             Rectangular.hM := Fin (t * h) |} with
  | Some res, Some res' =>
      Rectangular.W res' = (Fin t * Rectangular.W res)%num
      /\ Rectangular.L res' = (Fin t * Rectangular.L res)%num
      /\ Rectangular.L_eff res' = (Fin t * Rectangular.L_eff res)%num
      /\ Rectangular.lambda0 res' = (Fin t * Rectangular.lambda0 res)%num
      /\ Rectangular.y0_50ohm res'
         = option_map (fun y => (Fin t * y)%num) (Rectangular.y0_50ohm res)
      /\ Rectangular.epsilonReff res' = Rectangular.epsilonReff res
      /\ Rectangular.G1 res' = Rectangular.G1 res
      /\ Rectangular.G12 res' = Rectangular.G12 res
      /\ Rectangular.RinAtEdge res' = Rectangular.RinAtEdge res
      /\ Rectangular.directivityD res' = Rectangular.directivityD res
      /\ Rectangular.directivityDBi res' = Rectangular.directivityDBi res
  | None, None => True
  | _, _ => False
  end.
Proof. intros Hfr He Hh Ht. exact (@computeRectangularPatch_scale fr e h t Hfr He Hh Ht). Qed.

Lemma rectangular_scaling_witness :
  match Rectangular.computeRectangularPatch
          {| Rectangular.frHz := Fin 2.4e9; Rectangular.epsilonR := Fin 4.4;
             Rectangular.hM := Fin 1.6e-3 |},
        Rectangular.computeRectangularPatch
          {| Rectangular.frHz := Fin (2.4e9 / 2); Rectangular.epsilonR := Fin 4.4;
             Rectangular.hM := Fin (2 * 1.6e-3) |} with
  | Some res, Some res' =>
      Rectangular.W res' = (Fin 2 * Rectangular.W res)%num
      /\ Rectangular.L res' = (Fin 2 * Rectangular.L res)%num
      /\ Rectangular.L_eff res' = (Fin 2 * Rectangular.L_eff res)%num
      /\ Rectangular.lambda0 res' = (Fin 2 * Rectangular.lambda0 res)%num
      /\ Rectangular.y0_50ohm res'
         = option_map (fun y => (Fin 2 * y)%num) (Rectangular.y0_50ohm res)
      /\ Rectangular.epsilonReff res' = Rectangular.epsilonReff res
      /\ Rectangular.G1 res' = Rectangular.G1 res
      /\ Rectangular.G12 res' = Rectangular.G12 res
      /\ Rectangular.RinAtEdge res' = Rectangular.RinAtEdge res
      /\ Rectangular.directivityD res' = Rectangular.directivityD res
      /\ Rectangular.directivityDBi res' = Rectangular.directivityDBi res
  | None, None => True
  | _, _ => False
  end.
Proof. apply rectangular_scaling; lra. Defined.


Section RectangularReverseFinite.
Local Open Scope R_scope.
Import Constants Rectangular.

Variables w l e h : R.
Hypothesis Hw : 0 < w.
Hypothesis Hl : 0 < l.
Hypothesis He : 1 <= e.
Hypothesis Hh : 0 < h.

Let ee : R := effEpsR e w h.
Let fr : R := cR / (2 * sqrt ee * (l + deltaLR ee w h)).

Lemma reverse_denominator : 2 * l < 2 * sqrt ee * (l + deltaLR ee w h).
Proof.
  destruct (effEpsR_bounds He Hh Hw) as [[H1 H2] _]. fold ee in H1, H2.
  assert (Hs : 1 <= sqrt ee).
  { rewrite <- sqrt_1. apply sqrt_le_1; lra. }
  assert (Hd : 0 < deltaLR ee w h) by (apply deltaLR_pos; lra).
  nra.
Qed.

Lemma reverse_frequency_bounds : 0 < fr < cR / (2 * l).
Proof.
  pose proof reverse_denominator as Hden. unfold fr.
  set (den := 2 * sqrt ee * (l + deltaLR ee w h)) in *.
  unfold cR. split.
  - apply Rdiv_lt_0_compat; lra.
  - unfold Rdiv. apply Rmult_lt_compat_l; [lra|].
    apply Rinv_lt_contravar; nra.
Qed.

Lemma computeRectangularPatchReverse_finite :
  computeRectangularPatchReverse
    {| WM := Fin w; LM := Fin l; epsilonR_rev := Fin e; hM_rev := Fin h |}
  = match computeRectangularPatch
            {| frHz := Fin fr; epsilonR := Fin e; hM := Fin h |} with
    | None => None
    | Some forward => Some (Fin fr, forward)
    end.
Proof.
  destruct (effEpsR_bounds He Hh Hw) as [[H1 H2] _]. fold ee in H1, H2.
  pose proof reverse_denominator as Hden.
  pose proof reverse_frequency_bounds as [Hf _].
  unfold computeRectangularPatchReverse.
  cbn [WM LM epsilonR_rev hM_rev]. rewrite !le_Fin, lt_Fin.
  rewrite !Rleb_false, Rltb_false by lra. cbn [orb].
  rewrite effectiveEpsilon_Fin by lra. fold ee.
  rewrite deltaL_Fin_gen by lra.
  rewrite sqrt_Fin by lra. unfold C. autorewrite with numfin.
  rewrite div_Fin by lra.
  fold cR. fold fr.
  cbn [Number_isFinite negb orb]. autorewrite with numfin.
  rewrite Rleb_false by lra. reflexivity.
Qed.

End RectangularReverseFinite.

(** X18.  In exact arithmetic (no rounding, overflow or underflow), on
    finite valid dimensions ([WM > 0], [LM > 0], [epsilonR >= 1],
    [hM > 0]) [computeRectangularPatchReverse] never stops at its own
    frequency test: the frequency it derives is finite with
    [0 < frHz < c / (2 LM)], and its answer is the forward result at that
    frequency paired with it, or [null] when the forward call gives
    [null]. *)
Theorem rectangular_reverse_frequency (w l e h : R) :
  (0 < w)%R -> (0 < l)%R -> (1 <= e)%R -> (0 < h)%R ->
  exists fr : R,
    (0 < fr < 299792458 / (2 * l))%R
    /\ Rectangular.computeRectangularPatchReverse
         {| Rectangular.WM := Fin w; Rectangular.LM := Fin l;
            Rectangular.epsilonR_rev := Fin e; Rectangular.hM_rev := Fin h |}
       = match Rectangular.computeRectangularPatch
                 {| Rectangular.frHz := Fin fr; Rectangular.epsilonR := Fin e;
                    Rectangular.hM := Fin h |} with
         | None => None
         | Some forward => Some (Fin fr, forward)
         end.
Proof.
  intros Hw Hl He Hh. eexists. split.
  - exact (@reverse_frequency_bounds w l e h Hw Hl He Hh).
  - exact (@computeRectangularPatchReverse_finite w l e h Hw Hl He Hh).
Qed.

Lemma rectangular_reverse_frequency_witness :
  exists fr : R,
    (0 < fr < 299792458 / (2 * 0.024))%R
    /\ Rectangular.computeRectangularPatchReverse
         {| Rectangular.WM := Fin 0.03; Rectangular.LM := Fin 0.024;
            Rectangular.epsilonR_rev := Fin 4.4;
            Rectangular.hM_rev := Fin 0.0016 |}
       = match Rectangular.computeRectangularPatch
                 {| Rectangular.frHz := Fin fr; Rectangular.epsilonR := Fin 4.4;
                    Rectangular.hM := Fin 0.0016 |} with
         | None => None
         | Some forward => Some (Fin fr, forward)
         end.
Proof. apply rectangular_reverse_frequency; lra. Defined.


(** ** The circular patch: records, scaling, accuracy of the solver *)

Section CircularExtra.
Local Open Scope R_scope.
Import Constants Circular Integrate.

Lemma computeCircularPatch_None (input : CircularPatchInput) :
  computeCircularPatch input = None <-> invalidInput input = true.
Proof.
  destruct (invalidInput input) eqn:G.
  - unfold invalidInput in G. unfold computeCircularPatch. rewrite G.
    split; reflexivity.
  - destruct (@computeCircularPatch_radii input G) as (res & -> & _).
    split; discriminate.
Qed.

Lemma effRadR_gt (a h e : R) :
  0 < a -> 0 < h -> 1 <= e -> a < effRadR a h e.
Proof.
  intros Ha Hh He. pose proof PI_RGT_0 as Hpi.
  assert (Hy : 0 < PI * a * e).
  { apply Rmult_lt_0_compat; [apply Rmult_lt_0_compat|]; lra. }
  pose proof (fringe_factor_gt_1 Ha Hy Hh He) as Hfac.
  pose proof (sqrt_gt_1 Hfac) as Hsq.
  unfold effRadR. nra.
Qed.

(** The integrand sees the wavenumber only through [k0 * a_e]. *)
Lemma integrand_product (k a : R) (theta : num) :
  integrand (Fin k) (Fin a) theta = integrand (Fin 1) (Fin (k * a)) theta.
Proof.
  unfold integrand. cbv zeta. rewrite !mul_Fin, Rmult_1_l. reflexivity.
Qed.

Lemma circular_guard_Fin (fr e h : R) :
  0 < fr -> 1 <= e -> 0 < h ->
  invalidInput {| frHz := Fin fr; epsilonR := Fin e; hM := Fin h |} = false.
Proof.
  intros Hfr He Hh. unfold invalidInput; cbn [frHz epsilonR hM].
  autorewrite with numfin. rewrite !Rleb_false, Rltb_false by lra. reflexivity.
Qed.

(** The radiated conductance and the directivity as functions of the
    electrical radius [k0 * a_e]. *)
Let Grad (x : R) : num :=
  (Math_pow (Fin x) 2 / #480
   * simpson (integrand (Fin 1) (Fin x)) #0 (Math_PI / #2) 512)%num.

Lemma computeCircularPatch_explicit (fr e h : R) :
  0 < fr -> 1 <= e -> 0 < h ->
  let a := physRadR (FR fr e) h e in
  let ae := effRadR a h e in
  let x := k0R fr * ae in
  computeCircularPatch {| frHz := Fin fr; epsilonR := Fin e; hM := Fin h |}
  = if negb (Number_isFinite (Grad x)) || (Grad x <=? #0)%num
    then Some {| Circular.a := Fin a; a_e := Fin ae;
                 directivityD := NaN; directivityDBi := NaN;
                 lambda0 := Fin (cR / fr) |}
    else Some {| Circular.a := Fin a; a_e := Fin ae;
                 directivityD := (Math_pow (Fin x) 2 / (#120 * Grad x))%num;
                 directivityDBi :=
                   (#10 * Math_log10 (Math_pow (Fin x) 2 / (#120 * Grad x)))%num;
                 lambda0 := Fin (cR / fr) |}.
Proof.
  intros Hfr He Hh a ae x.
  destruct (F_Fin Hfr He) as [HF HFpos].
  destruct (physicalRadius_Fin HFpos Hh He) as [Hp Hppos].
  destruct (effectiveRadius_Fin Hppos Hh He) as [Hq _].
  pose proof (circular_guard_Fin Hfr He Hh) as G. unfold invalidInput in G.
  unfold computeCircularPatch. rewrite G. cbn [frHz epsilonR hM]. cbv zeta.
  rewrite HF, Hp, Hq, k0_Fin, (wavelength_Fin Hfr), !mul_Fin.
  fold a. fold ae. fold x.
  rewrite (@simpson_ext (integrand (Fin (k0R fr)) (Fin ae))
             (integrand (Fin 1) (Fin x)))
    by (intros theta; apply integrand_product).
  reflexivity.
Qed.

Lemma FR_scale (fr e t : R) :
  0 < fr -> 1 <= e -> 0 < t -> FR (fr / t) e = t * FR fr e.
Proof.
  intros Hfr He Ht. unfold FR.
  assert (Hs : 1 <= sqrt e) by (rewrite <- sqrt_1; apply sqrt_le_1; lra).
  field. lra.
Qed.

Lemma physRadR_scale (FVal h e t : R) :
  0 < FVal -> 0 < h -> 0 < e -> 0 < t ->
  physRadR (t * FVal) (t * h) e = t * physRadR FVal h e.
Proof.
  intros HF Hh He Ht. pose proof PI_RGT_0 as Hpi. unfold physRadR, lnArgR.
  replace (PI * (t * FVal) / (2 * (t * h))) with (PI * FVal / (2 * h))
    by (field; lra).
  replace (2 * (t * h) / (PI * e * (t * FVal))) with (2 * h / (PI * e * FVal))
    by (field; lra).
  unfold Rdiv. ring.
Qed.

Lemma effRadR_scale (a h e t : R) :
  0 < a -> 0 < h -> 0 < e -> 0 < t ->
  effRadR (t * a) (t * h) e = t * effRadR a h e.
Proof.
  intros Ha Hh He Ht. pose proof PI_RGT_0 as Hpi. unfold effRadR, lnArgR.
  replace (PI * (t * a) / (2 * (t * h))) with (PI * a / (2 * h))
    by (field; lra).
  replace (2 * (t * h) / (PI * (t * a) * e)) with (2 * h / (PI * a * e))
    by (field; lra).
  ring.
Qed.

Lemma computeCircularPatch_scale (fr e h t : R) :
  0 < fr -> 1 <= e -> 0 < h -> 0 < t ->
  exists res res',
    computeCircularPatch {| frHz := Fin fr; epsilonR := Fin e; hM := Fin h |}
    = Some res
    /\ computeCircularPatch
         {| frHz := Fin (fr / t); epsilonR := Fin e; hM := Fin (t * h) |}
       = Some res'
    /\ Circular.a res' = (Fin t * Circular.a res)%num
    /\ a_e res' = (Fin t * a_e res)%num
    /\ lambda0 res' = (Fin t * lambda0 res)%num
    /\ directivityD res' = directivityD res
    /\ directivityDBi res' = directivityDBi res.
Proof.
  intros Hfr He Hh Ht.
  assert (Hfr' : 0 < fr / t) by (apply Rdiv_lt_0_compat; assumption).
  assert (Hh' : 0 < t * h) by (apply Rmult_lt_0_compat; assumption).
  destruct (F_Fin Hfr He) as [_ HFpos].
  destruct (physicalRadius_Fin HFpos Hh He) as [_ Hppos].
  rewrite (computeCircularPatch_explicit Hfr He Hh).
  rewrite (computeCircularPatch_explicit Hfr' He Hh').
  cbv zeta.
  rewrite FR_scale by assumption.
  rewrite physRadR_scale by lra.
  rewrite effRadR_scale by lra.
  set (a := physRadR (FR fr e) h e). set (ae := effRadR a h e).
  replace (k0R (fr / t) * (t * ae)) with (k0R fr * ae)
    by (unfold k0R, cR; field; lra).
  replace (cR / (fr / t)) with (t * (cR / fr)) by (unfold cR; field; lra).
  destruct (_ || _); eexists; eexists;
    (split; [reflexivity|]); (split; [reflexivity|]);
    cbn [Circular.a a_e lambda0 directivityD directivityDBi];
    rewrite !mul_Fin; repeat split.
Qed.

End CircularExtra.

(** X19.  In exact arithmetic (no rounding, overflow or underflow), on
    finite valid input ([frHz > 0], [epsilonR >= 1], [hM > 0])
    [computeCircularPatch] returns a record with finite radii such that
    [0 < a < a_e] and [a < F = 8.791e7 / (frHz * sqrt(epsilonR))], and
    with [lambda0 * frHz = c]. *)
Theorem circular_record_geometry (fr e h : R) :
  (0 < fr)%R -> (1 <= e)%R -> (0 < h)%R ->
  exists (res : Circular.CircularPatchResult) (a ae lam : R),
    Circular.computeCircularPatch
      {| Circular.frHz := Fin fr; Circular.epsilonR := Fin e;
         Circular.hM := Fin h |} = Some res
    /\ Circular.a res = Fin a /\ Circular.a_e res = Fin ae
    /\ Circular.lambda0 res = Fin lam
    /\ (0 < a < ae)%R
    /\ (a < 8.791e7 / (fr * sqrt e))%R
    /\ (lam * fr = 299792458)%R.
Proof.
  intros Hfr He Hh.
  destruct (F_Fin Hfr He) as [_ HFpos].
  destruct (physicalRadius_Fin HFpos Hh He) as [_ Hppos].
  pose proof (physRadR_lt HFpos Hh He) as Hlt.
  pose proof (effRadR_gt Hppos Hh He) as Hgt.
  pose proof (computeCircularPatch_explicit Hfr He Hh) as E. cbv zeta in E.
  assert (Hlam : (cR / fr * fr = 299792458)%R) by (unfold cR; field; lra).
  rewrite E.
  destruct (_ || _); eexists; exists (physRadR (FR fr e) h e),
      (effRadR (physRadR (FR fr e) h e) h e), (cR / fr)%R;
    (split; [reflexivity|]);
    cbn [Circular.a Circular.a_e Circular.lambda0];
    repeat split; try assumption.
Qed.

Lemma circular_record_geometry_witness :
  exists (res : Circular.CircularPatchResult) (a ae lam : R),
    Circular.computeCircularPatch
      {| Circular.frHz := Fin 2.4e9; Circular.epsilonR := Fin 4.4;
         Circular.hM := Fin 1.6e-3 |} = Some res
    /\ Circular.a res = Fin a /\ Circular.a_e res = Fin ae
    /\ Circular.lambda0 res = Fin lam
    /\ (0 < a < ae)%R
    /\ (a < 8.791e7 / (2.4e9 * sqrt 4.4))%R
    /\ (lam * 2.4e9 = 299792458)%R.
Proof. apply circular_record_geometry; lra. Defined.

(** X20.  Scaling law of [computeCircularPatch] in exact arithmetic
    (no rounding, overflow or underflow): on finite valid input and for
    every [t > 0], dividing the frequency by [t] and multiplying the
    substrate height by [t] multiplies [a], [a_e] and [lambda0] by [t]
    and leaves [directivityD] and [directivityDBi] unchanged. *)
Theorem circular_scaling (fr e h t : R) :
  (0 < fr)%R -> (1 <= e)%R -> (0 < h)%R -> (0 < t)%R ->
  exists res res',
    Circular.computeCircularPatch
      {| Circular.frHz := Fin fr; Circular.epsilonR := Fin e;
         Circular.hM := Fin h |} = Some res
    /\ Circular.computeCircularPatch
         {| Circular.frHz := Fin (fr / t); Circular.epsilonR := Fin e;
            Circular.hM := Fin (t * h) |} = Some res'
    /\ Circular.a res' = (Fin t * Circular.a res)%num
    /\ Circular.a_e res' = (Fin t * Circular.a_e res)%num
    /\ Circular.lambda0 res' = (Fin t * Circular.lambda0 res)%num
    /\ Circular.directivityD res' = Circular.directivityD res
    /\ Circular.directivityDBi res' = Circular.directivityDBi res.
Proof. exact (@computeCircularPatch_scale fr e h t). Qed.

Lemma circular_scaling_witness :
  exists res res',
    Circular.computeCircularPatch
      {| Circular.frHz := Fin 2.4e9; Circular.epsilonR := Fin 4.4;
         Circular.hM := Fin 1.6e-3 |} = Some res
    /\ Circular.computeCircularPatch
         {| Circular.frHz := Fin (2.4e9 / 2); Circular.epsilonR := Fin 4.4;
            Circular.hM := Fin (2 * 1.6e-3) |} = Some res'
    /\ Circular.a res' = (Fin 2 * Circular.a res)%num
    /\ Circular.a_e res' = (Fin 2 * Circular.a_e res)%num
    /\ Circular.lambda0 res' = (Fin 2 * Circular.lambda0 res)%num
    /\ Circular.directivityD res' = Circular.directivityD res
    /\ Circular.directivityDBi res' = Circular.directivityDBi res.
Proof. apply circular_scaling; lra. Defined.


Section CircularReverseAccuracy.
Local Open Scope R_scope.
Import Circular.

Variables aM e h : R.
Hypothesis HaM : 0 < aM.
Hypothesis He : 1 <= e.
Hypothesis Hh : 0 < h.

(** The bisection keeps a bracket of the target and halves it. *)
Lemma interval_invariant (lo hi : R) (i : nat) :
  0 < lo -> lo <= hi ->
  bracketed (Fin aM) (Fin h) (Fin e) (Fin lo) (Fin hi) = true ->
  exists lo' hi' : R,
    interval (Fin aM) (Fin h) (Fin e) (Fin lo, Fin hi) i = (Fin lo', Fin hi')
    /\ lo <= lo' /\ lo' <= hi' /\ hi' <= hi
    /\ hi' - lo' = (hi - lo) / 2 ^ i
    /\ bracketed (Fin aM) (Fin h) (Fin e) (Fin lo') (Fin hi') = true.
Proof.
  intros Hlo Hle Hbr. induction i as [|i IH].
  - exists lo, hi. repeat split; try assumption; try lra; cbn [pow]; field.
  - destruct IH as (lo' & hi' & Hi & H1 & H2 & H3 & Hw & Hb).
    unfold interval in *. rewrite Nat.iter_succ, Hi.
    unfold bisectStep. rewrite (midpoint_Fin lo' hi'). cbn [fst snd].
    assert (Hmid : 0 < (lo' + hi') / 2) by lra.
    destruct (physicalRadius_Fin Hmid Hh He) as [Em _].
    assert (Hp : 0 < 2 ^ i) by (apply pow_lt; lra).
    assert (Hw' : (hi - lo) / 2 ^ S i = (hi' - lo') / 2).
    { rewrite Hw. cbn [pow]. field. lra. }
    unfold bracketed in Hb. apply andb_true_iff in Hb. destruct Hb as [Hb1 Hb2].
    rewrite Em, lt_Fin.
    destruct (Rltb (physRadR ((lo' + hi') / 2) h e) aM) eqn:Hc.
    + apply Rltb_spec in Hc.
      exists ((lo' + hi') / 2), hi'. split; [reflexivity|].
      repeat split; try lra.
      unfold bracketed. rewrite Em, le_Fin, Hb2, Rleb_true by lra. reflexivity.
    + apply Rltb_false_iff in Hc.
      exists lo', ((lo' + hi') / 2). split; [reflexivity|].
      repeat split; try lra.
      unfold bracketed. rewrite Em, le_Fin, Hb1, Rleb_true by lra. reflexivity.
Qed.

(** The frequency the solver returns gives back the [F] it was computed
    from. *)
Lemma F_of_frequency (FVal : R) :
  0 < FVal ->
  F (#8.791e7 / (Fin FVal * Math_sqrt (Fin e)))%num (Fin e) = Fin FVal
  /\ (#8.791e7 / (Fin FVal * Math_sqrt (Fin e)))%num
     = Fin (8.791e7 / (FVal * sqrt e)).
Proof.
  intros HF.
  assert (Hs : 1 <= sqrt e) by (rewrite <- sqrt_1; apply sqrt_le_1; lra).
  assert (Hp : 0 < FVal * sqrt e) by (apply Rmult_lt_0_compat; lra).
  assert (Hq : 0 < 8.791e7 / (FVal * sqrt e)) by (apply Rdiv_lt_0_compat; lra).
  unfold F. rewrite sqrt_Fin by lra. rewrite mul_Fin, div_Fin by lra.
  rewrite mul_Fin, div_Fin by nra. split; [|reflexivity].
  f_equal. field. lra.
Qed.

Lemma reverse_accuracy (frHz : num) (res : CircularPatchResult) :
  computeCircularPatchReverse
    {| Circular.aM := Fin aM; epsilonR_rev := Fin e; hM_rev := Fin h |}
  = Some (frHz, res) ->
  exists FVal lo' hi' : R,
    1e-5 / 2 ^ 7 <= lo' /\ lo' <= FVal <= hi' /\ hi' <= 0.8
    /\ (physicalRadius (Fin lo') (Fin h) (Fin e) <=? Fin aM)%num = true
    /\ (Fin aM <=? physicalRadius (Fin hi') (Fin h) (Fin e))%num = true
    /\ frHz = Fin (8.791e7 / (FVal * sqrt e))
    /\ computeCircularPatch
         {| Circular.frHz := frHz; epsilonR := Fin e; hM := Fin h |} = Some res
    /\ a res = physicalRadius (Fin FVal) (Fin h) (Fin e)
    /\ ((Math_abs (a res - Fin aM) <? #1e-12 * Fin aM)%num = true
        \/ hi' - lo' <= 0.8 / 2 ^ 80).
Proof.
  intros Hrev.
  destruct (@expandLow_enough (Fin aM) (Fin h) (Fin e) 7 8 1e-5)
    as (lo & Hlo & _ & Hlor); [lra | simpl; lra | lia |].
  destruct (@expandHigh_enough (Fin aM) (Fin h) (Fin e) 3 8 0.1)
    as (hi & Hhi & _ & Hhir); [lra | simpl; lra | lia |].
  assert (Hlo0 : 0 < 1e-5 / 2 ^ 7) by (simpl; lra).
  assert (Hlopos : 0 < lo) by lra.
  assert (Hhipos : 0 < hi) by lra.
  assert (Hhi8 : hi <= 0.8) by (simpl in Hhir; lra).
  rewrite (reverse_by_bounds HaM He Hh Hlopos Hhipos Hlo Hhi) in Hrev.
  destruct (bracketed (Fin aM) (Fin h) (Fin e) (Fin lo) (Fin hi)) eqn:Hbr;
    [|discriminate].
  destruct (@bisect_result aM e h He Hh lo hi Hlopos Hhipos)
    as (i & res0 & Hi & Hb & Hfwd & _ & Hat).
  cbv zeta in Hb, Hfwd, Hat.
  destruct (@interval_invariant lo hi i Hlopos ltac:(lra) Hbr)
    as (lo' & hi' & Eint & H1 & H2 & H3 & Hw & Hb').
  rewrite Eint, midpoint_Fin in Hb, Hfwd, Hat.
  rewrite Hb in Hrev. injection Hrev as <- <-.
  assert (Hmid : 0 < (lo' + hi') / 2) by lra.
  destruct (F_of_frequency Hmid) as [EF Efr].
  unfold bracketed in Hb'. apply andb_true_iff in Hb'. destruct Hb' as [Hb1 Hb2].
  assert (Ha : a res0 = physicalRadius (Fin ((lo' + hi') / 2)) (Fin h) (Fin e)).
  { destruct (@computeCircularPatch_radii
                {| Circular.frHz := (#8.791e7 / (Fin ((lo' + hi') / 2)
                                                 * Math_sqrt (Fin e)))%num;
                   epsilonR := Fin e; hM := Fin h |})
      as (res1 & Hres1 & Ha1 & _).
    { rewrite Efr. apply circular_guard_Fin; try assumption.
      assert (Hs : 1 <= sqrt e) by (rewrite <- sqrt_1; apply sqrt_le_1; lra).
      apply Rdiv_lt_0_compat; [lra | apply Rmult_lt_0_compat; lra]. }
    rewrite Hfwd in Hres1. injection Hres1 as <-.
    cbn [Circular.frHz epsilonR hM] in Ha1. rewrite EF in Ha1. exact Ha1. }
  exists ((lo' + hi') / 2), lo', hi'.
  split; [lra|]. split; [lra|]. split; [lra|].
  split; [exact Hb1|]. split; [exact Hb2|].
  split; [exact Efr|]. split; [exact Hfwd|]. split; [exact Ha|].
  destruct (Nat.eq_dec i 80) as [->|Hne].
  - right. rewrite Hw.
    assert (Hp : 0 < 2 ^ 80) by (apply pow_lt; lra).
    unfold Rdiv. apply Rmult_le_compat_r; [apply Rlt_le, Rinv_0_lt_compat, Hp | lra].
  - left. rewrite Ha. apply Hat. lia.
Qed.

(** No radius of 0.8 m or more is ever bracketed. *)
Lemma reverse_large_radius :
  0.8 <= aM ->
  computeCircularPatchReverse
    {| Circular.aM := Fin aM; epsilonR_rev := Fin e; hM_rev := Fin h |} = None.
Proof.
  intros Hbig.
  destruct (@expandLow_enough (Fin aM) (Fin h) (Fin e) 7 8 1e-5)
    as (lo & Hlo & _ & Hlor); [lra | simpl; lra | lia |].
  destruct (@expandHigh_enough (Fin aM) (Fin h) (Fin e) 3 8 0.1)
    as (hi & Hhi & _ & Hhir); [lra | simpl; lra | lia |].
  assert (Hlo0 : 0 < 1e-5 / 2 ^ 7) by (simpl; lra).
  assert (Hlopos : 0 < lo) by lra.
  assert (Hhipos : 0 < hi) by lra.
  assert (Hhi8 : hi <= 0.8) by (simpl in Hhir; lra).
  rewrite (reverse_by_bounds HaM He Hh Hlopos Hhipos Hlo Hhi).
  destruct (physicalRadius_Fin Hhipos Hh He) as [Ep _].
  pose proof (physRadR_lt Hhipos Hh He) as Hlt.
  unfold bracketed. rewrite Ep, (le_Fin aM), (@Rleb_false aM) by lra.
  rewrite andb_false_r. reflexivity.
Qed.

End CircularReverseAccuracy.

(** X21.  What a result of [computeCircularPatchReverse] guarantees, in
    exact arithmetic (no rounding, overflow or underflow), on finite
    valid input: the returned frequency is
    [8.791e7 / (F * sqrt(epsilonR))] for an [F] that lies in an interval
    [[lo, hi]] inside [[1e-5 / 2^7, 0.8]] whose end points bracket the
    target ([physicalRadius(lo) <= aM <= physicalRadius(hi)]); the record
    is the forward result at that frequency and its radius [a] is
    [physicalRadius(F)]; and either [|a - aM| < 1e-12 * aM], or the
    interval has been halved 80 times ([hi - lo <= 0.8 / 2^80]). *)
Theorem circular_reverse_accuracy (aM e h : R) (frHz : num)
    (res : Circular.CircularPatchResult) :
  (0 < aM)%R -> (1 <= e)%R -> (0 < h)%R ->
  Circular.computeCircularPatchReverse
    {| Circular.aM := Fin aM; Circular.epsilonR_rev := Fin e;
       Circular.hM_rev := Fin h |} = Some (frHz, res) ->
  exists FVal lo hi : R,
    (1e-5 / 2 ^ 7 <= lo)%R /\ (lo <= FVal <= hi)%R /\ (hi <= 0.8)%R
    /\ (Circular.physicalRadius (Fin lo) (Fin h) (Fin e) <=? Fin aM)%num = true
    /\ (Fin aM <=? Circular.physicalRadius (Fin hi) (Fin h) (Fin e))%num = true
    /\ frHz = Fin (8.791e7 / (FVal * sqrt e))
    /\ Circular.computeCircularPatch
         {| Circular.frHz := frHz; Circular.epsilonR := Fin e;
            Circular.hM := Fin h |} = Some res
    /\ Circular.a res = Circular.physicalRadius (Fin FVal) (Fin h) (Fin e)
    /\ ((Math_abs (Circular.a res - Fin aM) <? #1e-12 * Fin aM)%num = true
        \/ (hi - lo <= 0.8 / 2 ^ 80)%R).
Proof.
  intros HaM He Hh Hrev.
  exact (@reverse_accuracy aM e h HaM He Hh frHz res Hrev).
Qed.

Lemma circular_reverse_accuracy_witness :
  exists (frHz : num) (res : Circular.CircularPatchResult) (FVal lo hi : R),
    Circular.computeCircularPatchReverse
      {| Circular.aM := Fin 0.014; Circular.epsilonR_rev := Fin 4.4;
         Circular.hM_rev := Fin 0.0016 |} = Some (frHz, res)
    /\ (1e-5 / 2 ^ 7 <= lo)%R /\ (lo <= FVal <= hi)%R /\ (hi <= 0.8)%R
    /\ (Circular.physicalRadius (Fin lo) (Fin 0.0016) (Fin 4.4) <=? Fin 0.014)%num
       = true
    /\ (Fin 0.014 <=? Circular.physicalRadius (Fin hi) (Fin 0.0016) (Fin 4.4))%num
       = true
    /\ frHz = Fin (8.791e7 / (FVal * sqrt 4.4))
    /\ Circular.computeCircularPatch
         {| Circular.frHz := frHz; Circular.epsilonR := Fin 4.4;
            Circular.hM := Fin 0.0016 |} = Some res
    /\ Circular.a res
       = Circular.physicalRadius (Fin FVal) (Fin 0.0016) (Fin 4.4)
    /\ ((Math_abs (Circular.a res - Fin 0.014) <? #1e-12 * Fin 0.014)%num = true
        \/ (hi - lo <= 0.8 / 2 ^ 80)%R).
Proof.
  destruct reverse_example_found as (frHz & res & Hrev).
  destruct (@circular_reverse_accuracy 0.014 4.4 0.0016 frHz res)
    as (FVal & lo & hi & P); [lra | lra | lra | exact Hrev |].
  exists frHz, res, FVal, lo, hi. split; [exact Hrev | exact P].
Defined.

(** X22.  In exact arithmetic (no rounding, overflow or underflow) a
    target radius of 0.8 m or more is out of the solver's reach: for
    finite [aM >= 0.8], [epsilonR >= 1] and [hM > 0],
    [computeCircularPatchReverse] returns [null] (the upper bound [FHigh]
    stops at 0.8 at the latest, and [physicalRadius(F) < F]). *)
Theorem circular_reverse_large_radius (aM e h : R) :
  (0.8 <= aM)%R -> (1 <= e)%R -> (0 < h)%R ->
  Circular.computeCircularPatchReverse
    {| Circular.aM := Fin aM; Circular.epsilonR_rev := Fin e;
       Circular.hM_rev := Fin h |} = None.
Proof.
  intros Hbig He Hh.
  apply reverse_large_radius; [lra | exact He | exact Hh | exact Hbig].
Qed.

Lemma circular_reverse_large_radius_witness :
  Circular.computeCircularPatchReverse
    {| Circular.aM := Fin 1; Circular.epsilonR_rev := Fin 4.4;
       Circular.hM_rev := Fin 0.0016 |} = None.
Proof. apply circular_reverse_large_radius; lra. Defined.


(** ** The two hooks *)

Section Hooks.
Local Open Scope R_scope.
Import Units.

(** A frequency the rectangular reverse calculation returns has passed
    its test. *)
Lemma computeRectangularPatchReverse_Some
    (input : Rectangular.RectangularPatchInputReverse)
    (fr : num) (res : Rectangular.RectangularPatchResult) :
  Rectangular.computeRectangularPatchReverse input = Some (fr, res) ->
  Number_isFinite fr = true /\ (fr >? #0)%num = true
  /\ Rectangular.computeRectangularPatch
       {| Rectangular.frHz := fr;
          Rectangular.epsilonR := Rectangular.epsilonR_rev input;
          Rectangular.hM := Rectangular.hM_rev input |} = Some res.
Proof.
  unfold Rectangular.computeRectangularPatchReverse. cbv zeta.
  destruct (_ || _ || _ || _); [discriminate|].
  match goal with
  | |- context [negb (Number_isFinite ?f)] => set (f0 := f)
  end.
  destruct (negb (Number_isFinite f0) || (f0 <=? #0)%num) eqn:G; [discriminate|].
  destruct (Rectangular.computeRectangularPatch _) as [forward|] eqn:E;
    [|discriminate].
  intros H. injection H as <- <-.
  apply orb_false_iff in G. destruct G as [G1 G2].
  destruct f0 as [r| | |]; try discriminate.
  rewrite le_Fin in G2. apply Rleb_false_iff in G2.
  repeat split; [rewrite gt_Fin; apply Rltb_true; exact G2 | exact E].
Qed.

(** A record the circular reverse solver returns is the forward result
    at the frequency returned with it. *)
Lemma computeCircularPatchReverse_Some
    (input : Circular.CircularPatchInputReverse)
    (fr : num) (res : Circular.CircularPatchResult) :
  Circular.computeCircularPatchReverse input = Some (fr, res) ->
  Circular.computeCircularPatch
    {| Circular.frHz := fr;
       Circular.epsilonR := Circular.epsilonR_rev input;
       Circular.hM := Circular.hM_rev input |} = Some res.
Proof.
  unfold Circular.computeCircularPatchReverse,
    Circular.computeCircularPatchReverseFuel. cbv zeta.
  destruct (_ || _ || _); [discriminate|].
  destruct (Circular.expandLow _ _ _ _ _) as [FLow|]; [|discriminate].
  destruct (Circular.expandHigh _ _ _ _ _) as [FHigh|]; [|discriminate].
  destruct (_ || _); [discriminate|].
  destruct (@bisect_exit (Circular.aM input) (Circular.hM_rev input)
              (Circular.epsilonR_rev input) 80 FLow FHigh)
    as (i & _ & -> & _).
  unfold Circular.finish. cbv zeta.
  destruct (Circular.computeCircularPatch _) as [r|] eqn:E; [|discriminate].
  intros H. injection H as <- <-. exact E.
Qed.

End Hooks.

Import String.StringSyntax.
Local Open Scope string_scope.

(** X23.  What [calculate] of the rectangular hook leaves behind, for
    every state: either no result, no computed frequency and one of five
    error messages (the sixth message of the source, 'Integrals did not
    converge', is never set, a returned record having finite [G1] and
    [G12]); or a record and no error, with no computed frequency in
    frequency mode and, in dimensions mode, a computed frequency that is
    finite and positive. *)
Theorem rectangular_calculate_outcome
    (state : UseRectangularPatch.RectangularPatchState) :
  let out := UseRectangularPatch.calculate state in
  (UseRectangularPatch.result out = None
   /\ UseRectangularPatch.computedFrHz out = None
   /\ exists msg,
        UseRectangularPatch.error out = Some msg
        /\ In msg
             ["Invalid input: ε_r ≥ 1, h > 0";
              "Invalid input: f_r > 0";
              "Calculation failed (check inputs or numerical limits)";
              "Invalid input: W > 0, L > 0";
              "Calculation failed (check dimensions or numerical limits)"
             ])
  \/ (exists res,
        UseRectangularPatch.result out = Some res
        /\ UseRectangularPatch.error out = None
        /\ match UseRectangularPatch.mode state with
           | UseRectangularPatch.ModeFrequency =>
               UseRectangularPatch.computedFrHz out = None
           | UseRectangularPatch.ModeDimensions =>
               exists fr,
                 UseRectangularPatch.computedFrHz out = Some fr
                 /\ Number_isFinite fr = true /\ (fr >? #0)%num = true
           end).
Proof.
  unfold UseRectangularPatch.calculate. cbv zeta.
  destruct (_ || _).
  { left. repeat split. eexists. split; [reflexivity|]. cbn [In]. auto. }
  destruct (UseRectangularPatch.mode state).
  - destruct (_ <=? _)%num.
    { left. repeat split. eexists. split; [reflexivity|]. cbn [In]. auto. }
    destruct (Rectangular.computeRectangularPatch _) as [res|] eqn:E.
    + destruct (@record_conductances _ _ E) as (g1 & g12 & -> & -> & _).
      cbn [Number_isFinite negb orb].
      right. exists res. repeat split.
    + left. repeat split. eexists. split; [reflexivity|]. cbn [In]. auto.
  - destruct (_ || _).
    { left. repeat split. eexists. split; [reflexivity|]. cbn [In]. auto. }
    destruct (Rectangular.computeRectangularPatchReverse _) as [[fr res]|] eqn:E.
    + destruct (@computeRectangularPatchReverse_Some _ _ _ E) as (H1 & H2 & _).
      right. exists res. repeat split. exists fr. repeat split; assumption.
    + left. repeat split. eexists. split; [reflexivity|]. cbn [In]. tauto.
Qed.

(** X24.  What [calculate] of the circular hook leaves behind, for every
    state: either no result, no computed frequency and one of five error
    messages ('Calculation failed (check inputs or numerical limits)' is
    never set: the hook has already rejected everything the guard of
    [computeCircularPatch] rejects); or a record and no error, which in
    frequency mode has a finite [directivityD] and no computed frequency,
    and in dimensions mode is the forward result at the computed
    frequency. *)
Theorem circular_calculate_outcome
    (state : UseCircularPatch.CircularPatchState) :
  let out := UseCircularPatch.calculate state in
  (UseCircularPatch.result out = None
   /\ UseCircularPatch.computedFrHz out = None
   /\ exists msg,
        UseCircularPatch.error out = Some msg
        /\ In msg
             ["Invalid input: ε_r ≥ 1, h > 0";
              "Invalid input: f_r > 0";
              "Directivity integral did not converge";
              "Invalid input: radius a > 0";
              "Calculation failed (check radius or numerical limits)"
             ])
  \/ (exists res,
        UseCircularPatch.result out = Some res
        /\ UseCircularPatch.error out = None
        /\ match UseCircularPatch.mode state with
           | UseCircularPatch.ModeFrequency =>
               UseCircularPatch.computedFrHz out = None
               /\ Number_isFinite (Circular.directivityD res) = true
           | UseCircularPatch.ModeDimensions =>
               exists fr,
                 UseCircularPatch.computedFrHz out = Some fr
                 /\ Circular.computeCircularPatch
                      {| Circular.frHz := fr;
                         Circular.epsilonR := UseCircularPatch.epsilonR state;
                         Circular.hM :=
                           Units.lengthToSI (UseCircularPatch.height state)
                             (UseCircularPatch.heightUnit state) |}
                    = Some res
           end).
Proof.
  unfold UseCircularPatch.calculate. cbv zeta.
  destruct (_ || _) eqn:G1.
  { left. repeat split. eexists. split; [reflexivity|]. cbn [In]. auto. }
  destruct (UseCircularPatch.mode state).
  - destruct (Units.frequencyToSI _ _ <=? _)%num eqn:G2.
    { left. repeat split. eexists. split; [reflexivity|]. cbn [In]. auto. }
    destruct (Circular.computeCircularPatch _) as [res|] eqn:E.
    + destruct (Number_isFinite (Circular.directivityD res)) eqn:D;
        cbn [negb].
      * right. exists res. repeat split. exact D.
      * left. repeat split. eexists. split; [reflexivity|]. cbn [In]. auto.
    + exfalso. apply computeCircularPatch_None in E.
      unfold Circular.invalidInput in E.
      cbn [Circular.frHz Circular.epsilonR Circular.hM] in E.
      apply orb_false_iff in G1. destruct G1 as [Ge Gh].
      rewrite G2, Ge, Gh in E. discriminate.
  - destruct (Units.lengthToSI (UseCircularPatch.radius state) _ <=? _)%num.
    { left. repeat split. eexists. split; [reflexivity|]. cbn [In]. auto. }
    destruct (Circular.computeCircularPatchReverse _) as [[fr res]|] eqn:E.
    + apply computeCircularPatchReverse_Some in E.
      cbn [Circular.epsilonR_rev Circular.hM_rev] in E.
      right. exists res. repeat split. exists fr. split; [reflexivity | exact E].
    + left. repeat split. eexists. split; [reflexivity|]. cbn [In]. tauto.
Qed.


Section HookFacts.
Local Open Scope R_scope.
Import Units.

Lemma lengthToSI_FromSI (v : num) (u : LengthUnit) :
  lengthToSI (lengthFromSI v u) u = v.
Proof.
  destruct (LENGTH_TO_M_pos u) as (c & Ec & Hc).
  unfold lengthFromSI, lengthToSI. rewrite Ec.
  exact (proj2 (@scale_round_trip v c Hc)).
Qed.

Lemma frequencyFromSI_ToSI (v : num) (u : FrequencyUnit) :
  frequencyFromSI (frequencyToSI v u) u = v.
Proof.
  destruct (FREQ_TO_HZ_pos u) as (c & Ec & Hc).
  unfold frequencyFromSI, frequencyToSI. rewrite Ec.
  exact (proj1 (@scale_round_trip v c Hc)).
Qed.

Lemma lengthToSI_NaN (u : LengthUnit) : lengthToSI NaN u = NaN.
Proof. reflexivity. Qed.

(** With a [NaN] height the forward model returns its partial record. *)
Lemma computeRectangularPatch_NaN_partial (fr e : R) :
  0 < fr -> 1 <= e ->
  Rectangular.computeRectangularPatch
    {| Rectangular.frHz := Fin fr; Rectangular.epsilonR := Fin e;
       Rectangular.hM := NaN |}
  = Some (Rectangular.partialResult
            {| Rectangular.frHz := Fin fr; Rectangular.epsilonR := Fin e;
               Rectangular.hM := NaN |}).
Proof.
  intros Hfr He.
  pose proof (computeRectangularPatch_NaN_height Hfr He) as Hne.
  rewrite computeRectangularPatch_flow in *.
  destruct (Rectangular.invalidInput _); [contradiction|].
  destruct (_ || _ || _); [contradiction|].
  rewrite I1Of_NaN. reflexivity.
Qed.

End HookFacts.

(** X25.  Round trip through the rectangular hook, in exact arithmetic
    (no rounding, overflow or underflow).  In frequency mode, with a
    frequency, permittivity and height whose SI values are in the design
    range ([1e9..10e9] Hz, [2..10], [0.2e-3..3e-3] m, any units),
    [calculate] publishes a record with no error; if the state is then
    switched to dimensions mode with that record's [W] and [L] entered in
    the height's unit (the unit the hook reads width and length in),
    [calculate] publishes the same record with the original frequency as
    computed frequency, which [getFrequencyInUnit] shows as the number
    first entered. *)
Theorem rectangular_hook_round_trip
    (state : UseRectangularPatch.RectangularPatchState) (f e h : R) :
  UseRectangularPatch.mode state = UseRectangularPatch.ModeFrequency ->
  Units.frequencyToSI (UseRectangularPatch.frequency state)
    (UseRectangularPatch.frequencyUnit state) = Fin f ->
  UseRectangularPatch.epsilonR state = Fin e ->
  Units.lengthToSI (UseRectangularPatch.height state)
    (UseRectangularPatch.heightUnit state) = Fin h ->
  (1e9 <= f <= 10e9)%R -> (2 <= e <= 10)%R -> (0.2e-3 <= h <= 3e-3)%R ->
  exists res : Rectangular.RectangularPatchResult,
    UseRectangularPatch.calculate state
    = {| UseRectangularPatch.result := Some res;
         UseRectangularPatch.computedFrHz := None;
         UseRectangularPatch.error := None |}
    /\ UseRectangularPatch.calculate
         {| UseRectangularPatch.mode := UseRectangularPatch.ModeDimensions;
            UseRectangularPatch.frequency := UseRectangularPatch.frequency state;
            UseRectangularPatch.frequencyUnit :=
              UseRectangularPatch.frequencyUnit state;
            UseRectangularPatch.width :=
              UseRectangularPatch.getLengthInUnit (Rectangular.W res)
                (UseRectangularPatch.heightUnit state);
            UseRectangularPatch.length :=
              UseRectangularPatch.getLengthInUnit (Rectangular.L res)
                (UseRectangularPatch.heightUnit state);
            UseRectangularPatch.epsilonR := UseRectangularPatch.epsilonR state;
            UseRectangularPatch.height := UseRectangularPatch.height state;
            UseRectangularPatch.heightUnit := UseRectangularPatch.heightUnit state;
            UseRectangularPatch.feedXOffset :=
              UseRectangularPatch.feedXOffset state;
            UseRectangularPatch.feedYOffset :=
              UseRectangularPatch.feedYOffset state |}
       = {| UseRectangularPatch.result := Some res;
            UseRectangularPatch.computedFrHz := Some (Fin f);
            UseRectangularPatch.error := None |}
    /\ UseRectangularPatch.getFrequencyInUnit (Fin f)
         (UseRectangularPatch.frequencyUnit state)
       = UseRectangularPatch.frequency state.
Proof.
  intros Hmode Hf He Hh Rf Re Rh.
  destruct (computeRectangularPatch_range Rf Re Rh) as (res & Hres & HW & HL).
  assert (Hw : (0 < widthR f e)%R) by (apply widthR_pos; lra).
  pose proof (lengthR_range Rf Re Rh) as [Hl _].
  exists res. split; [|split].
  - unfold UseRectangularPatch.calculate. cbv zeta.
    rewrite Hmode, Hf, He, Hh, !lt_Fin, !le_Fin.
    rewrite Rltb_false, !Rleb_false by lra. cbn [orb].
    rewrite Hres.
    destruct (@record_conductances _ _ Hres) as (g1 & g12 & -> & -> & _).
    reflexivity.
  - unfold UseRectangularPatch.calculate. cbv zeta.
    cbn [UseRectangularPatch.mode UseRectangularPatch.width
         UseRectangularPatch.length UseRectangularPatch.epsilonR
         UseRectangularPatch.height UseRectangularPatch.heightUnit].
    unfold UseRectangularPatch.getLengthInUnit.
    rewrite !lengthToSI_FromSI, He, Hh, HW, HL, !lt_Fin, !le_Fin.
    rewrite Rltb_false, !Rleb_false by lra. cbn [orb].
    rewrite (computeRectangularPatchReverse_range Rf Re Rh), Hres.
    reflexivity.
  - unfold UseRectangularPatch.getFrequencyInUnit. rewrite <- Hf.
    apply frequencyFromSI_ToSI.
Qed.

Lemma rectangular_hook_round_trip_witness :
  let state := UseRectangularPatch.defaultState in
  exists res : Rectangular.RectangularPatchResult,
    UseRectangularPatch.calculate state
    = {| UseRectangularPatch.result := Some res;
         UseRectangularPatch.computedFrHz := None;
         UseRectangularPatch.error := None |}
    /\ UseRectangularPatch.calculate
         {| UseRectangularPatch.mode := UseRectangularPatch.ModeDimensions;
            UseRectangularPatch.frequency := UseRectangularPatch.frequency state;
            UseRectangularPatch.frequencyUnit :=
              UseRectangularPatch.frequencyUnit state;
            UseRectangularPatch.width :=
              UseRectangularPatch.getLengthInUnit (Rectangular.W res)
                (UseRectangularPatch.heightUnit state);
            UseRectangularPatch.length :=
              UseRectangularPatch.getLengthInUnit (Rectangular.L res)
                (UseRectangularPatch.heightUnit state);
            UseRectangularPatch.epsilonR := UseRectangularPatch.epsilonR state;
            UseRectangularPatch.height := UseRectangularPatch.height state;
            UseRectangularPatch.heightUnit := UseRectangularPatch.heightUnit state;
            UseRectangularPatch.feedXOffset :=
              UseRectangularPatch.feedXOffset state;
            UseRectangularPatch.feedYOffset :=
              UseRectangularPatch.feedYOffset state |}
       = {| UseRectangularPatch.result := Some res;
            UseRectangularPatch.computedFrHz := Some (Fin (2.4 * 1e9));
            UseRectangularPatch.error := None |}
    /\ UseRectangularPatch.getFrequencyInUnit (Fin (2.4 * 1e9))
         (UseRectangularPatch.frequencyUnit state)
       = UseRectangularPatch.frequency state.
Proof.
  intros state.
  apply (@rectangular_hook_round_trip state (2.4 * 1e9) 4.4 (1.6 * 1e-3));
    [reflexivity | reflexivity | reflexivity | reflexivity | lra | lra | lra].
Defined.

(** X26.  A height that is not a number goes through the rectangular
    hook unnoticed.  In exact arithmetic (no rounding, overflow or
    underflow): in frequency mode, at a finite frequency above 0 and a
    finite permittivity of at least 1, [calculate] with [height = NaN]
    sets no error and publishes a record whose [W] and [RinAtEdge] are
    finite while [L], [L_eff], [epsilonReff], [directivityD] and
    [directivityDBi] are [NaN]. *)
Theorem rectangular_hook_NaN_height
    (state : UseRectangularPatch.RectangularPatchState) (f e : R) :
  UseRectangularPatch.mode state = UseRectangularPatch.ModeFrequency ->
  Units.frequencyToSI (UseRectangularPatch.frequency state)
    (UseRectangularPatch.frequencyUnit state) = Fin f ->
  UseRectangularPatch.epsilonR state = Fin e ->
  UseRectangularPatch.height state = NaN ->
  (0 < f)%R -> (1 <= e)%R ->
  exists res : Rectangular.RectangularPatchResult,
    UseRectangularPatch.calculate state
    = {| UseRectangularPatch.result := Some res;
         UseRectangularPatch.computedFrHz := None;
         UseRectangularPatch.error := None |}
    /\ Number_isFinite (Rectangular.W res) = true
    /\ Number_isFinite (Rectangular.RinAtEdge res) = true
    /\ Rectangular.L res = NaN /\ Rectangular.L_eff res = NaN
    /\ Rectangular.epsilonReff res = NaN
    /\ Rectangular.directivityD res = NaN
    /\ Rectangular.directivityDBi res = NaN.
Proof.
  intros Hmode Hf He Hh Rf Re.
  pose proof (computeRectangularPatch_NaN_partial Rf Re) as Hres.
  destruct (@record_conductances _ _ Hres) as (g1 & g12 & E1 & E12 & _ & ER).
  eexists. split; [|split; [|split]].
  - unfold UseRectangularPatch.calculate. cbv zeta.
    rewrite Hmode, Hf, He, Hh, lengthToSI_NaN, lt_Fin, le_Fin, le_NaN_l.
    rewrite Rltb_false, Rleb_false by lra. cbn [orb].
    rewrite Hres, E1, E12. reflexivity.
  - cbn [Rectangular.W Rectangular.partialResult].
    change (Rectangular.widthOf
              {| Rectangular.frHz := Fin f; Rectangular.epsilonR := Fin e;
                 Rectangular.hM := NaN |})
      with (Rectangular.widthOf
              {| Rectangular.frHz := Fin f; Rectangular.epsilonR := Fin e;
                 Rectangular.hM := Fin 1 |}).
    rewrite (widthOf_Fin 1 Rf Re). reflexivity.
  - rewrite ER. reflexivity.
  - cbn [Rectangular.L Rectangular.L_eff Rectangular.epsilonReff
         Rectangular.directivityD Rectangular.directivityDBi
         Rectangular.partialResult].
    rewrite lengthOf_NaN, effectiveLengthOf_NaN, epsilonReffOf_NaN.
    repeat split.
Qed.

Lemma rectangular_hook_NaN_height_witness :
  let state :=
    {| UseRectangularPatch.mode := UseRectangularPatch.ModeFrequency;
       UseRectangularPatch.frequency := Fin 2.4;
       UseRectangularPatch.frequencyUnit := Units.GHz;
       UseRectangularPatch.width := Fin 30;
       UseRectangularPatch.length := Fin 24;
       UseRectangularPatch.epsilonR := Fin 4.4;
       UseRectangularPatch.height := NaN;
       UseRectangularPatch.heightUnit := Units.mm;
       UseRectangularPatch.feedXOffset := None;
       UseRectangularPatch.feedYOffset := None |} in
  exists res : Rectangular.RectangularPatchResult,
    UseRectangularPatch.calculate state
    = {| UseRectangularPatch.result := Some res;
         UseRectangularPatch.computedFrHz := None;
         UseRectangularPatch.error := None |}
    /\ Number_isFinite (Rectangular.W res) = true
    /\ Number_isFinite (Rectangular.RinAtEdge res) = true
    /\ Rectangular.L res = NaN /\ Rectangular.L_eff res = NaN
    /\ Rectangular.epsilonReff res = NaN
    /\ Rectangular.directivityD res = NaN
    /\ Rectangular.directivityDBi res = NaN.
Proof.
  intros state.
  apply (@rectangular_hook_NaN_height state (2.4 * 1e9) 4.4);
    [reflexivity | reflexivity | reflexivity | reflexivity | lra | lra].
Defined.


Section CircularNaNHeight.
Local Open Scope R_scope.
Import Circular.

(** With a [NaN] height no radius is computed. *)
Lemma physicalRadius_NaN_height (FVal epsilonR : num) :
  physicalRadius FVal NaN epsilonR = NaN.
Proof.
  unfold physicalRadius. autorewrite with nan. cbn [Math_log].
  autorewrite with nan. cbn [Math_sqrt]. autorewrite with nan. reflexivity.
Qed.

Lemma computeCircularPatch_NaN_height (fr e : R) :
  0 < fr -> 1 <= e ->
  computeCircularPatch {| frHz := Fin fr; epsilonR := Fin e; hM := NaN |}
  = Some {| a := NaN; a_e := NaN; directivityD := NaN; directivityDBi := NaN;
            lambda0 := Constants.wavelength (Fin fr) |}.
Proof.
  intros Hfr He. unfold computeCircularPatch. cbn [frHz epsilonR hM].
  rewrite le_NaN_l, le_Fin, lt_Fin, Rleb_false, Rltb_false by lra.
  cbn [orb]. rewrite physicalRadius_NaN_height, effectiveRadius_NaN.
  autorewrite with nan. cbn [Math_pow]. autorewrite with nan.
  cbn [Number_isFinite negb orb]. reflexivity.
Qed.

Variables aM e : R.
Hypothesis HaM : 0 < aM.
Hypothesis He : 1 <= e.

Lemma interval_NaN_height (i : nat) (lo hi : R) :
  0 < lo -> 0 < hi ->
  exists lo' hi' : R,
    interval (Fin aM) NaN (Fin e) (Fin lo, Fin hi) i = (Fin lo', Fin hi')
    /\ 0 < lo' /\ 0 < hi'.
Proof.
  intros Hlo Hhi. induction i as [|i IH].
  - exists lo, hi. repeat split; assumption.
  - destruct IH as (lo' & hi' & Hi & Hlo' & Hhi').
    unfold interval in *. rewrite Nat.iter_succ, Hi.
    unfold bisectStep. rewrite physicalRadius_NaN_height, lt_NaN_l.
    rewrite (@midpoint_Fin lo' hi'). cbn [fst snd].
    exists lo', ((lo' + hi') / 2). split; [reflexivity|]. lra.
Qed.

Lemma computeCircularPatchReverse_NaN_height :
  exists fr : R,
    0 < fr
    /\ computeCircularPatchReverse
         {| Circular.aM := Fin aM; epsilonR_rev := Fin e; hM_rev := NaN |}
       = Some (Fin fr,
               {| a := NaN; a_e := NaN; directivityD := NaN;
                  directivityDBi := NaN;
                  lambda0 := Constants.wavelength (Fin fr) |}).
Proof.
  destruct (@bisect_exit (Fin aM) NaN (Fin e) 80 (Fin 1e-5) (Fin 0.1))
    as (i & _ & Hb & _).
  destruct (@interval_NaN_height i 1e-5 0.1) as (lo' & hi' & Eint & Hlo' & Hhi');
    [lra | lra |].
  rewrite Eint, midpoint_Fin in Hb.
  assert (Hmid : 0 < (lo' + hi') / 2) by lra.
  assert (Hs : 1 <= sqrt e) by (rewrite <- sqrt_1; apply sqrt_le_1; lra).
  assert (Hp : 0 < (lo' + hi') / 2 * sqrt e) by (apply Rmult_lt_0_compat; lra).
  assert (Hfr : 0 < 8.791e7 / ((lo' + hi') / 2 * sqrt e))
    by (apply Rdiv_lt_0_compat; lra).
  exists (8.791e7 / ((lo' + hi') / 2 * sqrt e)). split; [exact Hfr|].
  unfold computeCircularPatchReverse, computeCircularPatchReverseFuel.
  cbn [Circular.aM epsilonR_rev hM_rev].
  rewrite le_NaN_l, le_Fin, lt_Fin, Rleb_false, Rltb_false by lra.
  cbn [orb].
  rewrite expandLow_S, expandHigh_S, !physicalRadius_NaN_height.
  rewrite le_NaN_l. unfold ge. change (Fin aM <=? NaN)%num with false.
  cbn [andb]. cbv iota. rewrite !physicalRadius_NaN_height.
  unfold gt. change (Fin aM <? NaN)%num with false. rewrite lt_NaN_l.
  cbn [orb]. cbv iota. rewrite Hb.
  unfold finish. rewrite sqrt_Fin by lra. rewrite mul_Fin, div_Fin by lra.
  rewrite (computeCircularPatch_NaN_height Hfr He). reflexivity.
Qed.

End CircularNaNHeight.

(** X27.  In frequency mode the circular hook refuses a height that is
    not a number, but with the message for a failed integral: at a finite
    frequency above 0 and a finite permittivity of at least 1,
    [calculate] with [height = NaN] publishes no result and sets the
    error 'Directivity integral did not converge'. *)
Theorem circular_hook_NaN_height_frequency
    (state : UseCircularPatch.CircularPatchState) (f e : R) :
  UseCircularPatch.mode state = UseCircularPatch.ModeFrequency ->
  Units.frequencyToSI (UseCircularPatch.frequency state)
    (UseCircularPatch.frequencyUnit state) = Fin f ->
  UseCircularPatch.epsilonR state = Fin e ->
  UseCircularPatch.height state = NaN ->
  (0 < f)%R -> (1 <= e)%R ->
  UseCircularPatch.calculate state
  = UseCircularPatch.failWith "Directivity integral did not converge".
Proof.
  intros Hmode Hf He Hh Rf Re.
  unfold UseCircularPatch.calculate. cbv zeta.
  rewrite Hmode, Hf, He, Hh, lengthToSI_NaN, lt_Fin, le_Fin, le_NaN_l.
  rewrite Rltb_false, Rleb_false by lra. cbn [orb].
  rewrite (computeCircularPatch_NaN_height Rf Re). reflexivity.
Qed.

Lemma circular_hook_NaN_height_frequency_witness :
  UseCircularPatch.calculate
    {| UseCircularPatch.mode := UseCircularPatch.ModeFrequency;
       UseCircularPatch.frequency := Fin 2.4;
       UseCircularPatch.frequencyUnit := Units.GHz;
       UseCircularPatch.radius := Fin 14;
       UseCircularPatch.epsilonR := Fin 4.4;
       UseCircularPatch.height := NaN;
       UseCircularPatch.heightUnit := Units.mm;
       UseCircularPatch.feedXOffset := None;
       UseCircularPatch.feedYOffset := None |}
  = UseCircularPatch.failWith "Directivity integral did not converge".
Proof.
  apply (@circular_hook_NaN_height_frequency _ (2.4 * 1e9) 4.4);
    [reflexivity | reflexivity | reflexivity | reflexivity | lra | lra].
Defined.

(** X28.  In dimensions mode the same height goes through: at a finite
    radius above 0 and a finite permittivity of at least 1, [calculate]
    with [height = NaN] sets no error and publishes a finite positive
    computed frequency with a record whose [a], [a_e], [directivityD] and
    [directivityDBi] are all [NaN]. *)
Theorem circular_hook_NaN_height_dimensions
    (state : UseCircularPatch.CircularPatchState) (aM e : R) :
  UseCircularPatch.mode state = UseCircularPatch.ModeDimensions ->
  Units.lengthToSI (UseCircularPatch.radius state)
    (UseCircularPatch.heightUnit state) = Fin aM ->
  UseCircularPatch.epsilonR state = Fin e ->
  UseCircularPatch.height state = NaN ->
  (0 < aM)%R -> (1 <= e)%R ->
  exists (fr : R) (res : Circular.CircularPatchResult),
    UseCircularPatch.calculate state
    = {| UseCircularPatch.result := Some res;
         UseCircularPatch.computedFrHz := Some (Fin fr);
         UseCircularPatch.error := None |}
    /\ (0 < fr)%R
    /\ Circular.a res = NaN /\ Circular.a_e res = NaN
    /\ Circular.directivityD res = NaN /\ Circular.directivityDBi res = NaN.
Proof.
  intros Hmode Ha He Hh Ra Re.
  destruct (@computeCircularPatchReverse_NaN_height aM e Ra Re)
    as (fr & Hfr & Hrev).
  exists fr. eexists. split; [|split; [exact Hfr|]].
  - unfold UseCircularPatch.calculate. cbv zeta.
    rewrite Hmode, Ha, He, Hh, lengthToSI_NaN, lt_Fin, le_Fin, le_NaN_l.
    rewrite Rltb_false, Rleb_false by lra. cbn [orb].
    rewrite Hrev. reflexivity.
  - repeat split.
Qed.

Lemma circular_hook_NaN_height_dimensions_witness :
  exists (fr : R) (res : Circular.CircularPatchResult),
    UseCircularPatch.calculate
      {| UseCircularPatch.mode := UseCircularPatch.ModeDimensions;
         UseCircularPatch.frequency := Fin 2.4;
         UseCircularPatch.frequencyUnit := Units.GHz;
         UseCircularPatch.radius := Fin 14;
         UseCircularPatch.epsilonR := Fin 4.4;
         UseCircularPatch.height := NaN;
         UseCircularPatch.heightUnit := Units.mm;
         UseCircularPatch.feedXOffset := None;
         UseCircularPatch.feedYOffset := None |}
    = {| UseCircularPatch.result := Some res;
         UseCircularPatch.computedFrHz := Some (Fin fr);
         UseCircularPatch.error := None |}
    /\ (0 < fr)%R
    /\ Circular.a res = NaN /\ Circular.a_e res = NaN
    /\ Circular.directivityD res = NaN /\ Circular.directivityDBi res = NaN.
Proof.
  apply (@circular_hook_NaN_height_dimensions _ (14 * 1e-3) 4.4);
    [reflexivity | reflexivity | reflexivity | reflexivity | lra | lra].
Defined.
